(** * Subtree discovery and negative-tree generation of lr-sib

    A shallow embedding of [loreiba/sgcl/trees/generation.py] and of the
    dataset finalization of [loreiba/sgcl/data.py], with the properties the
    specification states about them.

    Python values are modelled as follows.
    - [int] is [Z].
    - A [dict] is an association list in insertion order whose keys never
      repeat: assigning an existing key keeps its position, assigning a new
      key appends, [del] removes.
    - A [set] of ints is a list; its order stands for the order in which
      Python happens to iterate, so a statement over every list covers
      every iteration order.
    - A [while] loop takes a fuel argument; an exception is a [Raise]
      result; [random.sample] reads its outcome from a tape of draws.
    - A [DatasetDict] is an association list from split names to rows;
      rows are abstract.  [Dataset.from_generator] returns the rows it is
      given and raises [ValueError] when there are none. *)

From Stdlib Require Import ZArith List Bool Lia Permutation Sorted.
From Stdlib Require String.
Import String.StringSyntax.
Local Open Scope string_scope.
Import ListNotations.
Local Open Scope Z_scope.

(** ** Results of Python computations *)

Inductive exn : Type :=
| KeyError
| IndexError
| ValueError
| ZeroDivisionError
| Exception (msg : String.string).

Inductive result (A : Type) : Type :=
| Ok (a : A)
| Raise (e : exn)
| OutOfFuel.

Arguments Ok {A} a.
Arguments Raise {A} e.
Arguments OutOfFuel {A}.

Definition bind {A B : Type} (r : result A) (k : A -> result B) : result B :=
  match r with
  | Ok a => k a
  | Raise e => Raise e
  | OutOfFuel => OutOfFuel
  end.

Notation "x <- c ;; k" := (bind c (fun x => k))
  (at level 61, c at next level, right associativity).

(** ** Dictionaries keyed by token ids *)

Module Dict.

Section Ops.
Context {V : Type}.

Definition t := list (Z * V).

Definition keys (d : t) : list Z := map fst d.

Fixpoint get (k : Z) (d : t) : option V :=
  match d with
  | [] => None
  | (k', v) :: d' => if k =? k' then Some v else get k d'
  end.

Definition mem (k : Z) (d : t) : bool :=
  match get k d with Some _ => true | None => false end.

(** [d[k] = v] *)
Fixpoint set (k : Z) (v : V) (d : t) : t :=
  match d with
  | [] => [(k, v)]
  | (k', v') :: d' => if k =? k' then (k, v) :: d' else (k', v') :: set k v d'
  end.

(** [del d[k]] *)
Fixpoint del (k : Z) (d : t) : t :=
  match d with
  | [] => []
  | (k', v') :: d' => if k =? k' then d' else (k', v') :: del k d'
  end.

(** [d[k]], raising [KeyError] on a missing key *)
Definition lookup (k : Z) (d : t) : result V :=
  match get k d with
  | Some v => Ok v
  | None => Raise KeyError
  end.
End Ops.

Arguments t V : clear implicits.

End Dict.

(** A parent map: token id to parent id, [None] for the root. *)
Definition head_map := Dict.t (option Z).

(** Python sets of ints, as lists without repetition. *)
Definition mem_Z (x : Z) (s : list Z) : bool := existsb (Z.eqb x) s.

Definition set_add (x : Z) (s : list Z) : list Z :=
  if mem_Z x s then s else s ++ [x].

(** ** generation.py *)

(** [parent == token_id] for a dictionary value [parent] *)
Definition is_head (token_id : Z) (parent : option Z) : bool :=
  match parent with
  | Some p => p =? token_id
  | None => false
  end.

Definition immediate_children (hm : head_map) (token_id : Z) : list Z :=
  map fst (filter (fun cp => is_head token_id (snd cp)) hm).

(** The [while len(queue) > 0] loop of [subtree_of_id]. *)
Fixpoint subtree_loop (fuel : nat) (hm : head_map) (queue : list Z)
    (subtree : head_map) : result head_map :=
  match queue with
  | [] => Ok subtree
  | token_id :: queue' =>
    match fuel with
    | O => OutOfFuel
    | S fuel' =>
      h <- Dict.lookup token_id hm ;;
      subtree_loop fuel' hm (queue' ++ immediate_children hm token_id)
        (Dict.set token_id h subtree)
    end
  end.

Definition subtree_of_id (fuel : nat) (hm : head_map) (token_id : Z)
    : result head_map :=
  subtree_loop fuel hm (immediate_children hm token_id) [(token_id, None)].

(** The [while current is not None] loop of [adjacent_ids_of_subtree]. *)
Fixpoint parents_loop (fuel : nat) (hm : head_map) (current : option Z)
    (parent_ids : list Z) : result (list Z) :=
  match current with
  | None => Ok parent_ids
  | Some c =>
    match fuel with
    | O => OutOfFuel
    | S fuel' =>
      h <- Dict.lookup c hm ;;
      parents_loop fuel' hm h (set_add c parent_ids)
    end
  end.

Definition is_adjacent (hm : head_map) (subtree_ids parent_ids : list Z)
    (x : Z) : bool :=
  (0 <? x) && negb (mem_Z x subtree_ids) && negb (mem_Z x parent_ids)
  && Dict.mem x hm.

Definition adjacent_step (hm : head_map) (subtree_ids parent_ids : list Z)
    (adjacent : list Z) (token_id : Z) : list Z :=
  let left := token_id - 1 in
  let right := token_id + 1 in
  fold_left
    (fun adj x =>
       if is_adjacent hm subtree_ids parent_ids x then set_add x adj else adj)
    [left; right] adjacent.

Definition adjacent_ids_of_subtree (fuel : nat) (hm : head_map)
    (subtree_ids : list Z) : result (list Z) :=
  match subtree_ids with
  | [] => Raise IndexError
  | current :: _ =>
    parent_ids <- parents_loop fuel hm (Some current) [] ;;
    Ok (fold_left (adjacent_step hm subtree_ids parent_ids) subtree_ids [])
  end.

(** [range(1, n)] *)
Definition range1 (n : nat) : list Z := map Z.of_nat (seq 1 (n - 1)).

Fixpoint get_all_subtrees_loop (fuel : nat) (hm : head_map) (ids : list Z)
    (subtrees : Dict.t head_map) : result (Dict.t head_map) :=
  match ids with
  | [] => Ok subtrees
  | token_id :: ids' =>
    s <- subtree_of_id fuel hm token_id ;;
    get_all_subtrees_loop fuel hm ids' (Dict.set token_id s subtrees)
  end.

Definition get_all_subtrees (fuel : nat) (hm : head_map)
    : result (Dict.t head_map) :=
  get_all_subtrees_loop fuel hm (range1 (length hm)) [].

(** Modelled from the spec: [TreeSgclConfig] is declared in
    [loreiba/sgcl/trees/common.py]; the generator reads these four integer
    fields of it. *)
Record TreeSgclConfig : Type := {
  min_subtree_size : Z;
  max_replacements : Z;
  max_negative_per_subtree : Z;
  max_retry : Z
}.

(** The dictionaries [get_eligible_subtrees] collects. *)
Record candidate : Type := {
  root_id : Z;
  subtree : head_map;
  adjacent_ids : list Z
}.

Definition len {A : Type} (l : list A) : Z := Z.of_nat (length l).

(** [set_of] stands for [set(...)]: it lists the elements in the order the
    interpreter iterates the set it builds. *)
Fixpoint get_eligible_subtrees_loop (set_of : list Z -> list Z) (fuel : nat)
    (config : TreeSgclConfig) (hm : head_map) (all_subtrees : Dict.t head_map)
    (ids : list Z) (eligible : list candidate) : result (list candidate) :=
  match ids with
  | [] => Ok eligible
  | token_id :: ids' =>
    s <- Dict.lookup token_id all_subtrees ;;
    adj <- adjacent_ids_of_subtree fuel hm (set_of (Dict.keys s)) ;;
    if len s <? min_subtree_size config then
      get_eligible_subtrees_loop set_of fuel config hm all_subtrees ids' eligible
    else if len adj <? 1 then
      get_eligible_subtrees_loop set_of fuel config hm all_subtrees ids' eligible
    else
      get_eligible_subtrees_loop set_of fuel config hm all_subtrees ids'
        (eligible ++
         [{| root_id := token_id; subtree := s; adjacent_ids := adj |}])
  end.

Definition get_eligible_subtrees (set_of : list Z -> list Z) (fuel : nat)
    (config : TreeSgclConfig) (hm : head_map) (all_subtrees : Dict.t head_map)
    : result (list candidate) :=
  get_eligible_subtrees_loop set_of fuel config hm all_subtrees
    (range1 (length hm)) [].

(** *** Negative tree generation *)

Definition is_none {A : Type} (v : option A) : bool :=
  match v with None => true | Some _ => false end.

(** [{k for k, v in subtree.items() if v is not None}] *)
Definition all_replacement_targets (subtree : head_map) : list Z :=
  map fst (filter (fun kv => negb (is_none (snd kv))) subtree).

Definition sample_size (config : TreeSgclConfig) (subtree : head_map)
    (adjacent_ids : list Z) : Z :=
  Z.min (Z.min (len (all_replacement_targets subtree)) (len adjacent_ids))
        (max_replacements config).

(** [random.sample(population, k)]: the drawn list comes from the tape; the
    call raises when [k] is negative or exceeds the population. *)
Definition random_sample (population : list Z) (k : Z) (draw : list Z)
    : result (list Z) :=
  if (k <? 0) || (len population <? k) then Raise ValueError else Ok draw.

(** What [random.sample] may return: [k] elements at distinct positions. *)
Definition is_sample (population : list Z) (k : Z) (draw : list Z) : Prop :=
  len draw = k /\ exists rest, Permutation population (draw ++ rest).

Fixpoint insert_sorted (x : Z) (l : list Z) : list Z :=
  match l with
  | [] => [x]
  | y :: l' => if x <=? y then x :: l else y :: insert_sorted x l'
  end.

(** [sorted(...)] on ints *)
Definition sorted (l : list Z) : list Z := fold_right insert_sorted [] l.

Definition signature : Type := list Z * list Z.

Definition signature_eqb (a b : signature) : bool :=
  (if list_eq_dec Z.eq_dec (fst a) (fst b) then true else false)
  && (if list_eq_dec Z.eq_dec (snd a) (snd b) then true else false).

(** [[k for k, v in target_subtree.items() if v is None][0]] *)
Definition none_key (s : head_map) : result Z :=
  match filter (fun kv => is_none (snd kv)) s with
  | [] => Raise IndexError
  | kv :: _ => Ok (fst kv)
  end.

(** The loop deleting the ids of the target subtree. *)
Definition remove_ids (ids : list Z) (negative_tree : head_map) : head_map :=
  fold_left
    (fun nt k => if Dict.mem k nt then Dict.del k nt else nt)
    ids negative_tree.

(** The loop writing the replacement subtree into the negative tree. *)
Definition splice_in (subtree_head_id : Z) (replacement_subtree : head_map)
    (negative_tree : head_map) : head_map :=
  fold_left
    (fun nt th =>
       let head_id :=
         match snd th with
         | None => subtree_head_id
         | Some h => h
         end in
       Dict.set (fst th) (Some head_id) nt)
    replacement_subtree negative_tree.

(** The body of [for target, value in zip(targets, values)]. *)
Definition replace_one (all_subtrees : Dict.t head_map) (target value : Z)
    (negative_tree : head_map) : result head_map :=
  target_subtree <- Dict.lookup target all_subtrees ;;
  subtree_head_id <- none_key target_subtree ;;
  let negative_tree := remove_ids (Dict.keys target_subtree) negative_tree in
  replacement_subtree <- Dict.lookup value all_subtrees ;;
  Ok (splice_in subtree_head_id replacement_subtree negative_tree).

Fixpoint replace_all (all_subtrees : Dict.t head_map) (pairs : list (Z * Z))
    (negative_tree : head_map) : result head_map :=
  match pairs with
  | [] => Ok negative_tree
  | (target, value) :: pairs' =>
    nt <- replace_one all_subtrees target value negative_tree ;;
    replace_all all_subtrees pairs' nt
  end.

(** The negative tree built for an accepted signature. *)
Definition build_negative (all_subtrees : Dict.t head_map) (subtree : head_map)
    (sig : signature) : result head_map :=
  replace_all all_subtrees (combine (fst sig) (snd sig)) subtree.

Record gen_state : Type := {
  already_done : list signature;
  negatives : list head_map;
  retry_count : Z
}.

Definition gen_init : gen_state :=
  {| already_done := []; negatives := []; retry_count := 0 |}.

(** The [while len(negatives) < config.max_negative_per_subtree] loop.  Each
    iteration consumes one entry of the tape: the outcomes of its two
    [random.sample] calls.  A tape that runs out stands for a loop that is
    still running. *)
Fixpoint negatives_loop (config : TreeSgclConfig)
    (all_subtrees : Dict.t head_map) (subtree : head_map)
    (adjacent_ids : list Z) (tape : list (list Z * list Z)) (st : gen_state)
    : result gen_state :=
  if len (negatives st) <? max_negative_per_subtree config then
    match tape with
    | [] => OutOfFuel
    | (draw_t, draw_v) :: tape' =>
      let k := sample_size config subtree adjacent_ids in
      ts <- random_sample (all_replacement_targets subtree) k draw_t ;;
      vs <- random_sample adjacent_ids k draw_v ;;
      let sig := (sorted ts, sorted vs) in
      if existsb (signature_eqb sig) (already_done st) then
        let rc := retry_count st + 1 in
        let st' := {| already_done := already_done st;
                      negatives := negatives st;
                      retry_count := rc |} in
        if rc >? max_retry config then Ok st'
        else negatives_loop config all_subtrees subtree adjacent_ids tape' st'
      else
        negative_tree <- build_negative all_subtrees subtree sig ;;
        negatives_loop config all_subtrees subtree adjacent_ids tape'
          {| already_done := already_done st ++ [sig];
             negatives := negatives st ++ [negative_tree];
             retry_count := retry_count st |}
    end
  else Ok st.

Record tree_set : Type := {
  ts_root_id : Z;
  positive : head_map;
  ts_negatives : list head_map
}.

Definition generate_negative_trees (config : TreeSgclConfig)
    (all_subtrees : Dict.t head_map) (c : candidate)
    (tape : list (list Z * list Z)) : result tree_set :=
  st <- negatives_loop config all_subtrees (subtree c) (adjacent_ids c)
          tape gen_init ;;
  Ok {| ts_root_id := root_id c;
        positive := subtree c;
        ts_negatives := negatives st |}.

(** *** The batch entry point *)

(** [(head != 0).sum(1) + 1] for one row of the batch *)
Definition token_count (row : list Z) : nat :=
  S (length (filter (fun h => negb (h =? 0)) row)).

(** [head[i, : token_counts[i]]] *)
Definition padless_head (row : list Z) : list Z :=
  firstn (token_count row) row.

(** [{0: None, **{i + 1: h.item() for i, h in enumerate(heads)}}] *)
Definition build_head_map (heads : list Z) : head_map :=
  fold_left
    (fun d ih => Dict.set (Z.of_nat (fst ih) + 1) (Some (snd ih)) d)
    (combine (seq 0 (length heads)) heads)
    [(0, None)].

(** A list comprehension whose body may raise. *)
Fixpoint map_result {A B : Type} (f : A -> result B) (l : list A)
    : result (list B) :=
  match l with
  | [] => Ok []
  | a :: l' =>
    b <- f a ;;
    bs <- map_result f l' ;;
    Ok (b :: bs)
  end.

(** The inner loop [for subtree in subtree_list].  The calls draw one after
    the other from the generator of the [random] module; [tapes] lists,
    call by call, the draws each call reads. *)
Fixpoint generate_for_sentence (config : TreeSgclConfig)
    (all_subtrees : Dict.t head_map) (subtree_list : list candidate)
    (tapes : list (list (list Z * list Z))) : result (list tree_set) :=
  match subtree_list with
  | [] => Ok []
  | c :: cs =>
    ts <- generate_negative_trees config all_subtrees c (hd [] tapes) ;;
    rest <- generate_for_sentence config all_subtrees cs (tl tapes) ;;
    Ok (ts :: rest)
  end.

(** The outer loop [for subtree_list, all_subtrees in zip(...)]. *)
Fixpoint generate_for_batch (config : TreeSgclConfig)
    (sentences : list (list candidate * Dict.t head_map))
    (tapes : list (list (list (list Z * list Z))))
    : result (list (list tree_set)) :=
  match sentences with
  | [] => Ok []
  | (subtree_list, all_subtrees) :: rest =>
    r <- generate_for_sentence config all_subtrees subtree_list
           (hd [] tapes) ;;
    rs <- generate_for_batch config rest (tl tapes) ;;
    Ok (r :: rs)
  end.

(** [generate_subtrees], on the rows of the [head] tensor.  [sample] stands
    for [config.subtree_sampling_method.sample]. *)
Definition generate_subtrees (set_of : list Z -> list Z) (fuel : nat)
    (sample : list candidate -> list candidate) (config : TreeSgclConfig)
    (head : list (list Z)) (tapes : list (list (list (list Z * list Z))))
    : result (list (list tree_set)) :=
  let head_maps := map (fun row => build_head_map (padless_head row)) head in
  all_subtree_lists <- map_result (get_all_subtrees fuel) head_maps ;;
  eligible_subtree_lists <-
    map_result
      (fun sa => get_eligible_subtrees set_of fuel config (fst sa) (snd sa))
      (combine head_maps all_subtree_lists) ;;
  let subtree_lists := map sample eligible_subtree_lists in
  generate_for_batch config (combine subtree_lists all_subtree_lists) tapes.

(** ** data.py: the row loop of [Finalize.run] *)

Module Data.

Definition dataset_dict (R : Type) : Type := list (String.string * list R).

(** A [DatasetDict] with the output format set on it. *)
Record formatted (R : Type) : Type := Formatted {
  ds_format : String.string;
  ds_splits : dataset_dict R
}.

Arguments Formatted {R} _ _.
Arguments ds_format {R} _.
Arguments ds_splits {R} _.

Section Finalize.
(** Rows of the incoming datasets and of the finalized one.  The rows of
    [dataset] are full CoNLL-U rows: [remove_tokens] is such a row without
    its [tokens] column, and [process_row] copies the other columns and sets
    [tree_is_gold]. *)
Variables (Row Out : Type).
Variable remove_tokens : Row -> Row.
Variable process_row : Z -> Row -> Out.

Fixpoint get_split {R : Type} (split : String.string) (d : dataset_dict R)
    : result (list R) :=
  match d with
  | [] => Raise KeyError
  | (name, rows) :: d' =>
    if String.eqb split name then Ok rows else get_split split d'
  end.

(** [dataset.remove_columns(["tokens"])]: the same splits in the same
    order, every row without its [tokens] column. *)
Definition remove_columns (dataset : dataset_dict Row) : dataset_dict Row :=
  map (fun sr => (fst sr, map remove_tokens (snd sr))) dataset.

(** [list(itertools.islice(itertools.cycle(rows), n))] *)
Definition cycle_take (n : Z) (rows : list Out) : list Out :=
  firstn (Z.to_nat n) (concat (repeat rows (Z.to_nat n))).

Definition too_many : exn := Exception "More treebank rows than expected!".

(** [Dataset.from_generator(lambda: chain(base_rows, treebank_rows), ...)]:
    the rows the generator yields, in order.  The constructor raises
    [ValueError] on a generator that yields no row. *)
Definition from_generator (rows : list Out) : result (list Out) :=
  match rows with
  | [] => Raise ValueError
  | _ :: _ => Ok rows
  end.

(** [datasets.DatasetDict(new_dataset).with_format(fmt)] *)
Definition with_format (fmt : String.string) (new_dataset : dataset_dict Out)
    : formatted Out :=
  Formatted fmt new_dataset.

(** The split accesses of [_get_labels]; the label sets it collects feed
    the feature schema only. *)
Definition get_labels_splits (dataset : dataset_dict Row)
    (treebank_dataset : option (dataset_dict Row)) : result unit :=
  _ <- get_split "train" dataset ;;
  _ <- get_split "dev" dataset ;;
  match treebank_dataset with
  | None => Ok tt
  | Some tb =>
    _ <- get_split "train" tb ;;
    _ <- get_split "dev" tb ;;
    _ <- get_split "test" tb ;;
    Ok tt
  end.

(** One iteration of [for split, rows in dataset.items()]: the new split. *)
Definition finalize_split (treebank_dataset : option (dataset_dict Row))
    (unlabeled_per_labeled : Z) (split : String.string) (rows : list Row)
    : result (list Out) :=
  let base_rows := map (process_row 0) rows in
  treebank_rows <-
    match treebank_dataset with
    | None => Ok []
    | Some tb =>
      tb_rows <- get_split split tb ;;
      let treebank_rows := map (process_row 1) tb_rows in
      if String.eqb split "train" then
        if unlabeled_per_labeled =? 0 then Raise ZeroDivisionError
        else
          let target_length := len base_rows / unlabeled_per_labeled in
          if len treebank_rows >? target_length then Raise too_many
          else Ok (cycle_take target_length treebank_rows)
      else Ok treebank_rows
    end ;;
  from_generator (base_rows ++ treebank_rows).

Fixpoint finalize_splits (treebank_dataset : option (dataset_dict Row))
    (unlabeled_per_labeled : Z) (splits : dataset_dict Row)
    (new_dataset : dataset_dict Out) : result (dataset_dict Out) :=
  match splits with
  | [] => Ok new_dataset
  | (split, rows) :: splits' =>
    r <- finalize_split treebank_dataset unlabeled_per_labeled split rows ;;
    finalize_splits treebank_dataset unlabeled_per_labeled splits'
      (new_dataset ++ [(split, r)])
  end.

Definition run (dataset : dataset_dict Row)
    (treebank_dataset : option (dataset_dict Row))
    (unlabeled_per_labeled : Z) : result (formatted Out) :=
  let dataset := remove_columns dataset in
  _ <- get_labels_splits dataset treebank_dataset ;;
  new_dataset <-
    finalize_splits treebank_dataset unlabeled_per_labeled dataset [] ;;
  Ok (with_format "torch" new_dataset).

(** [ncycles(iterable, n)]: the elements of
    [chain.from_iterable(repeat(tuple(iterable), n))] *)
Definition ncycles {A : Type} (iterable : list A) (n : Z) : list A :=
  concat (repeat iterable (Z.to_nat n)).

(** The [xpos] and [deprel] columns of a row. *)
Variables (xpos_of deprel_of : Row -> list String.string).

(** [s.add(x)] on a set of strings *)
Definition label_add (x : String.string) (s : list String.string)
    : list String.string :=
  if existsb (String.eqb x) s then s else s ++ [x].

Definition label_add_all (xs s : list String.string) : list String.string :=
  fold_left (fun acc x => label_add x acc) xs s.

(** The labels of one column over the rows of a split. *)
Definition add_rows (col : Row -> list String.string) (rows : list Row)
    (s : list String.string) : list String.string :=
  fold_left (fun acc d => label_add_all (col d) acc) rows s.

(** The loops of [_get_labels] over the splits of one dataset; the state is
    the pair of label sets [(xpos, deprels)]. *)
Fixpoint collect_labels (d : dataset_dict Row) (splits : list String.string)
    (sets : list String.string * list String.string)
    : result (list String.string * list String.string) :=
  match splits with
  | [] => Ok sets
  | split :: splits' =>
    rows <- get_split split d ;;
    collect_labels d splits'
      (add_rows xpos_of rows (fst sets), add_rows deprel_of rows (snd sets))
  end.

Fixpoint insert_label (x : String.string) (l : list String.string)
    : list String.string :=
  match l with
  | [] => [x]
  | y :: l' => if String.leb x y then x :: l else y :: insert_label x l'
  end.

(** [sorted(list(s))] on a set of strings *)
Definition sorted_labels (s : list String.string) : list String.string :=
  fold_right insert_label [] s.

(** [_get_labels]: the sorted label lists [(xpos, deprels)]. *)
Definition get_labels (dataset : dataset_dict Row)
    (treebank_dataset : option (dataset_dict Row))
    : result (list String.string * list String.string) :=
  sets <- collect_labels dataset ["train"; "dev"] ([], []) ;;
  sets <- match treebank_dataset with
          | None => Ok sets
          | Some tb => collect_labels tb ["train"; "dev"; "test"] sets
          end ;;
  Ok (sorted_labels (fst sets), sorted_labels (snd sets)).

End Finalize.

End Data.

(** ** Vocabulary of the specification *)

(** The parent of a token, when it has one. *)
Definition parent (hm : head_map) (k : Z) : option Z :=
  match Dict.get k hm with
  | Some (Some p) => Some p
  | _ => None
  end.

(** The token [n] parent links above [k]. *)
Fixpoint nth_ancestor (hm : head_map) (n : nat) (k : Z) : option Z :=
  match n with
  | O => Some k
  | S n' =>
    match parent hm k with
    | Some p => nth_ancestor hm n' p
    | None => None
    end
  end.

(** [k] is [r] or one of its transitive descendants; read the other way,
    [r] is [k] or one of its ancestors. *)
Definition descends (hm : head_map) (r k : Z) : Prop :=
  exists n, nth_ancestor hm n k = Some r.

Definition proper_descendant (hm : head_map) (r k : Z) : Prop :=
  exists n, nth_ancestor hm (S n) k = Some r.

(** A dependency tree: a dictionary whose only parentless token is the
    synthetic root 0, whose parents are tokens, and whose parent chains all
    end at 0. *)
Record well_formed (hm : head_map) : Prop := {
  wf_keys : NoDup (Dict.keys hm);
  wf_root : Dict.get 0 hm = Some None;
  wf_single_root : forall k, Dict.get k hm = Some None -> k = 0;
  wf_parent_key : forall k p, parent hm k = Some p -> In p (Dict.keys hm);
  wf_chain : forall k, In k (Dict.keys hm) -> descends hm 0 k
}.

(** A tree rooted at [r], as the negative trees are meant to be: [r] is the
    only parentless entry, parents are keys, and every chain ends at [r]. *)
Record rooted_tree (r : Z) (t : head_map) : Prop := {
  rt_keys : NoDup (Dict.keys t);
  rt_root : Dict.get r t = Some None;
  rt_single_root : forall k, Dict.get k t = Some None -> k = r;
  rt_parent_key : forall k p, parent t k = Some p -> In p (Dict.keys t);
  rt_chain : forall k, In k (Dict.keys t) -> descends t r k
}.

(** Every entry of the tape is a possible outcome of the two draws. *)
Definition valid_tape (config : TreeSgclConfig) (c_subtree : head_map)
    (c_adjacent : list Z) (tape : list (list Z * list Z)) : Prop :=
  Forall
    (fun d =>
       is_sample (all_replacement_targets c_subtree)
                 (sample_size config c_subtree c_adjacent) (fst d)
       /\ is_sample c_adjacent
                    (sample_size config c_subtree c_adjacent) (snd d))
    tape.

(** What holds of the queue and of the subtree built so far, each time
    the loop of [subtree_of_id hm r] tests its condition. *)
Record bfs_inv (hm : head_map) (r : Z) (queue : list Z) (s : head_map)
    : Prop := {
  bi_nodup : NoDup (Dict.keys s ++ queue);
  bi_root : Dict.get r s = Some None;
  bi_vals : forall k, In k (Dict.keys s) -> k <> r ->
    Dict.get k s = Dict.get k hm;
  bi_desc : forall k, In k (Dict.keys s ++ queue) -> descends hm r k;
  bi_queue : forall k, In k queue ->
    exists p, parent hm k = Some p /\ In p (Dict.keys s);
  bi_seen : forall k, In k (Dict.keys s) -> k <> r ->
    exists p, parent hm k = Some p /\ In p (Dict.keys s);
  bi_closed : forall k p, parent hm k = Some p -> In p (Dict.keys s) ->
    In k (Dict.keys s ++ queue)
}.

(** Iterations the sampling loop can still make from a state. *)
Definition budget (config : TreeSgclConfig) (st : gen_state) : nat :=
  (Z.to_nat (max_negative_per_subtree config - len (negatives st))
   + Z.to_nat (max_retry config + 1 - retry_count st))%nat.

(** What every state the sampling loop reaches satisfies. *)
Record gen_inv (config : TreeSgclConfig) (all_subtrees : Dict.t head_map)
    (c_subtree : head_map) (st : gen_state) : Prop := {
  gi_quota : len (negatives st) <= max_negative_per_subtree config;
  gi_nodup : NoDup (already_done st);
  gi_built : Forall2
    (fun sig neg => build_negative all_subtrees c_subtree sig = Ok neg)
    (already_done st) (negatives st)
}.

(** [k] lies on a cycle of parent links. *)
Definition on_cycle (hm : head_map) (k : Z) : Prop :=
  exists n, nth_ancestor hm (S n) k = Some k.

(** The ids of a parent map are the positions [0 .. len(head_map) - 1]. *)
Definition dense_ids (hm : head_map) : Prop :=
  forall k, In k (Dict.keys hm) <-> 0 <= k < len hm.

(** The two tests of [get_eligible_subtrees] on token [i], when the index
    has its subtree and the adjacency resolver returns. *)
Definition eligibleb (set_of : list Z -> list Z) (fuel : nat)
    (config : TreeSgclConfig) (hm : head_map) (all_subtrees : Dict.t head_map)
    (i : Z) : bool :=
  match Dict.get i all_subtrees with
  | Some s =>
    match adjacent_ids_of_subtree fuel hm (set_of (Dict.keys s)) with
    | Ok adj => negb (len s <? min_subtree_size config) && negb (len adj <? 1)
    | _ => false
    end
  | None => false
  end.

(** Where [_get_labels] finds a label of column [col]: in a row of the train
    or dev split of the dataset, or in a row of the train, dev or test split
    of the treebank dataset. *)
Definition label_source {Row : Type} (col : Row -> list String.string)
    (dataset : Data.dataset_dict Row)
    (treebank_dataset : option (Data.dataset_dict Row))
    (y : String.string) : Prop :=
  (exists split rows d,
     In split ["train"; "dev"] /\ Data.get_split split dataset = Ok rows
     /\ In d rows /\ In y (col d))
  \/ (exists tb split rows d,
        treebank_dataset = Some tb /\ In split ["train"; "dev"; "test"]
        /\ Data.get_split split tb = Ok rows /\ In d rows /\ In y (col d)).

(** Ascending order of labels, as [sorted] leaves them. *)
Definition labels_ascending (l : list String.string) : Prop :=
  Sorted (fun a b => String.leb a b = true) l.

(** The sentence of the specification's worked example. *)
Definition hm_ex : head_map :=
  [(0, None); (1, Some 0); (2, Some 1); (3, Some 1); (4, Some 2)].

Definition cfg_ex : TreeSgclConfig :=
  {| min_subtree_size := 2; max_replacements := 1;
     max_negative_per_subtree := 3; max_retry := 0 |}.

Definition all_subtrees_ex : Dict.t head_map :=
  [(1, [(1, None); (2, Some 1); (3, Some 1); (4, Some 2)]);
   (2, [(2, None); (4, Some 2)]); (3, [(3, None)]); (4, [(4, None)])].

Definition cand_ex : candidate :=
  {| root_id := 2; subtree := [(2, None); (4, Some 2)]; adjacent_ids := [3] |}.

(** * Properties *)

(** ** Dictionaries *)

Section DictFacts.
Context {V : Type}.
Implicit Types (d : Dict.t V) (k : Z) (v : V).

Lemma get_In d k v : Dict.get k d = Some v -> In (k, v) d.
Proof.
  induction d as [|[k' v'] d IH]; simpl; [discriminate|].
  destruct (Z.eqb_spec k k') as [->|Hne]; intros H.
  - injection H as ->. now left.
  - right. now apply IH.
Qed.

Lemma get_None d k : Dict.get k d = None <-> ~ In k (Dict.keys d).
Proof.
  induction d as [|[k' v'] d IH]; simpl.
  - split; auto.
  - destruct (Z.eqb_spec k k') as [->|Hne].
    + split; [discriminate|]. intros H. exfalso. apply H. now left.
    + rewrite IH. split; intros H.
      * intros [Heq|Hin]; [congruence|auto].
      * intros Hin. apply H. now right.
Qed.

Lemma get_Some_key d k v : Dict.get k d = Some v -> In k (Dict.keys d).
Proof.
  intros H. apply get_In in H. unfold Dict.keys.
  now apply (in_map fst) in H.
Qed.

Lemma key_get d k : In k (Dict.keys d) -> exists v, Dict.get k d = Some v.
Proof.
  intros Hin. destruct (Dict.get k d) eqn:E; [eauto|].
  apply get_None in E. contradiction.
Qed.

Lemma In_get d k v : NoDup (Dict.keys d) -> In (k, v) d -> Dict.get k d = Some v.
Proof.
  induction d as [|[k' v'] d IH]; simpl; [contradiction|].
  intros Hnd [Heq|Hin].
  - injection Heq as -> ->. now rewrite Z.eqb_refl.
  - inversion Hnd as [|? ? Hnotin Hnd']; subst.
    destruct (Z.eqb_spec k k') as [->|Hne]; [|auto].
    exfalso. apply Hnotin. now apply (in_map fst) in Hin.
Qed.

Lemma mem_true d k : Dict.mem k d = true <-> In k (Dict.keys d).
Proof.
  unfold Dict.mem. destruct (Dict.get k d) eqn:E.
  - split; auto. intros _. eapply get_Some_key; eauto.
  - apply get_None in E. split; [discriminate|contradiction].
Qed.

Lemma get_set d k v k' :
  Dict.get k' (Dict.set k v d) = if k' =? k then Some v else Dict.get k' d.
Proof.
  induction d as [|[k0 v0] d IH]; simpl.
  - reflexivity.
  - destruct (Z.eqb_spec k k0) as [->|Hne]; simpl.
    + destruct (Z.eqb_spec k' k0); reflexivity.
    + rewrite IH. destruct (Z.eqb_spec k' k0) as [->|]; [|reflexivity].
      destruct (Z.eqb_spec k0 k); [congruence|reflexivity].
Qed.

Lemma keys_set_new d k v :
  ~ In k (Dict.keys d) -> Dict.keys (Dict.set k v d) = Dict.keys d ++ [k].
Proof.
  induction d as [|[k0 v0] d IH]; simpl; intros Hnotin; [reflexivity|].
  destruct (Z.eqb_spec k k0) as [->|Hne].
  - exfalso. apply Hnotin. now left.
  - simpl. f_equal. apply IH. intros H. apply Hnotin. now right.
Qed.

Lemma keys_set_old d k v :
  In k (Dict.keys d) -> Dict.keys (Dict.set k v d) = Dict.keys d.
Proof.
  induction d as [|[k0 v0] d IH]; simpl; intros Hin; [contradiction|].
  destruct (Z.eqb_spec k k0) as [->|Hne]; [reflexivity|].
  simpl. f_equal. apply IH. destruct Hin; congruence.
Qed.

Lemma in_keys_set d k v x :
  In x (Dict.keys (Dict.set k v d)) <-> x = k \/ In x (Dict.keys d).
Proof.
  destruct (in_dec Z.eq_dec k (Dict.keys d)) as [Hin|Hnotin].
  - rewrite keys_set_old by assumption. split; [auto|].
    intros [->|H]; assumption.
  - rewrite keys_set_new by assumption. rewrite in_app_iff. simpl.
    split; [intros [H|[H|[]]]|intros [H|H]]; auto.
Qed.

Lemma NoDup_keys_set d k v :
  NoDup (Dict.keys d) -> NoDup (Dict.keys (Dict.set k v d)).
Proof.
  intros Hnd. destruct (in_dec Z.eq_dec k (Dict.keys d)) as [Hin|Hnotin].
  - now rewrite keys_set_old.
  - rewrite keys_set_new by assumption.
    apply NoDup_app; [assumption|repeat constructor; auto|].
    intros x Hx [<-|[]]. contradiction.
Qed.

Lemma get_del_other d k k' : k' <> k -> Dict.get k' (Dict.del k d) = Dict.get k' d.
Proof.
  intros Hne. induction d as [|[k0 v0] d IH]; simpl; [reflexivity|].
  destruct (Z.eqb_spec k k0) as [->|Hne0]; simpl.
  - destruct (Z.eqb_spec k' k0); [contradiction|reflexivity].
  - now rewrite IH.
Qed.

Lemma in_keys_del d k x : In x (Dict.keys (Dict.del k d)) -> In x (Dict.keys d).
Proof.
  induction d as [|[k0 v0] d IH]; simpl; [auto|].
  destruct (Z.eqb_spec k k0) as [->|Hne]; simpl; [auto|].
  intros [H|H]; auto.
Qed.

Lemma NoDup_keys_del d k : NoDup (Dict.keys d) -> NoDup (Dict.keys (Dict.del k d)).
Proof.
  induction d as [|[k0 v0] d IH]; simpl; [auto|].
  intros Hnd. inversion Hnd as [|? ? Hnotin Hnd']; subst.
  destruct (Z.eqb_spec k k0) as [->|Hne]; simpl; [assumption|].
  constructor; [|auto]. intros H. apply Hnotin. eapply in_keys_del; eauto.
Qed.

Lemma get_del_same d k : NoDup (Dict.keys d) -> Dict.get k (Dict.del k d) = None.
Proof.
  induction d as [|[k0 v0] d IH]; simpl; [reflexivity|].
  intros Hnd. inversion Hnd as [|? ? Hnotin Hnd']; subst.
  destruct (Z.eqb_spec k k0) as [->|Hne]; simpl.
  - now apply get_None.
  - destruct (Z.eqb_spec k k0); [contradiction|auto].
Qed.

Lemma lookup_Ok d k v : Dict.lookup k d = Ok v <-> Dict.get k d = Some v.
Proof.
  unfold Dict.lookup. destruct (Dict.get k d); split; congruence.
Qed.
End DictFacts.

Lemma mem_Z_true x s : mem_Z x s = true <-> In x s.
Proof.
  unfold mem_Z. rewrite existsb_exists. split.
  - intros [y [Hin Heq]]. apply Z.eqb_eq in Heq. now subst.
  - intros Hin. exists x. split; [assumption|apply Z.eqb_refl].
Qed.

Lemma mem_Z_false x s : mem_Z x s = false <-> ~ In x s.
Proof.
  rewrite <- mem_Z_true. destruct (mem_Z x s); split; congruence.
Qed.

Lemma in_set_add x y s : In x (set_add y s) <-> x = y \/ In x s.
Proof.
  unfold set_add. destruct (mem_Z y s) eqn:E.
  - apply mem_Z_true in E. split; [auto|]. intros [->|H]; assumption.
  - rewrite in_app_iff. simpl. split; [intros [H|[H|[]]]|intros [H|H]]; auto.
Qed.

(** ** Parent chains *)

Lemma parent_Some hm k p : parent hm k = Some p <-> Dict.get k hm = Some (Some p).
Proof.
  unfold parent. destruct (Dict.get k hm) as [[q|]|]; split; congruence.
Qed.

Lemma nth_ancestor_add hm n m k :
  nth_ancestor hm (n + m) k =
  match nth_ancestor hm n k with
  | Some a => nth_ancestor hm m a
  | None => None
  end.
Proof.
  revert k. induction n as [|n IH]; intros k; simpl; [reflexivity|].
  destruct (parent hm k); [apply IH|reflexivity].
Qed.

Lemma nth_ancestor_last hm n k r :
  nth_ancestor hm (S n) k = Some r <->
  exists q, nth_ancestor hm n k = Some q /\ parent hm q = Some r.
Proof.
  replace (S n) with (n + 1)%nat by lia. rewrite nth_ancestor_add.
  destruct (nth_ancestor hm n k) as [a|]; simpl.
  - split.
    + intros H. exists a. split; [reflexivity|].
      destruct (parent hm a); congruence.
    + intros [q [Hq Hp]]. injection Hq as <-. now rewrite Hp.
  - split; [discriminate|]. intros [q [Hq _]]. discriminate.
Qed.

Lemma descends_refl hm r : descends hm r r.
Proof. now exists O. Qed.

Lemma descends_child hm r p k :
  parent hm k = Some p -> descends hm r p -> descends hm r k.
Proof.
  intros Hp [n Hn]. exists (S n). simpl. now rewrite Hp.
Qed.

Lemma descends_trans hm a b c :
  descends hm a b -> descends hm b c -> descends hm a c.
Proof.
  intros [n Hn] [m Hm]. exists (m + n)%nat.
  rewrite nth_ancestor_add, Hm. exact Hn.
Qed.

Lemma proper_descendant_descends hm r k :
  proper_descendant hm r k -> descends hm r k.
Proof. intros [n Hn]. now exists (S n). Qed.

Lemma descends_cases hm r k :
  descends hm r k <-> k = r \/ proper_descendant hm r k.
Proof.
  split.
  - intros [[|n] Hn].
    + simpl in Hn. left. congruence.
    + right. now exists n.
  - intros [->|H]; [apply descends_refl|now apply proper_descendant_descends].
Qed.

Lemma in_immediate_children hm t c :
  In c (immediate_children hm t) <-> In (c, Some t) hm.
Proof.
  unfold immediate_children. rewrite in_map_iff. split.
  - intros [[c' p] [Heq Hin]]. simpl in Heq. subst c'.
    apply filter_In in Hin. destruct Hin as [Hin Hh]. simpl in Hh.
    destruct p as [p|]; [|discriminate]. simpl in Hh.
    apply Z.eqb_eq in Hh. now subst.
  - intros Hin. exists (c, Some t). split; [reflexivity|].
    apply filter_In. split; [assumption|]. simpl. apply Z.eqb_refl.
Qed.

Lemma NoDup_map_fst_filter {A B : Type} (f : A * B -> bool) (l : list (A * B)) :
  NoDup (map fst l) -> NoDup (map fst (filter f l)).
Proof.
  induction l as [|x l IH]; simpl; [auto|].
  intros Hnd. inversion Hnd as [|? ? Hnotin Hnd']; subst.
  destruct (f x); simpl; [|auto].
  constructor; [|auto]. intros Hin. apply Hnotin.
  apply in_map_iff in Hin. destruct Hin as [y [Hy Hin]].
  apply filter_In in Hin. apply in_map_iff. exists y. tauto.
Qed.

Section WellFormed.
Variable hm : head_map.
Hypothesis Hwf : well_formed hm.

Lemma children_parent t c :
  In c (immediate_children hm t) <-> parent hm c = Some t.
Proof.
  rewrite in_immediate_children, parent_Some. split.
  - apply In_get, Hwf.
  - apply get_In.
Qed.

Lemma NoDup_children t : NoDup (immediate_children hm t).
Proof. apply NoDup_map_fst_filter, Hwf. Qed.

Lemma parent_is_key k p : parent hm k = Some p -> In k (Dict.keys hm).
Proof. rewrite parent_Some. apply get_Some_key. Qed.

Lemma root_no_parent : parent hm 0 = None.
Proof. unfold parent. now rewrite (wf_root hm Hwf). Qed.

Lemma root_no_ancestor n : nth_ancestor hm (S n) 0 = None.
Proof. simpl. now rewrite root_no_parent. Qed.

Lemma key_has_head k : In k (Dict.keys hm) -> k <> 0 ->
  exists p, parent hm k = Some p.
Proof.
  intros Hin Hne. destruct (key_get _ _ Hin) as [[p|] Hg].
  - exists p. now apply parent_Some.
  - apply (wf_single_root hm Hwf) in Hg. contradiction.
Qed.

(** No token is its own proper ancestor. *)
Lemma no_cycle_depth d : forall k n,
  nth_ancestor hm d k = Some 0 -> nth_ancestor hm (S n) k = Some k -> False.
Proof.
  induction d as [d IH] using lt_wf_ind. intros k n Hd Hc.
  destruct (le_lt_dec (S n) d) as [Hle|Hlt].
  - replace d with (S n + (d - S n))%nat in Hd by lia.
    rewrite nth_ancestor_add, Hc in Hd.
    apply (IH (d - S n)%nat) with (k := k) (n := n); [lia|assumption..].
  - replace (S n) with (d + S (n - d))%nat in Hc by lia.
    rewrite nth_ancestor_add, Hd, root_no_ancestor in Hc. discriminate.
Qed.

Lemma no_cycle k n : nth_ancestor hm (S n) k = Some k -> False.
Proof.
  intros Hc. assert (Hk : In k (Dict.keys hm)).
  { simpl in Hc. destruct (parent hm k) eqn:E; [|discriminate].
    eapply parent_is_key; eauto. }
  destruct (wf_chain hm Hwf k Hk) as [d Hd].
  eapply no_cycle_depth; eauto.
Qed.

Lemma proper_descendant_neq r k : proper_descendant hm r k -> k <> r.
Proof. intros [n Hn] ->. eapply no_cycle; eauto. Qed.

Lemma descends_antisym a b : descends hm a b -> descends hm b a -> a = b.
Proof.
  intros [[|n] Hn] [m Hm].
  - simpl in Hn. congruence.
  - exfalso. apply (no_cycle b (n + m)).
    replace (S (n + m)) with (S n + m)%nat by lia.
    now rewrite nth_ancestor_add, Hn.
Qed.

Lemma descends_key r k : In r (Dict.keys hm) -> descends hm r k ->
  In k (Dict.keys hm).
Proof.
  intros Hr [[|n] Hn].
  - simpl in Hn. congruence.
  - simpl in Hn. destruct (parent hm k) eqn:E; [|discriminate].
    eapply parent_is_key; eauto.
Qed.

(** The ancestors of a token form a chain. *)
Lemma ancestors_comparable a b k :
  descends hm a k -> descends hm b k -> descends hm a b \/ descends hm b a.
Proof.
  intros [n Hn] [m Hm]. destruct (le_lt_dec n m) as [Hle|Hlt].
  - right. exists (m - n)%nat.
    replace m with (n + (m - n))%nat in Hm by lia.
    now rewrite nth_ancestor_add, Hn in Hm.
  - left. exists (n - m)%nat.
    replace n with (m + (n - m))%nat in Hn by lia.
    now rewrite nth_ancestor_add, Hm in Hn.
Qed.
End WellFormed.

(** ** The subtree extractor *)

Section SubtreeLoop.
Variable hm : head_map.
Hypothesis Hwf : well_formed hm.
Variable r : Z.
Hypothesis Hr : In r (Dict.keys hm).

Lemma bfs_inv_init : bfs_inv hm r (immediate_children hm r) [(r, None)].
Proof.
  constructor; simpl.
  - constructor; [|apply NoDup_children; assumption].
    intros Hin. apply children_parent in Hin; [|assumption].
    apply (no_cycle hm Hwf r 0). simpl. now rewrite Hin.
  - now rewrite Z.eqb_refl.
  - intros k [->|[]] Hne. contradiction.
  - intros k [<-|Hin]; [apply descends_refl|].
    apply children_parent in Hin; [|assumption].
    eapply descends_child; eauto using descends_refl.
  - intros k Hin. apply children_parent in Hin; [|assumption]. eauto.
  - intros k [->|[]] Hne. contradiction.
  - intros k p Hp [<-|[]]. right. now apply children_parent.
Qed.

Lemma bfs_inv_step t q s h :
  bfs_inv hm r (t :: q) s -> Dict.get t hm = Some h ->
  bfs_inv hm r (q ++ immediate_children hm t) (Dict.set t h s).
Proof.
  intros I Hh.
  assert (Hnd := bi_nodup _ _ _ _ I).
  assert (Ht : ~ In t (Dict.keys s)).
  { intros Hin. apply NoDup_remove_2 in Hnd. apply Hnd.
    apply in_or_app. now left. }
  assert (Htq : ~ In t q).
  { intros Hin. apply NoDup_remove_2 in Hnd. apply Hnd.
    apply in_or_app. now right. }
  assert (Htr : t <> r).
  { intros ->. apply Ht. eapply get_Some_key, (bi_root _ _ _ _ I). }
  assert (Hkeys : Dict.keys (Dict.set t h s) = Dict.keys s ++ [t])
    by now apply keys_set_new.
  constructor; rewrite ?Hkeys.
  - replace ((Dict.keys s ++ [t]) ++ q ++ immediate_children hm t)
      with ((Dict.keys s ++ t :: q) ++ immediate_children hm t)
      by (rewrite <- !app_assoc; reflexivity).
    apply NoDup_app; [assumption|now apply NoDup_children|].
    intros c Hc Hchild. apply children_parent in Hchild; [|assumption].
    apply in_app_or in Hc. destruct Hc as [Hc'|Hc'].
      * destruct (Z.eq_dec c r) as [->|Hne].
        -- destruct (bi_desc _ _ _ _ I t) as [n Hn].
           { apply in_or_app. right. now left. }
           apply (no_cycle hm Hwf r n). simpl. now rewrite Hchild.
        -- destruct (bi_seen _ _ _ _ I c Hc' Hne) as [p [Hp Hin]]. congruence.
      * destruct (bi_queue _ _ _ _ I c Hc') as [p [Hp Hin]]. congruence.
  - rewrite get_set. destruct (Z.eqb_spec r t); [congruence|].
    apply (bi_root _ _ _ _ I).
  - intros k Hin Hne. rewrite get_set.
    destruct (Z.eqb_spec k t) as [->|Hkt]; [now rewrite Hh|].
    apply (bi_vals _ _ _ _ I); [|assumption].
    apply in_app_or in Hin. destruct Hin as [Hin|[->|[]]]; congruence.
  - intros k Hin.
    assert (Hk : In k (Dict.keys s ++ t :: q) \/ In k (immediate_children hm t)).
    { rewrite !in_app_iff in *. simpl in *. tauto. }
    destruct Hk as [Hk|Hk]; [now apply (bi_desc _ _ _ _ I)|].
    apply children_parent in Hk; [|assumption].
    eapply descends_child; [exact Hk|].
    apply (bi_desc _ _ _ _ I). apply in_or_app. right. now left.
  - intros k Hin. apply in_app_or in Hin. destruct Hin as [Hin|Hin].
    + destruct (bi_queue _ _ _ _ I k) as [p [Hp Hpin]]; [now right|].
      exists p. split; [assumption|]. apply in_or_app. now left.
    + apply children_parent in Hin; [|assumption].
      exists t. split; [assumption|]. apply in_or_app. right. now left.
  - intros k Hin Hne. apply in_app_or in Hin.
    assert (Hp : exists p, parent hm k = Some p /\ In p (Dict.keys s)).
    { destruct Hin as [Hin|[<-|[]]].
      - now apply (bi_seen _ _ _ _ I).
      - apply (bi_queue _ _ _ _ I). now left. }
    destruct Hp as [p [Hp Hpin]]. exists p. split; [assumption|].
    apply in_or_app. now left.
  - intros k p Hp Hin. apply in_app_or in Hin.
    destruct Hin as [Hin|[<-|[]]].
    + pose proof (bi_closed _ _ _ _ I k p Hp Hin) as Hk.
      rewrite !in_app_iff in *. simpl in *. tauto.
    + apply in_or_app. right. apply in_or_app. right.
      now apply children_parent.
Qed.

Lemma bfs_inv_bound q s : bfs_inv hm r q s ->
  (length s + length q <= length hm)%nat.
Proof.
  intros I.
  rewrite <- (length_map fst s), <- (length_map fst hm), <- length_app.
  apply NoDup_incl_length; [apply (bi_nodup _ _ _ _ I)|].
  intros k Hin. eapply descends_key; eauto. now apply (bi_desc _ _ _ _ I).
Qed.

Lemma subtree_loop_inv fuel : forall q s,
  bfs_inv hm r q s -> (length hm <= fuel + length s)%nat ->
  exists s', subtree_loop fuel hm q s = Ok s' /\ bfs_inv hm r [] s'.
Proof.
  induction fuel as [|fuel IH]; intros q s I Hfuel.
  - destruct q as [|t q]; [exists s; now split|].
    apply bfs_inv_bound in I. simpl in *. lia.
  - destruct q as [|t q]; [exists s; now split|]. simpl.
    assert (Ht : In t (Dict.keys hm)).
    { eapply descends_key; eauto. apply (bi_desc _ _ _ _ I).
      apply in_or_app. right. now left. }
    destruct (key_get _ _ Ht) as [h Hh].
    unfold Dict.lookup. rewrite Hh. simpl.
    apply IH; [now apply bfs_inv_step|].
    assert (Hlen : length (Dict.set t h s) = S (length s)).
    { rewrite <- (length_map fst (Dict.set t h s)).
      change (map fst (Dict.set t h s)) with (Dict.keys (Dict.set t h s)).
      rewrite keys_set_new.
      - rewrite length_app. unfold Dict.keys. rewrite length_map.
        simpl. lia.
      - intros Hin. pose proof (bi_nodup _ _ _ _ I) as Hnd.
        apply NoDup_remove_2 in Hnd. apply Hnd. apply in_or_app. now left. }
    lia.
Qed.

Lemma bfs_inv_complete s k : bfs_inv hm r [] s -> descends hm r k ->
  In k (Dict.keys s).
Proof.
  intros I [n Hn]. revert k Hn.
  induction n as [|n IH]; intros k Hn; simpl in Hn.
  - injection Hn as ->. eapply get_Some_key, (bi_root _ _ _ _ I).
  - destruct (parent hm k) as [p|] eqn:Hp; [|discriminate].
    pose proof (bi_closed _ _ _ _ I k p Hp (IH p Hn)) as Hk.
    now rewrite app_nil_r in Hk.
Qed.

Lemma subtree_of_id_inv fuel : (length hm <= fuel)%nat ->
  exists s, subtree_of_id fuel hm r = Ok s /\ bfs_inv hm r [] s.
Proof.
  intros Hfuel. apply subtree_loop_inv; [apply bfs_inv_init|].
  simpl. lia.
Qed.
End SubtreeLoop.

(** ** The adjacency resolver *)

Section ParentsLoop.
Variable hm : head_map.
Hypothesis Hwf : well_formed hm.
Variable c0 : Z.

Lemma parents_loop_inv fuel : forall c acc,
  In c (Dict.keys hm) ->
  descends hm c c0 ->
  NoDup acc ->
  (forall a, In a acc ->
     proper_descendant hm c a /\ descends hm a c0 /\ In a (Dict.keys hm)) ->
  (forall a, descends hm a c0 -> In a acc \/ descends hm a c) ->
  (length hm <= fuel + length acc)%nat ->
  exists res, parents_loop fuel hm (Some c) acc = Ok res /\
              forall a, In a res <-> descends hm a c0.
Proof.
  induction fuel as [|fuel IH]; intros c acc Hc Hcc0 Hnd Hacc Hall Hfuel.
  - exfalso.
    assert (Hnotin : ~ In c acc).
    { intros Hin. destruct (Hacc c Hin) as [Hp _].
      now apply (proper_descendant_neq hm Hwf c c). }
    assert (Hle : (length (c :: acc) <= length (Dict.keys hm))%nat).
    { apply NoDup_incl_length; [now constructor|].
      intros a [<-|Hin]; [assumption|]. now apply Hacc. }
    unfold Dict.keys in Hle. rewrite length_map in Hle. simpl in *. lia.
  - simpl.
    assert (Hnotin : ~ In c acc).
    { intros Hin. destruct (Hacc c Hin) as [Hp _].
      now apply (proper_descendant_neq hm Hwf c c). }
    destruct (key_get _ _ Hc) as [h Hh].
    unfold Dict.lookup. rewrite Hh. simpl.
    assert (Hadd : set_add c acc = acc ++ [c]).
    { unfold set_add. apply mem_Z_false in Hnotin. now rewrite Hnotin. }
    rewrite Hadd. destruct h as [p|].
    + apply parent_Some in Hh.
      apply IH.
      * eapply wf_parent_key; eauto.
      * apply descends_trans with c; [|assumption].
        eapply descends_child; eauto using descends_refl.
      * apply NoDup_app; [assumption|repeat constructor; auto|].
        intros a Ha [<-|[]]. contradiction.
      * intros a Ha. apply in_app_or in Ha. destruct Ha as [Ha|[<-|[]]].
        -- destruct (Hacc a Ha) as [[n Hn] [H1 H2]].
           split; [|now split]. exists (S n).
           apply nth_ancestor_last. eauto.
        -- split; [|now split]. exists O. simpl. now rewrite Hh.
      * intros a Ha. destruct (Hall a Ha) as [Hin|[[|n] Hn]].
        -- left. apply in_or_app. now left.
        -- simpl in Hn. injection Hn as <-. left. apply in_or_app.
           right. now left.
        -- right. exists n. simpl in Hn. now rewrite Hh in Hn.
      * rewrite length_app. simpl. lia.
    + destruct fuel; simpl.
      * exists (acc ++ [c]). split; [reflexivity|].
        intros a. split.
        -- intros Ha. apply in_app_or in Ha.
           destruct Ha as [Ha|[<-|[]]]; [now apply Hacc|assumption].
        -- intros Ha. apply in_or_app.
           destruct (Hall a Ha) as [Hin|[[|n] Hn]]; [now left|..].
           ++ simpl in Hn. injection Hn as <-. right. now left.
           ++ simpl in Hn. unfold parent in Hn. rewrite Hh in Hn.
              discriminate.
      * exists (acc ++ [c]). split; [reflexivity|].
        intros a. split.
        -- intros Ha. apply in_app_or in Ha.
           destruct Ha as [Ha|[<-|[]]]; [now apply Hacc|assumption].
        -- intros Ha. apply in_or_app.
           destruct (Hall a Ha) as [Hin|[[|n] Hn]]; [now left|..].
           ++ simpl in Hn. injection Hn as <-. right. now left.
           ++ simpl in Hn. unfold parent in Hn. rewrite Hh in Hn.
              discriminate.
Qed.

(** The first loop collects the start token and all its ancestors. *)
Lemma parents_loop_spec fuel :
  In c0 (Dict.keys hm) -> (length hm <= fuel)%nat ->
  exists res, parents_loop fuel hm (Some c0) [] = Ok res /\
              forall a, In a res <-> descends hm a c0.
Proof.
  intros Hc Hfuel. apply parents_loop_inv; auto.
  - apply descends_refl.
  - constructor.
  - intros a [].
  - simpl. lia.
Qed.
End ParentsLoop.

Lemma adjacent_step_in hm ids pids acc t x :
  In x (adjacent_step hm ids pids acc t) ->
  In x acc \/ (is_adjacent hm ids pids x = true /\ (x = t - 1 \/ x = t + 1)).
Proof.
  unfold adjacent_step. simpl.
  destruct (is_adjacent hm ids pids (t - 1)) eqn:E1;
    destruct (is_adjacent hm ids pids (t + 1)) eqn:E2;
    rewrite ?in_set_add; intros H;
    repeat match goal with
           | H : _ \/ _ |- _ => destruct H
           end; subst; auto.
Qed.

Lemma adjacent_fold_in hm ids pids : forall l acc x,
  In x (fold_left (adjacent_step hm ids pids) l acc) ->
  In x acc \/
  (is_adjacent hm ids pids x = true /\
   exists t, In t l /\ (x = t - 1 \/ x = t + 1)).
Proof.
  induction l as [|t l IH]; intros acc x H; simpl in H; [now left|].
  apply IH in H. destruct H as [H|[Ha [t' [Ht' Hx]]]].
  - apply adjacent_step_in in H. destruct H as [H|[Ha Hx]]; [now left|].
    right. split; [assumption|]. exists t. split; [now left|assumption].
  - right. split; [assumption|]. exists t'. split; [now right|assumption].
Qed.

Lemma is_adjacent_true hm ids pids x :
  is_adjacent hm ids pids x = true <->
  0 < x /\ ~ In x ids /\ ~ In x pids /\ In x (Dict.keys hm).
Proof.
  unfold is_adjacent.
  rewrite !andb_true_iff, !negb_true_iff, Z.ltb_lt, !mem_Z_false, mem_true.
  tauto.
Qed.

(** What [adjacent_ids_of_subtree] returns on the ids of the subtree at [r],
    in whatever order the set lists them. *)
Lemma adjacent_ids_spec hm r ids fuel :
  well_formed hm -> In r (Dict.keys hm) ->
  (forall k, In k ids <-> descends hm r k) ->
  (length hm <= fuel)%nat ->
  exists adj, adjacent_ids_of_subtree fuel hm ids = Ok adj /\
    forall x, In x adj ->
      0 < x /\ In x (Dict.keys hm) /\
      (exists t, In t ids /\ (x = t - 1 \/ x = t + 1)) /\
      ~ In x ids /\ ~ descends hm x r.
Proof.
  intros Hwf Hr Hids Hfuel. unfold adjacent_ids_of_subtree.
  destruct ids as [|c ids'] eqn:Eids.
  - exfalso. apply (proj2 (Hids r)), descends_refl.
  - assert (Hc : descends hm r c) by (apply Hids; now left).
    destruct (parents_loop_spec hm Hwf c fuel) as [pids [Hloop Hpids]];
      [eapply descends_key; eauto|assumption|].
    rewrite Hloop. simpl bind. eexists. split; [reflexivity|].
    intros x Hx.
    apply (adjacent_fold_in hm (c :: ids') pids (c :: ids') [] x) in Hx.
    destruct Hx as [Hx|[Ha Ht]]; [contradiction|].
    apply is_adjacent_true in Ha. destruct Ha as [Hpos [Hnin [Hnp Hkey]]].
    repeat split; auto.
    intros Hxr. apply Hnp, Hpids. eapply descends_trans; eauto.
Qed.

(** ** The sampling loop *)

Lemma signature_eqb_true (a b : signature) : signature_eqb a b = true <-> a = b.
Proof.
  unfold signature_eqb. destruct a as [a1 a2], b as [b1 b2]. simpl.
  destruct (list_eq_dec Z.eq_dec a1 b1), (list_eq_dec Z.eq_dec a2 b2);
    simpl; split; congruence.
Qed.

Lemma seen_false (sig : signature) done :
  existsb (signature_eqb sig) done = false -> ~ In sig done.
Proof.
  intros H Hin. assert (Ht : existsb (signature_eqb sig) done = true).
  { apply existsb_exists. exists sig. split; [assumption|].
    now apply signature_eqb_true. }
  congruence.
Qed.

Lemma len_app {A : Type} (l : list A) (x : A) : len (l ++ [x]) = len l + 1.
Proof. unfold len. rewrite length_app. simpl. lia. Qed.

Lemma len_nonneg {A : Type} (l : list A) : 0 <= len l.
Proof. unfold len. lia. Qed.

Section SamplingLoop.
Variable config : TreeSgclConfig.
Variable all_subtrees : Dict.t head_map.
Variable c_subtree : head_map.
Variable c_adjacent : list Z.

Let loop := negatives_loop config all_subtrees c_subtree c_adjacent.

Lemma loop_done tape st :
  max_negative_per_subtree config <= len (negatives st) ->
  loop tape st = Ok st.
Proof.
  intros H. unfold loop. destruct tape as [|[dt dv] tape]; simpl;
    destruct (Z.ltb_spec (len (negatives st))
                (max_negative_per_subtree config)); auto; lia.
Qed.

Lemma loop_nil st :
  len (negatives st) < max_negative_per_subtree config ->
  loop [] st = OutOfFuel.
Proof.
  intros H. unfold loop. simpl.
  destruct (Z.ltb_spec (len (negatives st))
              (max_negative_per_subtree config)); auto; lia.
Qed.

Lemma loop_cons dt dv tape st :
  len (negatives st) < max_negative_per_subtree config ->
  loop ((dt, dv) :: tape) st =
  (let k := sample_size config c_subtree c_adjacent in
   ts <- random_sample (all_replacement_targets c_subtree) k dt ;;
   vs <- random_sample c_adjacent k dv ;;
   let sig := (sorted ts, sorted vs) in
   if existsb (signature_eqb sig) (already_done st) then
     let rc := retry_count st + 1 in
     let st' := {| already_done := already_done st;
                   negatives := negatives st;
                   retry_count := rc |} in
     if rc >? max_retry config then Ok st' else loop tape st'
   else
     negative_tree <- build_negative all_subtrees c_subtree sig ;;
     loop tape
       {| already_done := already_done st ++ [sig];
          negatives := negatives st ++ [negative_tree];
          retry_count := retry_count st |}).
Proof.
  intros H. unfold loop. simpl.
  destruct (Z.ltb_spec (len (negatives st))
              (max_negative_per_subtree config)); [reflexivity|lia].
Qed.

Lemma loop_within_budget tape : forall st,
  (budget config st <= length tape)%nat -> loop tape st <> OutOfFuel.
Proof.
  induction tape as [|[dt dv] tape IH]; intros st Hb.
  - rewrite loop_done; [discriminate|].
    unfold budget in Hb. simpl in Hb. lia.
  - destruct (Z.ltb_spec (len (negatives st))
                (max_negative_per_subtree config)) as [Hlt|Hge].
    2: { rewrite loop_done by assumption. discriminate. }
    rewrite loop_cons by assumption. cbv zeta.
    destruct (random_sample (all_replacement_targets c_subtree) _ dt)
      as [ts| |] eqn:Et; simpl; [|discriminate|].
    2: { unfold random_sample in Et.
         destruct (_ || _) in Et; discriminate. }
    destruct (random_sample c_adjacent _ dv) as [vs| |] eqn:Ev; simpl;
      [|discriminate|].
    2: { unfold random_sample in Ev.
         destruct (_ || _) in Ev; discriminate. }
    destruct (existsb _ (already_done st)).
    + destruct (Z.gtb_spec (retry_count st + 1) (max_retry config));
        [discriminate|].
      apply IH. unfold budget in *. simpl in *. lia.
    + destruct (build_negative all_subtrees c_subtree _) as [nt| |] eqn:Eb;
        simpl; [|discriminate|].
      * apply IH. unfold budget in *. simpl in *. rewrite len_app. lia.
      * exfalso. revert Eb. unfold build_negative.
        generalize (combine (fst (sorted ts, sorted vs))
                            (snd (sorted ts, sorted vs))).
        intros pairs. generalize c_subtree.
        induction pairs as [|[t v] pairs IHp]; intros s; simpl;
          [discriminate|].
        unfold replace_one, Dict.lookup, none_key.
        destruct (Dict.get t all_subtrees); simpl; [|discriminate].
        destruct (filter _ h); simpl; [discriminate|].
        destruct (Dict.get v all_subtrees); simpl; [|discriminate].
        apply IHp.
Qed.

Lemma loop_inv tape : forall st st',
  gen_inv config all_subtrees c_subtree st -> loop tape st = Ok st' -> gen_inv config all_subtrees c_subtree st'.
Proof.
  induction tape as [|[dt dv] tape IH]; intros st st' I H.
  - destruct (Z.ltb_spec (len (negatives st))
                (max_negative_per_subtree config)) as [Hlt|Hge].
    + rewrite loop_nil in H by assumption. discriminate.
    + rewrite loop_done in H by assumption. now injection H as <-.
  - destruct (Z.ltb_spec (len (negatives st))
                (max_negative_per_subtree config)) as [Hlt|Hge].
    2: { rewrite loop_done in H by assumption. now injection H as <-. }
    rewrite loop_cons in H by assumption. cbv zeta in H.
    destruct (random_sample (all_replacement_targets c_subtree) _ dt)
      as [ts| |]; simpl in H; try discriminate.
    destruct (random_sample c_adjacent _ dv) as [vs| |]; simpl in H;
      try discriminate.
    destruct (existsb _ (already_done st)) eqn:Eseen.
    + destruct (retry_count st + 1 >? max_retry config).
      * injection H as <-. destruct I. now constructor.
      * eapply IH; [|exact H]. destruct I. now constructor.
    + destruct (build_negative all_subtrees c_subtree _) as [nt| |] eqn:Eb;
        simpl in H; try discriminate.
      eapply IH; [|exact H]. destruct I. constructor; simpl.
      * rewrite len_app. lia.
      * apply NoDup_app; [assumption|repeat constructor; auto|].
        intros sg Hin [<-|[]]. revert Hin. now apply seen_false.
      * apply Forall2_app; [assumption|]. now repeat constructor.
Qed.

(** Why the loop stopped. *)
Lemma loop_exit tape : forall st st',
  loop tape st = Ok st' ->
  max_negative_per_subtree config <= len (negatives st')
  \/ max_retry config < retry_count st'.
Proof.
  induction tape as [|[dt dv] tape IH]; intros st st' H.
  - destruct (Z.ltb_spec (len (negatives st))
                (max_negative_per_subtree config)) as [Hlt|Hge].
    + rewrite loop_nil in H by assumption. discriminate.
    + rewrite loop_done in H by assumption. injection H as <-. now left.
  - destruct (Z.ltb_spec (len (negatives st))
                (max_negative_per_subtree config)) as [Hlt|Hge].
    2: { rewrite loop_done in H by assumption. injection H as <-. now left. }
    rewrite loop_cons in H by assumption. cbv zeta in H.
    destruct (random_sample (all_replacement_targets c_subtree) _ dt)
      as [ts| |]; simpl in H; try discriminate.
    destruct (random_sample c_adjacent _ dv) as [vs| |]; simpl in H;
      try discriminate.
    destruct (existsb _ (already_done st)).
    + destruct (Z.gtb_spec (retry_count st + 1) (max_retry config)).
      * injection H as <-. right. simpl. lia.
      * eapply IH; eauto.
    + destruct (build_negative all_subtrees c_subtree _) as [nt| |];
        simpl in H; try discriminate.
      eapply IH; eauto.
Qed.

Lemma gen_inv_init :
  0 <= max_negative_per_subtree config -> gen_inv config all_subtrees c_subtree gen_init.
Proof.
  intros H. constructor; simpl; [assumption|constructor|constructor].
Qed.
End SamplingLoop.

(** ** Excising and splicing *)

Lemma remove_ids_get_other r : forall ids nt,
  ~ In r ids -> Dict.get r (remove_ids ids nt) = Dict.get r nt.
Proof.
  unfold remove_ids. induction ids as [|k ids IH]; intros nt Hnotin; simpl;
    [reflexivity|].
  rewrite IH by (intros H; apply Hnotin; now right).
  destruct (Dict.mem k nt); [|reflexivity].
  apply get_del_other. intros ->. apply Hnotin. now left.
Qed.

Lemma splice_in_get_other r h : forall rs nt,
  ~ In r (Dict.keys rs) -> Dict.get r (splice_in h rs nt) = Dict.get r nt.
Proof.
  unfold splice_in. induction rs as [|[k v] rs IH]; intros nt Hnotin; simpl;
    [reflexivity|].
  rewrite IH by (intros H; apply Hnotin; now right).
  rewrite get_set. destruct (Z.eqb_spec r k) as [->|]; [|reflexivity].
  exfalso. apply Hnotin. now left.
Qed.

(** An entry survives the replacements when no subtree involved holds its key. *)
Lemma replace_all_get_other (all_subtrees : Dict.t head_map) r :
  forall pairs nt nt',
  (forall t v s, In (t, v) pairs ->
     Dict.get t all_subtrees = Some s \/ Dict.get v all_subtrees = Some s ->
     ~ In r (Dict.keys s)) ->
  replace_all all_subtrees pairs nt = Ok nt' ->
  Dict.get r nt' = Dict.get r nt.
Proof.
  induction pairs as [|[t v] pairs IH]; intros nt nt' Hout H; simpl in H.
  - now injection H as <-.
  - unfold replace_one, Dict.lookup in H.
    destruct (Dict.get t all_subtrees) as [ts|] eqn:Et; simpl in H;
      [|discriminate].
    destruct (none_key ts) as [h| |]; simpl in H; try discriminate.
    destruct (Dict.get v all_subtrees) as [vs|] eqn:Ev; simpl in H;
      [|discriminate].
    apply IH in H.
    + rewrite H, splice_in_get_other, remove_ids_get_other; [reflexivity|..].
      * apply (Hout t v); [now left|now left].
      * apply (Hout t v); [now left|now right].
    + intros t' v' s Hin. apply Hout. now right.
Qed.

Lemma in_insert_sorted x y l : In x (insert_sorted y l) <-> x = y \/ In x l.
Proof.
  induction l as [|z l IH]; simpl.
  - split; [intros [H|[]]|intros [H|[]]]; auto.
  - destruct (y <=? z); simpl; [|rewrite IH]; split; intros H;
      repeat match goal with H : _ \/ _ |- _ => destruct H end; auto.
Qed.

Lemma in_sorted x l : In x (sorted l) <-> In x l.
Proof.
  unfold sorted. induction l as [|y l IH]; simpl; [tauto|].
  rewrite in_insert_sorted, IH. split; intros [H|H]; auto.
Qed.

Lemma is_sample_incl pop k d : is_sample pop k d -> incl d pop.
Proof.
  intros [_ [rest Hperm]] x Hx.
  eapply Permutation_in; [apply Permutation_sym; exact Hperm|].
  apply in_or_app. now left.
Qed.

Lemma is_sample_bounds pop k d : is_sample pop k d -> 0 <= k <= len pop.
Proof.
  intros [Hlen [rest Hperm]]. apply Permutation_length in Hperm.
  rewrite length_app in Hperm. unfold len in *. lia.
Qed.

Lemma random_sample_valid pop k d :
  is_sample pop k d -> random_sample pop k d = Ok d.
Proof.
  intros H. apply is_sample_bounds in H. unfold random_sample.
  destruct (Z.ltb_spec k 0); [lia|].
  destruct (Z.ltb_spec (len pop) k); [lia|reflexivity].
Qed.

Lemma in_replacement_targets s t :
  In t (all_replacement_targets s) <-> exists p, In (t, Some p) s.
Proof.
  unfold all_replacement_targets. rewrite in_map_iff. split.
  - intros [[t' v] [Heq Hin]]. simpl in Heq. subst t'.
    apply filter_In in Hin. destruct Hin as [Hin Hv].
    destruct v as [p|]; [eauto|discriminate].
  - intros [p Hin]. exists (t, Some p). split; [reflexivity|].
    apply filter_In. now split.
Qed.

(** ** The all-subtrees index and the eligibility filter *)

Lemma get_all_subtrees_loop_get fuel hm :
  forall ids (acc all : Dict.t head_map),
  (forall t s, Dict.get t acc = Some s -> subtree_of_id fuel hm t = Ok s) ->
  get_all_subtrees_loop fuel hm ids acc = Ok all ->
  forall t s, Dict.get t all = Some s -> subtree_of_id fuel hm t = Ok s.
Proof.
  induction ids as [|i ids IH]; intros acc all Hacc H; simpl in H.
  - now injection H as <-.
  - destruct (subtree_of_id fuel hm i) as [si| |] eqn:Ei; simpl in H;
      try discriminate.
    eapply IH; [|exact H]. intros t s. rewrite get_set.
    destruct (Z.eqb_spec t i) as [->|]; [congruence|apply Hacc].
Qed.

Lemma get_all_subtrees_get fuel hm (all : Dict.t head_map) t s :
  get_all_subtrees fuel hm = Ok all -> Dict.get t all = Some s ->
  subtree_of_id fuel hm t = Ok s.
Proof.
  intros H. eapply get_all_subtrees_loop_get; [|exact H]. discriminate.
Qed.

Lemma get_eligible_loop_in set_of fuel config hm (all : Dict.t head_map) :
  forall ids acc elig,
  get_eligible_subtrees_loop set_of fuel config hm all ids acc = Ok elig ->
  forall c, In c elig ->
    In c acc \/
    (Dict.get (root_id c) all = Some (subtree c) /\
     adjacent_ids_of_subtree fuel hm (set_of (Dict.keys (subtree c)))
       = Ok (adjacent_ids c) /\
     min_subtree_size config <= len (subtree c) /\
     1 <= len (adjacent_ids c)).
Proof.
  induction ids as [|i ids IH]; intros acc elig H c Hc; simpl in H.
  - injection H as <-. now left.
  - unfold Dict.lookup in H.
    destruct (Dict.get i all) as [s|] eqn:Es; simpl in H; [|discriminate].
    destruct (adjacent_ids_of_subtree fuel hm (set_of (Dict.keys s)))
      as [adj| |] eqn:Ea; simpl in H; try discriminate.
    destruct (Z.ltb_spec (len s) (min_subtree_size config));
      [eapply IH; eauto|].
    destruct (Z.ltb_spec (len adj) 1); [eapply IH; eauto|].
    destruct (IH _ _ H c Hc) as [Hin|Hin]; [|now right].
    apply in_app_or in Hin. destruct Hin as [Hin|[<-|[]]]; [now left|].
    right. simpl. auto.
Qed.

Lemma get_eligible_in set_of fuel config hm (all : Dict.t head_map) elig c :
  get_eligible_subtrees set_of fuel config hm all = Ok elig -> In c elig ->
  Dict.get (root_id c) all = Some (subtree c) /\
  adjacent_ids_of_subtree fuel hm (set_of (Dict.keys (subtree c)))
    = Ok (adjacent_ids c) /\
  min_subtree_size config <= len (subtree c) /\
  1 <= len (adjacent_ids c).
Proof.
  intros H Hc. destruct (get_eligible_loop_in _ _ _ _ _ _ _ _ H c Hc) as [[]|Hin].
  exact Hin.
Qed.

(** Every negative the loop returns was built from draws of the two
    populations. *)
Lemma loop_negatives_forall config (all : Dict.t head_map) s adj
    (P : head_map -> Prop) :
  (forall sig neg,
     incl (fst sig) (all_replacement_targets s) -> incl (snd sig) adj ->
     build_negative all s sig = Ok neg -> P neg) ->
  forall tape st st',
    valid_tape config s adj tape ->
    Forall P (negatives st) ->
    negatives_loop config all s adj tape st = Ok st' ->
    Forall P (negatives st').
Proof.
  intros Hbuild. induction tape as [|[dt dv] tape IH]; intros st st' Hv HP H.
  - destruct (Z.ltb_spec (len (negatives st))
                (max_negative_per_subtree config)) as [Hlt|Hge].
    + rewrite loop_nil in H by assumption. discriminate.
    + rewrite loop_done in H by assumption. now injection H as <-.
  - destruct (Z.ltb_spec (len (negatives st))
                (max_negative_per_subtree config)) as [Hlt|Hge].
    2: { rewrite loop_done in H by assumption. now injection H as <-. }
    rewrite loop_cons in H by assumption. cbv zeta in H.
    inversion Hv as [|? ? [Hdt Hdv] Hv']; subst. simpl in Hdt, Hdv.
    rewrite (random_sample_valid _ _ _ Hdt) in H.
    rewrite (random_sample_valid _ _ _ Hdv) in H. simpl in H.
    destruct (existsb _ (already_done st)).
    + destruct (retry_count st + 1 >? max_retry config).
      * now injection H as <-.
      * eapply IH; [exact Hv'| |exact H]. assumption.
    + destruct (build_negative all s _) as [nt| |] eqn:Eb; simpl in H;
        try discriminate.
      eapply IH; [exact Hv'| |exact H]. simpl.
      apply Forall_app. split; [assumption|]. constructor; [|constructor].
      eapply Hbuild; [| |exact Eb]; simpl.
      * intros x Hx. apply (is_sample_incl _ _ _ Hdt).
        now apply in_sorted.
      * intros x Hx. apply (is_sample_incl _ _ _ Hdv).
        now apply in_sorted.
Qed.

Lemma no_children_of_stranger hm r :
  well_formed hm -> ~ In r (Dict.keys hm) -> immediate_children hm r = [].
Proof.
  intros Hwf Hr. destruct (immediate_children hm r) as [|c l] eqn:E;
    [reflexivity|].
  exfalso. apply Hr. apply (wf_parent_key hm Hwf c).
  apply children_parent; [assumption|]. rewrite E. now left.
Qed.

(** What the filter guarantees of a candidate it kept. *)
Lemma candidate_facts set_of fuel config hm (all : Dict.t head_map) elig c :
  well_formed hm ->
  (forall l, Permutation l (set_of l)) ->
  (length hm <= fuel)%nat ->
  get_all_subtrees fuel hm = Ok all ->
  get_eligible_subtrees set_of fuel config hm all = Ok elig ->
  In c elig ->
  In (root_id c) (Dict.keys hm) /\
  bfs_inv hm (root_id c) [] (subtree c) /\
  forall x, In x (adjacent_ids c) ->
    0 < x /\ In x (Dict.keys hm) /\ ~ descends hm x (root_id c).
Proof.
  intros Hwf Hperm Hfuel Hall Helig Hc.
  destruct (get_eligible_in _ _ _ _ _ _ _ Helig Hc) as [Hs [Hadj _]].
  pose proof (get_all_subtrees_get _ _ _ _ _ Hall Hs) as Hsub.
  assert (Hr : In (root_id c) (Dict.keys hm)).
  { destruct (in_dec Z.eq_dec (root_id c) (Dict.keys hm)) as [|Hn];
      [assumption|exfalso].
    unfold subtree_of_id in Hsub.
    rewrite no_children_of_stranger in Hsub by assumption.
    destruct fuel; simpl in Hsub; injection Hsub as Hsub;
      rewrite <- Hsub in Hadj; simpl in Hadj;
      pose proof (Hperm [root_id c]) as Hp;
      apply Permutation_length_1_inv in Hp; rewrite Hp in Hadj;
      simpl in Hadj; try discriminate.
    unfold Dict.lookup in Hadj. apply get_None in Hn. rewrite Hn in Hadj.
    discriminate. }
  destruct (subtree_of_id_inv hm Hwf _ Hr fuel Hfuel) as [s' [Hs' I]].
  assert (s' = subtree c) by congruence. subst s'.
  split; [assumption|]. split; [assumption|].
  destruct (adjacent_ids_spec hm (root_id c)
              (set_of (Dict.keys (subtree c))) fuel Hwf Hr)
    as [adj' [Hadj' Hprop]]; [|assumption|].
  { intros k. split.
    - intros Hin. apply (bi_desc _ _ _ _ I). rewrite app_nil_r.
      eapply Permutation_in; [apply Permutation_sym, Hperm|exact Hin].
    - intros Hd. eapply Permutation_in; [apply Hperm|].
      eapply bfs_inv_complete; eauto. }
  assert (adj' = adjacent_ids c) by congruence. subst adj'.
  intros x Hx. destruct (Hprop x Hx) as [Hpos [Hk [_ [_ Hd]]]]. auto.
Qed.

(** A replacement target lies strictly below the local root. *)
Lemma target_below_root hm r s t :
  well_formed hm -> In r (Dict.keys hm) -> bfs_inv hm r [] s ->
  In t (all_replacement_targets s) ->
  t <> r /\ In t (Dict.keys hm) /\ ~ descends hm t r.
Proof.
  intros Hwf Hr I Ht.
  pose proof (bi_nodup _ _ _ _ I) as Hnd. rewrite app_nil_r in Hnd.
  apply in_replacement_targets in Ht. destruct Ht as [p Hin].
  apply (In_get _ _ _ Hnd) in Hin.
  assert (Hdt : descends hm r t).
  { apply (bi_desc _ _ _ _ I). rewrite app_nil_r.
    eapply get_Some_key; eauto. }
  assert (Hne : t <> r).
  { intros ->. pose proof (bi_root _ _ _ _ I). congruence. }
  split; [assumption|]. split; [eapply descends_key; eauto|].
  intros Hd. apply Hne. symmetry. eapply descends_antisym; eauto.
Qed.

(** The subtree at a token that is not [r] or above it does not hold [r]. *)
Lemma subtree_excludes fuel hm r x st :
  well_formed hm -> (length hm <= fuel)%nat ->
  In x (Dict.keys hm) -> ~ descends hm x r ->
  subtree_of_id fuel hm x = Ok st ->
  ~ In r (Dict.keys st).
Proof.
  intros Hwf Hfuel Hx Hnd Hsub Hin.
  destruct (subtree_of_id_inv hm Hwf x Hx fuel Hfuel) as [s' [Hs' I']].
  assert (s' = st) by congruence. subst s'.
  apply Hnd. apply (bi_desc _ _ _ _ I'). now rewrite app_nil_r.
Qed.

(** A negative built for a kept candidate leaves the root entry alone. *)
Lemma build_negative_root fuel hm (all : Dict.t head_map) r s adj sig neg :
  well_formed hm -> (length hm <= fuel)%nat ->
  (forall t st, Dict.get t all = Some st -> subtree_of_id fuel hm t = Ok st) ->
  In r (Dict.keys hm) -> bfs_inv hm r [] s ->
  (forall x, In x adj -> In x (Dict.keys hm) /\ ~ descends hm x r) ->
  incl (fst sig) (all_replacement_targets s) -> incl (snd sig) adj ->
  build_negative all s sig = Ok neg ->
  Dict.get r neg = Some None.
Proof.
  intros Hwf Hfuel Hall Hr I Hadj Ht Hv Hb.
  unfold build_negative in Hb.
  rewrite (replace_all_get_other all r (combine (fst sig) (snd sig)) s neg);
    [apply (bi_root _ _ _ _ I)| |exact Hb].
  intros t v st Hin [Hget|Hget].
  - apply in_combine_l, Ht in Hin.
    destruct (target_below_root hm r s t Hwf Hr I Hin) as [_ [Hk Hd]].
    eapply subtree_excludes; eauto.
  - apply in_combine_r, Hv, Hadj in Hin. destruct Hin as [Hk Hd].
    eapply subtree_excludes; eauto.
Qed.

(** ** The worked example *)

Lemma hm_ex_well_formed : well_formed hm_ex.
Proof.
  constructor.
  - unfold hm_ex. simpl. repeat constructor; simpl; intuition discriminate.
  - reflexivity.
  - intros k Hk. apply get_In in Hk. simpl in Hk.
    repeat (destruct Hk as [Hk|Hk]; [now inversion Hk|]). contradiction.
  - intros k p Hp. apply parent_Some, get_In in Hp. simpl in Hp.
    repeat (destruct Hp as [Hp|Hp];
            [inversion Hp; subst; simpl; tauto|]).
    contradiction.
  - intros k Hk. simpl in Hk.
    destruct Hk as [<-|[<-|[<-|[<-|[<-|[]]]]]].
    + now exists 0%nat.
    + now exists 1%nat.
    + now exists 2%nat.
    + now exists 2%nat.
    + now exists 3%nat.
Qed.

Lemma hm_ex_descends_2 ids :
  Permutation [2; 4] ids -> forall k, In k ids <-> descends hm_ex 2 k.
Proof.
  intros Hperm k.
  destruct (subtree_of_id_inv hm_ex hm_ex_well_formed 2) with (fuel := 5%nat)
    as [s [Hs I]]; [simpl; tauto|simpl; lia|].
  vm_compute in Hs. injection Hs as <-. split.
  - intros Hin. apply (bi_desc _ _ _ _ I).
    apply (Permutation_in k (Permutation_sym Hperm) Hin).
  - intros Hd. apply (Permutation_in k Hperm).
    apply (bfs_inv_complete _ _ _ _ I Hd).
Qed.

(** * The claims *)

(** C7.  On a well-formed parent map, for a token [r] of the map,
    [subtree_of_id] returns (given fuel for as many iterations as the map
    has entries) a subtree that maps [r] to none, maps every transitive
    descendant of [r] to its parent in the map, and has no key besides [r]
    and its transitive descendants. *)
Theorem subtree_of_id_descendant_closure :
  forall (hm : head_map) (r : Z) (fuel : nat),
    well_formed hm -> In r (Dict.keys hm) -> (length hm <= fuel)%nat ->
    exists s,
      subtree_of_id fuel hm r = Ok s
      /\ Dict.get r s = Some None
      /\ (forall k, proper_descendant hm r k ->
            exists p, parent hm k = Some p /\ Dict.get k s = Some (Some p))
      /\ (forall k, In k (Dict.keys s) -> k = r \/ proper_descendant hm r k).
Proof.
  intros hm r fuel Hwf Hr Hfuel.
  destruct (subtree_of_id_inv hm Hwf r Hr fuel Hfuel) as [s [Hs I]].
  exists s. split; [assumption|]. split; [apply (bi_root _ _ _ _ I)|]. split.
  - intros k Hk.
    assert (Hin : In k (Dict.keys s)).
    { eapply bfs_inv_complete; eauto.
      now apply proper_descendant_descends. }
    pose proof (proper_descendant_neq hm Hwf r k Hk) as Hne.
    destruct Hk as [n Hn]. simpl in Hn.
    destruct (parent hm k) as [p|] eqn:Hp; [|discriminate].
    exists p. split; [reflexivity|].
    rewrite (bi_vals _ _ _ _ I k Hin Hne). now apply parent_Some.
  - intros k Hin. apply descends_cases, (bi_desc _ _ _ _ I).
    now rewrite app_nil_r.
Qed.

Lemma subtree_of_id_descendant_closure_witness :
  well_formed hm_ex /\ In 2 (Dict.keys hm_ex) /\
  exists s,
    subtree_of_id 5 hm_ex 2 = Ok s
    /\ Dict.get 2 s = Some None
    /\ (forall k, proper_descendant hm_ex 2 k ->
          exists p, parent hm_ex k = Some p /\ Dict.get k s = Some (Some p))
    /\ (forall k, In k (Dict.keys s) -> k = 2 \/ proper_descendant hm_ex 2 k).
Proof.
  split; [exact hm_ex_well_formed|]. split; [simpl; tauto|].
  apply (subtree_of_id_descendant_closure hm_ex 2 5).
  - exact hm_ex_well_formed.
  - simpl; tauto.
  - simpl; lia.
Defined.

(** C8.  On a well-formed parent map, given the ids of the subtree at a
    token [r] in any iteration order, [adjacent_ids_of_subtree] returns, and
    each id it returns is a key of the map, is one position left or right of
    some id of the subtree, is not in the subtree, and is neither [r] nor an
    ancestor of [r]. *)
Theorem adjacent_ids_outside_subtree_and_chain :
  forall (hm : head_map) (r : Z) (subtree_ids : list Z) (fuel : nat),
    well_formed hm -> In r (Dict.keys hm) ->
    (forall k, In k subtree_ids <-> descends hm r k) ->
    (length hm <= fuel)%nat ->
    exists adj,
      adjacent_ids_of_subtree fuel hm subtree_ids = Ok adj
      /\ forall x, In x adj ->
           In x (Dict.keys hm)
           /\ (exists t, In t subtree_ids /\ (x = t - 1 \/ x = t + 1))
           /\ ~ In x subtree_ids
           /\ ~ descends hm x r.
Proof.
  intros hm r ids fuel Hwf Hr Hids Hfuel.
  destruct (adjacent_ids_spec hm r ids fuel Hwf Hr Hids Hfuel)
    as [adj [Hadj Hprop]].
  exists adj. split; [assumption|].
  intros x Hx. destruct (Hprop x Hx) as [_ H]. exact H.
Qed.

Lemma adjacent_ids_outside_subtree_and_chain_witness :
  exists adj,
    adjacent_ids_of_subtree 5 hm_ex [4; 2] = Ok adj
    /\ forall x, In x adj ->
         In x (Dict.keys hm_ex)
         /\ (exists t, In t [4; 2] /\ (x = t - 1 \/ x = t + 1))
         /\ ~ In x [4; 2]
         /\ ~ descends hm_ex x 2.
Proof.
  apply (adjacent_ids_outside_subtree_and_chain hm_ex 2 [4; 2] 5).
  - exact hm_ex_well_formed.
  - simpl; tauto.
  - apply hm_ex_descends_2. apply perm_swap.
  - simpl; lia.
Defined.

Lemma random_sample_Ok pop k d ts : random_sample pop k d = Ok ts -> ts = d.
Proof.
  unfold random_sample. destruct (_ || _); [discriminate|]. congruence.
Qed.

Lemma loop_sigs_from_tape config (all : Dict.t head_map) s adj :
  forall tape st st',
    negatives_loop config all s adj tape st = Ok st' ->
    forall sig, In sig (already_done st') ->
      In sig (already_done st)
      \/ exists d, In d tape /\ sig = (sorted (fst d), sorted (snd d)).
Proof.
  induction tape as [|[dt dv] tape IH]; intros st st' H sig Hsig.
  - destruct (Z.ltb_spec (len (negatives st))
                (max_negative_per_subtree config)) as [Hlt|Hge].
    + rewrite loop_nil in H by assumption. discriminate.
    + rewrite loop_done in H by assumption. injection H as <-. now left.
  - destruct (Z.ltb_spec (len (negatives st))
                (max_negative_per_subtree config)) as [Hlt|Hge].
    2: { rewrite loop_done in H by assumption. injection H as <-. now left. }
    rewrite loop_cons in H by assumption. cbv zeta in H.
    destruct (random_sample (all_replacement_targets s) _ dt)
      as [ts| |] eqn:Et; simpl in H; try discriminate.
    destruct (random_sample adj _ dv) as [vs| |] eqn:Ev; simpl in H;
      try discriminate.
    apply random_sample_Ok in Et, Ev. subst ts vs.
    destruct (existsb _ (already_done st)).
    + destruct (retry_count st + 1 >? max_retry config).
      * injection H as <-. now left.
      * destruct (IH _ _ H sig Hsig) as [Hin|[d [Hd Heq]]]; [now left|].
        right. exists d. split; [now right|assumption].
    + destruct (build_negative all s _) as [nt| |]; simpl in H;
        try discriminate.
      destruct (IH _ _ H sig Hsig) as [Hin|[d [Hd Heq]]].
      * simpl in Hin. apply in_app_or in Hin.
        destruct Hin as [Hin|[<-|[]]]; [now left|].
        right. exists (dt, dv). split; [now left|reflexivity].
      * right. exists d. split; [now right|assumption].
Qed.

Lemma generate_negative_trees_Ok config (all : Dict.t head_map) c tape ts :
  generate_negative_trees config all c tape = Ok ts ->
  exists st,
    negatives_loop config all (subtree c) (adjacent_ids c) tape gen_init = Ok st
    /\ ts = {| ts_root_id := root_id c; positive := subtree c;
               ts_negatives := negatives st |}.
Proof.
  unfold generate_negative_trees.
  destruct (negatives_loop _ _ _ _ _ _) as [st| |]; simpl; try discriminate.
  intros H. injection H as <-. now exists st.
Qed.

(** C5.  With a quota that is not negative, a call of
    [generate_negative_trees] returns at most [max_negative_per_subtree]
    negatives, and the negatives it returns were built, one each and in
    order, from pairwise different signatures [(sorted targets, sorted
    values)] drawn in that call. *)
Theorem negatives_bounded_and_distinct :
  forall (config : TreeSgclConfig) (all_subtrees : Dict.t head_map)
         (c : candidate) (tape : list (list Z * list Z)) (ts : tree_set),
    0 <= max_negative_per_subtree config ->
    generate_negative_trees config all_subtrees c tape = Ok ts ->
    len (ts_negatives ts) <= max_negative_per_subtree config
    /\ exists sigs : list signature,
         NoDup sigs
         /\ Forall (fun sig => exists d, In d tape /\
                       sig = (sorted (fst d), sorted (snd d))) sigs
         /\ Forall2
              (fun sig neg =>
                 build_negative all_subtrees (subtree c) sig = Ok neg)
              sigs (ts_negatives ts).
Proof.
  intros config all c tape ts Hq H.
  apply generate_negative_trees_Ok in H. destruct H as [st [Hloop ->]].
  pose proof (loop_inv _ _ _ _ _ _ _ (gen_inv_init config all (subtree c) Hq)
                Hloop) as I.
  simpl. split; [apply (gi_quota _ _ _ _ I)|].
  exists (already_done st). split; [apply (gi_nodup _ _ _ _ I)|]. split.
  - apply Forall_forall. intros sig Hsig.
    destruct (loop_sigs_from_tape _ _ _ _ _ _ _ Hloop sig Hsig) as [[]|Hd].
    exact Hd.
  - apply (gi_built _ _ _ _ I).
Qed.

Lemma negatives_bounded_and_distinct_witness :
  len [[(2, None); (3, Some 4)]] <= 3
  /\ exists sigs : list signature,
       NoDup sigs
       /\ Forall (fun sig => exists d, In d [([4], [3]); ([4], [3])] /\
                     sig = (sorted (fst d), sorted (snd d))) sigs
       /\ Forall2
            (fun sig neg =>
               build_negative all_subtrees_ex (subtree cand_ex) sig = Ok neg)
            sigs [[(2, None); (3, Some 4)]].
Proof.
  apply (negatives_bounded_and_distinct cfg_ex all_subtrees_ex cand_ex
           [([4], [3]); ([4], [3])]
           {| ts_root_id := 2; positive := subtree cand_ex;
              ts_negatives := [[(2, None); (3, Some 4)]] |}).
  - simpl; lia.
  - reflexivity.
Defined.

(** C6.  With [max_retry >= 0] and [max_negative_per_subtree >= 0], the
    sampling loop ends within [max_negative_per_subtree + max_retry + 1]
    iterations whatever is drawn: the call never needs a further draw, and
    when the loop ends normally the quota is filled or the retry counter
    has passed [max_retry]. *)
Theorem sampling_loop_terminates :
  forall (config : TreeSgclConfig) (all_subtrees : Dict.t head_map)
         (c : candidate) (tape : list (list Z * list Z)),
    0 <= max_retry config ->
    0 <= max_negative_per_subtree config ->
    max_negative_per_subtree config + max_retry config + 1 <= len tape ->
    generate_negative_trees config all_subtrees c tape <> OutOfFuel
    /\ forall st,
         negatives_loop config all_subtrees (subtree c) (adjacent_ids c)
           tape gen_init = Ok st ->
         len (negatives st) = max_negative_per_subtree config
         \/ max_retry config < retry_count st.
Proof.
  intros config all c tape Hr Hq Hlen.
  assert (Hfuel : negatives_loop config all (subtree c) (adjacent_ids c)
                    tape gen_init <> OutOfFuel).
  { apply loop_within_budget. unfold budget, len in *. simpl. lia. }
  split.
  - unfold generate_negative_trees.
    destruct (negatives_loop _ _ _ _ _ _); simpl; congruence.
  - intros st Hst.
    pose proof (loop_inv _ _ _ _ _ _ _ (gen_inv_init config all (subtree c) Hq)
                  Hst) as I.
    destruct (loop_exit _ _ _ _ _ _ _ Hst) as [H|H]; [left|now right].
    pose proof (gi_quota _ _ _ _ I). lia.
Qed.

Lemma sampling_loop_terminates_witness :
  generate_negative_trees cfg_ex all_subtrees_ex cand_ex
    [([4], [3]); ([4], [3]); ([4], [3]); ([4], [3])] <> OutOfFuel
  /\ forall st,
       negatives_loop cfg_ex all_subtrees_ex (subtree cand_ex)
         (adjacent_ids cand_ex)
         [([4], [3]); ([4], [3]); ([4], [3]); ([4], [3])] gen_init = Ok st ->
       len (negatives st) = max_negative_per_subtree cfg_ex
       \/ max_retry cfg_ex < retry_count st.
Proof.
  apply (sampling_loop_terminates cfg_ex all_subtrees_ex cand_ex
           [([4], [3]); ([4], [3]); ([4], [3]); ([4], [3])]).
  - simpl; lia.
  - simpl; lia.
  - unfold len; simpl; lia.
Defined.

(** ** Draws of size zero *)

Lemma is_sample_zero pop d : is_sample pop 0 d -> d = [].
Proof.
  intros [Hlen _]. destruct d; [reflexivity|]. unfold len in Hlen.
  simpl in Hlen. lia.
Qed.

(** Once the empty signature is recorded, every further draw collides. *)
Lemma loop_empty_sample config (all : Dict.t head_map) s adj :
  sample_size config s adj = 0 ->
  forall tape rc,
    valid_tape config s adj tape ->
    0 <= rc <= Z.max 0 (max_retry config) ->
    Z.max 0 (max_retry config) + 1 - rc <= len tape ->
    exists st,
      negatives_loop config all s adj tape
        {| already_done := [([], [])]; negatives := [s]; retry_count := rc |}
      = Ok st /\ negatives st = [s].
Proof.
  intros Hk. induction tape as [|[dt dv] tape IH]; intros rc Hv Hrc Hlen.
  - unfold len in Hlen. simpl in Hlen. lia.
  - destruct (Z.ltb_spec 1 (max_negative_per_subtree config)) as [Hlt|Hge].
    2: { rewrite loop_done by (simpl; unfold len; simpl; lia). eauto. }
    rewrite loop_cons by (simpl; unfold len; simpl; lia). cbv zeta.
    inversion Hv as [|? ? [Hdt Hdv] Hv']; subst. simpl in Hdt, Hdv.
    rewrite (random_sample_valid _ _ _ Hdt), (random_sample_valid _ _ _ Hdv).
    rewrite Hk in Hdt, Hdv.
    apply is_sample_zero in Hdt, Hdv. subst dt dv. simpl.
    destruct (Z.gtb_spec (rc + 1) (max_retry config)) as [Hgt|Hle].
    + eauto.
    + apply IH; [assumption|lia|].
      unfold len in *. simpl length in Hlen. lia.
Qed.

(** C3, as stated, fails: the leaf 4 of the worked example has no
    replacement target, so its sample size is 0, and the generator returns
    one negative, a copy of the positive subtree. *)
Lemma empty_sample_yields_a_negative :
  sample_size cfg_ex [(4, None)] [3] = 0
  /\ generate_negative_trees cfg_ex all_subtrees_ex
       {| root_id := 4; subtree := [(4, None)]; adjacent_ids := [3] |}
       [([], []); ([], [])]
     = Ok {| ts_root_id := 4; positive := [(4, None)];
             ts_negatives := [[(4, None)]] |}
  /\ [[(4, None)]] <> ([] : list head_map).
Proof.
  split; [reflexivity|]. split; [reflexivity|discriminate].
Qed.

(** C3, amended.  When the sample size is 0, the generator returns no
    negative if [max_negative_per_subtree] is not positive, and otherwise
    exactly one negative, an unchanged copy of the positive subtree: the
    empty signature is accepted once and every later draw collides with
    it. *)
Theorem empty_sample_single_copy :
  forall (config : TreeSgclConfig) (all_subtrees : Dict.t head_map)
         (c : candidate) (tape : list (list Z * list Z)),
    sample_size config (subtree c) (adjacent_ids c) = 0 ->
    valid_tape config (subtree c) (adjacent_ids c) tape ->
    Z.max 0 (max_retry config) + 2 <= len tape ->
    exists ts,
      generate_negative_trees config all_subtrees c tape = Ok ts
      /\ ts_negatives ts =
         if 0 <? max_negative_per_subtree config then [subtree c] else [].
Proof.
  intros config all c tape Hk Hv Hlen. unfold generate_negative_trees.
  destruct (Z.ltb_spec 0 (max_negative_per_subtree config)) as [Hpos|Hneg].
  - destruct tape as [|[dt dv] tape];
      [unfold len in Hlen; simpl in Hlen; lia|].
    rewrite loop_cons by (simpl; unfold len; simpl; lia). cbv zeta.
    inversion Hv as [|? ? [Hdt Hdv] Hv']; subst. simpl in Hdt, Hdv.
    rewrite (random_sample_valid _ _ _ Hdt), (random_sample_valid _ _ _ Hdv).
    rewrite Hk in Hdt, Hdv.
    apply is_sample_zero in Hdt, Hdv. subst dt dv. simpl.
    destruct (loop_empty_sample config all (subtree c) (adjacent_ids c) Hk
                tape 0 Hv') as [st [Hst Hneg]]; [lia| |].
    { unfold len in *. simpl length in Hlen. lia. }
    rewrite Hst. simpl. eexists. split; [reflexivity|exact Hneg].
  - rewrite loop_done by (simpl; unfold len; simpl; lia). simpl.
    eexists. split; reflexivity.
Qed.

Lemma empty_sample_single_copy_witness :
  exists ts,
    generate_negative_trees cfg_ex all_subtrees_ex
      {| root_id := 4; subtree := [(4, None)]; adjacent_ids := [3] |}
      [([], []); ([], [])] = Ok ts
    /\ ts_negatives ts = [[(4, None)]].
Proof.
  apply (empty_sample_single_copy cfg_ex all_subtrees_ex
           {| root_id := 4; subtree := [(4, None)]; adjacent_ids := [3] |}
           [([], []); ([], [])]).
  - reflexivity.
  - unfold valid_tape.
    repeat (apply Forall_cons;
            [split; (split; [reflexivity|]);
             [exists []|exists [3]]; apply Permutation_refl|]).
    apply Forall_nil.
  - unfold len; simpl; lia.
Defined.

(** ** Kept candidates never raise *)

Lemma get_all_subtrees_loop_keys fuel hm :
  forall ids (acc all : Dict.t head_map),
    get_all_subtrees_loop fuel hm ids acc = Ok all ->
    forall i, In i ids \/ In i (Dict.keys acc) -> In i (Dict.keys all).
Proof.
  induction ids as [|j ids IH]; intros acc all H i Hi; simpl in H.
  - injection H as <-. destruct Hi as [[]|Hi]. exact Hi.
  - destruct (subtree_of_id fuel hm j) as [sj| |]; simpl in H;
      try discriminate.
    apply (IH _ _ H). rewrite in_keys_set.
    destruct Hi as [[->|Hi]|Hi]; auto.
Qed.

Lemma get_eligible_loop_visits set_of fuel config hm (all : Dict.t head_map) :
  forall ids acc elig,
    get_eligible_subtrees_loop set_of fuel config hm all ids acc = Ok elig ->
    forall i, In i ids ->
      exists s adj,
        Dict.get i all = Some s
        /\ adjacent_ids_of_subtree fuel hm (set_of (Dict.keys s)) = Ok adj.
Proof.
  induction ids as [|j ids IH]; intros acc elig H i Hi; simpl in H;
    [contradiction|].
  unfold Dict.lookup in H.
  destruct (Dict.get j all) as [s|] eqn:Es; simpl in H; [|discriminate].
  destruct (adjacent_ids_of_subtree fuel hm (set_of (Dict.keys s)))
    as [adj| |] eqn:Ea; simpl in H; try discriminate.
  destruct Hi as [<-|Hi]; [eauto|].
  destruct (len s <? min_subtree_size config); [eapply IH; eauto|].
  destruct (len adj <? 1); eapply IH; eauto.
Qed.

(** A token whose subtree passes the adjacency resolver is a key of the
    parent map. *)
Lemma resolved_root_is_key set_of fuel hm r s adj :
  well_formed hm ->
  (forall l, Permutation l (set_of l)) ->
  subtree_of_id fuel hm r = Ok s ->
  adjacent_ids_of_subtree fuel hm (set_of (Dict.keys s)) = Ok adj ->
  In r (Dict.keys hm).
Proof.
  intros Hwf Hperm Hsub Hadj.
  destruct (in_dec Z.eq_dec r (Dict.keys hm)) as [|Hn]; [assumption|exfalso].
  unfold subtree_of_id in Hsub.
  rewrite no_children_of_stranger in Hsub by assumption.
  destruct fuel; simpl in Hsub; injection Hsub as Hsub;
    rewrite <- Hsub in Hadj; simpl in Hadj;
    pose proof (Hperm [r]) as Hp;
    apply Permutation_length_1_inv in Hp; rewrite Hp in Hadj;
    simpl in Hadj; try discriminate.
  unfold Dict.lookup in Hadj. apply get_None in Hn. rewrite Hn in Hadj.
  discriminate.
Qed.

Lemma in_range1 n i : In i (range1 n) <-> 1 <= i < Z.of_nat n.
Proof.
  unfold range1. rewrite in_map_iff. split.
  - intros [k [<- Hk]]. apply in_seq in Hk. lia.
  - intros Hi. exists (Z.to_nat i). split; [lia|]. apply in_seq. lia.
Qed.

Lemma NoDup_range1 n : NoDup (range1 n).
Proof.
  unfold range1. apply Finite.Injective_map_NoDup; [|apply seq_NoDup].
  intros a b. lia.
Qed.

(** When the filter runs through, the token ids are the positions
    [0 .. len(head_map) - 1]. *)
Lemma eligible_dense_ids set_of fuel config hm (all : Dict.t head_map) elig :
  well_formed hm ->
  (forall l, Permutation l (set_of l)) ->
  get_all_subtrees fuel hm = Ok all ->
  get_eligible_subtrees set_of fuel config hm all = Ok elig ->
  forall k, In k (Dict.keys hm) -> k = 0 \/ In k (range1 (length hm)).
Proof.
  intros Hwf Hperm Hall Helig.
  assert (Hincl : incl (0 :: range1 (length hm)) (Dict.keys hm)).
  { intros i [<-|Hi].
    - eapply get_Some_key. apply (wf_root hm Hwf).
    - destruct (get_eligible_loop_visits _ _ _ _ _ _ _ _ Helig i Hi)
        as [s [adj [Hs Hadj]]].
      eapply resolved_root_is_key; eauto.
      eapply get_all_subtrees_get; eauto. }
  assert (Hnd : NoDup (0 :: range1 (length hm))).
  { constructor; [|apply NoDup_range1]. rewrite in_range1. lia. }
  assert (Hlen : (length (Dict.keys hm)
                  <= length (0%Z :: range1 (length hm)))%nat).
  { unfold Dict.keys, range1. simpl.
    rewrite !length_map, length_seq. lia. }
  intros k Hk.
  apply (NoDup_length_incl Hnd Hlen Hincl) in Hk.
  destruct Hk as [<-|Hk]; [now left|now right].
Qed.

Lemma none_key_Ok (s : head_map) r :
  Dict.get r s = Some None -> exists h, none_key s = Ok h.
Proof.
  intros Hr. apply get_In in Hr. unfold none_key.
  destruct (filter (fun kv => is_none (snd kv)) s) as [|kv l] eqn:E.
  - exfalso. assert (Hin : In (r, None) (filter (fun kv => is_none (snd kv)) s))
      by (apply filter_In; now split).
    rewrite E in Hin. contradiction.
  - eauto.
Qed.

Lemma replace_all_Ok (all : Dict.t head_map) : forall pairs nt,
  (forall t v, In (t, v) pairs ->
     (exists ts h, Dict.get t all = Some ts /\ none_key ts = Ok h)
     /\ exists vs, Dict.get v all = Some vs) ->
  exists nt', replace_all all pairs nt = Ok nt'.
Proof.
  induction pairs as [|[t v] pairs IH]; intros nt Hok; simpl; [eauto|].
  destruct (Hok t v (or_introl eq_refl)) as [[ts [h [Hts Hh]]] [vs Hvs]].
  unfold replace_one, Dict.lookup. rewrite Hts. simpl. rewrite Hh. simpl.
  rewrite Hvs. simpl. apply IH. intros t' v' Hin. apply Hok. now right.
Qed.

Lemma loop_returns config (all : Dict.t head_map) s adj :
  (forall sig,
     incl (fst sig) (all_replacement_targets s) -> incl (snd sig) adj ->
     exists neg, build_negative all s sig = Ok neg) ->
  forall tape st,
    valid_tape config s adj tape ->
    (budget config st <= length tape)%nat ->
    exists st', negatives_loop config all s adj tape st = Ok st'.
Proof.
  intros Hbuild. induction tape as [|[dt dv] tape IH]; intros st Hv Hb.
  - rewrite loop_done; [eauto|]. unfold budget in Hb. simpl in Hb. lia.
  - destruct (Z.ltb_spec (len (negatives st))
                (max_negative_per_subtree config)) as [Hlt|Hge].
    2: { rewrite loop_done by assumption. eauto. }
    rewrite loop_cons by assumption. cbv zeta.
    inversion Hv as [|? ? [Hdt Hdv] Hv']; subst. simpl in Hdt, Hdv.
    rewrite (random_sample_valid _ _ _ Hdt), (random_sample_valid _ _ _ Hdv).
    simpl. destruct (existsb _ (already_done st)).
    + destruct (Z.gtb_spec (retry_count st + 1) (max_retry config));
        [eauto|].
      apply IH; [assumption|]. unfold budget in *. simpl in *. lia.
    + destruct (Hbuild (sorted dt, sorted dv)) as [neg Hneg]; simpl.
      * intros x Hx. apply (is_sample_incl _ _ _ Hdt). now apply in_sorted.
      * intros x Hx. apply (is_sample_incl _ _ _ Hdv). now apply in_sorted.
      * rewrite Hneg. simpl. apply IH; [assumption|].
        unfold budget in *. simpl in *. rewrite len_app. lia.
Qed.

(** For a kept candidate every signature that can be drawn yields a tree. *)
Lemma build_negative_Ok set_of fuel config hm (all : Dict.t head_map) elig c sig :
  well_formed hm ->
  (forall l, Permutation l (set_of l)) ->
  (length hm <= fuel)%nat ->
  get_all_subtrees fuel hm = Ok all ->
  get_eligible_subtrees set_of fuel config hm all = Ok elig ->
  In c elig ->
  incl (fst sig) (all_replacement_targets (subtree c)) ->
  incl (snd sig) (adjacent_ids c) ->
  exists neg, build_negative all (subtree c) sig = Ok neg.
Proof.
  intros Hwf Hperm Hfuel Hall Helig Hc Ht Hv.
  destruct (candidate_facts _ _ _ _ _ _ _ Hwf Hperm Hfuel Hall Helig Hc)
    as [Hr [I Hadj]].
  pose proof (eligible_dense_ids _ _ _ _ _ _ Hwf Hperm Hall Helig) as Hdense.
  pose proof (bi_nodup _ _ _ _ I) as Hnd. rewrite app_nil_r in Hnd.
  assert (Hindexed : forall k, In k (Dict.keys hm) -> k <> 0 ->
            exists s, Dict.get k all = Some s /\ subtree_of_id fuel hm k = Ok s).
  { intros k Hk Hk0. destruct (Hdense k Hk) as [|Hin]; [contradiction|].
    destruct (key_get all k) as [s Hs].
    - eapply get_all_subtrees_loop_keys; [exact Hall|now left].
    - exists s. split; [assumption|]. eapply get_all_subtrees_get; eauto. }
  apply replace_all_Ok. intros t v Hin. split.
  - apply in_combine_l, Ht, in_replacement_targets in Hin.
    destruct Hin as [p Hin]. apply (In_get _ _ _ Hnd) in Hin.
    assert (Htk : In t (Dict.keys (subtree c))) by (eapply get_Some_key; eauto).
    assert (Htr : t <> root_id c).
    { intros ->. pose proof (bi_root _ _ _ _ I). congruence. }
    assert (Hkey : In t (Dict.keys hm)).
    { eapply descends_key; eauto. apply (bi_desc _ _ _ _ I).
      now rewrite app_nil_r. }
    assert (Ht0 : t <> 0).
    { intros ->. rewrite (bi_vals _ _ _ _ I 0 Htk Htr) in Hin.
      rewrite (wf_root hm Hwf) in Hin. discriminate. }
    destruct (Hindexed t Hkey Ht0) as [st [Hst Hsub]].
    destruct (subtree_of_id_inv hm Hwf t Hkey fuel Hfuel) as [s' [Hs' I']].
    assert (s' = st) by congruence. subst s'.
    destruct (none_key_Ok st t (bi_root _ _ _ _ I')) as [h Hh]. eauto.
  - apply in_combine_r, Hv, Hadj in Hin. destruct Hin as [Hpos [Hk _]].
    destruct (Hindexed v Hk) as [sv [Hsv _]]; [lia|eauto].
Qed.

(** C10.  On a well-formed parent map, for a candidate the eligibility
    filter kept: no replacement target is the local root, neither the
    subtree of a target nor the subtree of a replacement value holds
    [root_id], and so, for draws taken from the two populations, every
    negative tree of every result still maps [root_id] to none; the
    generator does return once the tape covers
    [max_negative_per_subtree + max_retry + 1] iterations. *)
Theorem negatives_keep_root_entry :
  forall (set_of : list Z -> list Z) (fuel : nat) (config : TreeSgclConfig)
         (hm : head_map) (all_subtrees : Dict.t head_map)
         (eligible : list candidate) (c : candidate)
         (tape : list (list Z * list Z)),
    well_formed hm ->
    (forall l, Permutation l (set_of l)) ->
    (length hm <= fuel)%nat ->
    get_all_subtrees fuel hm = Ok all_subtrees ->
    get_eligible_subtrees set_of fuel config hm all_subtrees = Ok eligible ->
    In c eligible ->
    valid_tape config (subtree c) (adjacent_ids c) tape ->
    ~ In (root_id c) (all_replacement_targets (subtree c))
    /\ (forall x s,
          In x (all_replacement_targets (subtree c)) \/ In x (adjacent_ids c) ->
          Dict.get x all_subtrees = Some s -> ~ In (root_id c) (Dict.keys s))
    /\ (forall ts,
          generate_negative_trees config all_subtrees c tape = Ok ts ->
          Forall (fun neg => Dict.get (root_id c) neg = Some None)
                 (ts_negatives ts))
    /\ (0 <= max_retry config ->
        0 <= max_negative_per_subtree config ->
        max_negative_per_subtree config + max_retry config + 1 <= len tape ->
        exists ts, generate_negative_trees config all_subtrees c tape = Ok ts).
Proof.
  intros set_of fuel config hm all elig c tape Hwf Hperm Hfuel Hall Helig Hc Hv.
  destruct (candidate_facts _ _ _ _ _ _ _ Hwf Hperm Hfuel Hall Helig Hc)
    as [Hr [I Hadj]].
  assert (Hsub : forall t st, Dict.get t all = Some st ->
                              subtree_of_id fuel hm t = Ok st).
  { intros t st Ht. eapply get_all_subtrees_get; eauto. }
  split; [|split; [|split]].
  - intros Hin.
    destruct (target_below_root hm _ _ _ Hwf Hr I Hin) as [Hne _].
    now apply Hne.
  - intros x s [Hx|Hx] Hs.
    + destruct (target_below_root hm _ _ _ Hwf Hr I Hx) as [_ [Hk Hd]].
      eapply subtree_excludes; eauto.
    + destruct (Hadj x Hx) as [_ [Hk Hd]]. eapply subtree_excludes; eauto.
  - intros ts Hts. apply generate_negative_trees_Ok in Hts.
    destruct Hts as [st [Hloop ->]]. simpl.
    eapply loop_negatives_forall; [|exact Hv| |exact Hloop].
    + intros sig neg Hst Hsv Hb.
      eapply build_negative_root with (hm := hm) (fuel := fuel); eauto.
      intros x Hx. destruct (Hadj x Hx) as [_ H]. exact H.
    + constructor.
  - intros Hretry Hquota Hlen.
    destruct (loop_returns config all (subtree c) (adjacent_ids c)) with
      (tape := tape) (st := gen_init) as [st Hst].
    + intros sig Hst Hsv. eapply build_negative_Ok; eauto.
    + exact Hv.
    + unfold budget, len in *. simpl. lia.
    + unfold generate_negative_trees. rewrite Hst. simpl. eauto.
Qed.

Lemma valid_tape_ex (n : nat) :
  valid_tape cfg_ex (subtree cand_ex) (adjacent_ids cand_ex)
    (repeat ([4], [3]) n).
Proof.
  unfold valid_tape. induction n as [|n IH]; simpl; constructor; [|exact IH].
  split; (split; [reflexivity|exists []; apply Permutation_refl]).
Qed.

Lemma negatives_keep_root_entry_witness :
  ~ In (root_id cand_ex) (all_replacement_targets (subtree cand_ex))
  /\ (forall x s,
        In x (all_replacement_targets (subtree cand_ex))
        \/ In x (adjacent_ids cand_ex) ->
        Dict.get x all_subtrees_ex = Some s ->
        ~ In (root_id cand_ex) (Dict.keys s))
  /\ (forall ts,
        generate_negative_trees cfg_ex all_subtrees_ex cand_ex
          (repeat ([4], [3]) 4) = Ok ts ->
        Forall (fun neg => Dict.get (root_id cand_ex) neg = Some None)
               (ts_negatives ts))
  /\ (0 <= max_retry cfg_ex ->
      0 <= max_negative_per_subtree cfg_ex ->
      max_negative_per_subtree cfg_ex + max_retry cfg_ex + 1
        <= len (repeat ([4], [3]) 4) ->
      exists ts,
        generate_negative_trees cfg_ex all_subtrees_ex cand_ex
          (repeat ([4], [3]) 4) = Ok ts).
Proof.
  apply (negatives_keep_root_entry (fun l => l) 5 cfg_ex hm_ex all_subtrees_ex
           [cand_ex] cand_ex (repeat ([4], [3]) 4)).
  - exact hm_ex_well_formed.
  - intros l. apply Permutation_refl.
  - simpl; lia.
  - reflexivity.
  - reflexivity.
  - simpl; tauto.
  - exact (valid_tape_ex 4).
Defined.

Lemma is_sample_singleton x d : is_sample [x] 1 d -> d = [x].
Proof.
  intros [Hlen [rest Hperm]].
  destruct d as [|y [|z d]]; unfold len in Hlen; simpl in Hlen; try lia.
  pose proof (Permutation_length Hperm) as Hl. simpl in Hl.
  destruct rest; [|simpl in Hl; lia]. simpl in Hperm.
  apply Permutation_length_1 in Hperm. now subst.
Qed.

(** C2.  What the code does on the worked example: the subtree at 2 is
    [{2: none, 4: 2}], its adjacency set is [{3}], the candidate is kept,
    and on every tape of at least two draws the generator returns exactly
    one negative; that negative is [{2: none, 3: 4}], the spliced token
    pointing at the deleted token 4, where the specification expects
    [{2: none, 3: 2}]. *)
Theorem worked_example_negative :
  forall tape : list (list Z * list Z),
    valid_tape cfg_ex (subtree cand_ex) (adjacent_ids cand_ex) tape ->
    2 <= len tape ->
    subtree_of_id 5 hm_ex 2 = Ok [(2, None); (4, Some 2)]
    /\ adjacent_ids_of_subtree 5 hm_ex [2; 4] = Ok [3]
    /\ get_all_subtrees 5 hm_ex = Ok all_subtrees_ex
    /\ get_eligible_subtrees (fun l => l) 5 cfg_ex hm_ex all_subtrees_ex
       = Ok [cand_ex]
    /\ generate_negative_trees cfg_ex all_subtrees_ex cand_ex tape
       = Ok {| ts_root_id := 2;
               positive := [(2, None); (4, Some 2)];
               ts_negatives := [[(2, None); (3, Some 4)]] |}.
Proof.
  intros tape Hv Hlen. repeat (split; [reflexivity|]).
  destruct tape as [|[t1 v1] [|[t2 v2] tape]];
    try (unfold len in Hlen; simpl in Hlen; lia).
  inversion Hv as [|? ? [Ht1 Hv1] Hv']; subst.
  inversion Hv' as [|? ? [Ht2 Hv2] _]; subst.
  simpl in Ht1, Hv1, Ht2, Hv2.
  change (sample_size cfg_ex [(2, None); (4, Some 2)] [3]) with 1
    in Ht1, Hv1, Ht2, Hv2.
  change (all_replacement_targets [(2, None); (4, Some 2)]) with [4]
    in Ht1, Ht2.
  apply is_sample_singleton in Ht1, Hv1, Ht2, Hv2. subst.
  reflexivity.
Qed.

Lemma worked_example_negative_witness :
  subtree_of_id 5 hm_ex 2 = Ok [(2, None); (4, Some 2)]
  /\ adjacent_ids_of_subtree 5 hm_ex [2; 4] = Ok [3]
  /\ get_all_subtrees 5 hm_ex = Ok all_subtrees_ex
  /\ get_eligible_subtrees (fun l => l) 5 cfg_ex hm_ex all_subtrees_ex
     = Ok [cand_ex]
  /\ generate_negative_trees cfg_ex all_subtrees_ex cand_ex
       [([4], [3]); ([4], [3])]
     = Ok {| ts_root_id := 2;
             positive := [(2, None); (4, Some 2)];
             ts_negatives := [[(2, None); (3, Some 4)]] |}.
Proof.
  apply (worked_example_negative [([4], [3]); ([4], [3])]).
  - exact (valid_tape_ex 2).
  - unfold len; simpl; lia.
Defined.

(** The key noted as [subtree_head_id] is the root of the subtree it is read
    from. *)
Lemma none_key_subtree hm r s :
  well_formed hm -> bfs_inv hm r [] s -> none_key s = Ok r.
Proof.
  intros Hwf I. pose proof (bi_nodup _ _ _ _ I) as Hnd.
  rewrite app_nil_r in Hnd. unfold none_key.
  destruct (filter (fun kv => is_none (snd kv)) s) as [|[k v] l] eqn:E.
  - exfalso.
    assert (Hin : In (r, None) (filter (fun kv => is_none (snd kv)) s)).
    { apply filter_In. split; [apply get_In, (bi_root _ _ _ _ I)|reflexivity]. }
    rewrite E in Hin. contradiction.
  - assert (Hin : In (k, v) (filter (fun kv => is_none (snd kv)) s))
      by (rewrite E; now left).
    apply filter_In in Hin. destruct Hin as [Hin Hv]. simpl in *.
    destruct v; [discriminate|]. f_equal.
    destruct (Z.eq_dec k r) as [|Hne]; [assumption|exfalso].
    apply (In_get _ _ _ Hnd) in Hin.
    assert (Hk : In k (Dict.keys s)) by (eapply get_Some_key; eauto).
    destruct (bi_seen _ _ _ _ I k Hk Hne) as [p [Hp _]].
    rewrite (bi_vals _ _ _ _ I k Hk Hne) in Hin.
    apply parent_Some in Hp. congruence.
Qed.

(** What the splice loop leaves under each key of the replacement subtree. *)
Lemma splice_in_entries h : forall rs nt k v,
  NoDup (Dict.keys rs) -> In (k, v) rs ->
  Dict.get k (splice_in h rs nt)
  = Some (Some (match v with None => h | Some p => p end)).
Proof.
  unfold splice_in. induction rs as [|[k0 v0] rs IH]; intros nt k v Hnd Hin;
    simpl in *; [contradiction|].
  inversion Hnd as [|? ? Hnotin Hnd']; subst.
  destruct Hin as [Heq|Hin].
  - injection Heq as -> ->.
    change (fold_left _ rs ?x) with (splice_in h rs x).
    rewrite splice_in_get_other by assumption.
    rewrite get_set, Z.eqb_refl. reflexivity.
  - now apply IH.
Qed.

(** On the index of a well-formed map, replacing [target] by [value] leaves
    [value] under the deleted [target]; the other entries of the
    replacement subtree keep their parents. *)
Lemma replace_one_attaches_to_target fuel hm (all : Dict.t head_map)
    target value nt ts rs :
  well_formed hm -> (length hm <= fuel)%nat ->
  get_all_subtrees fuel hm = Ok all ->
  In target (Dict.keys hm) -> In value (Dict.keys hm) ->
  Dict.get target all = Some ts -> Dict.get value all = Some rs ->
  exists nt',
    replace_one all target value nt = Ok nt'
    /\ Dict.get value nt' = Some (Some target)
    /\ forall k p, In (k, Some p) rs -> Dict.get k nt' = Some (Some p).
Proof.
  intros Hwf Hfuel Hall Ht Hv Hts Hrs.
  pose proof (get_all_subtrees_get _ _ _ _ _ Hall Hts) as Hsub_t.
  pose proof (get_all_subtrees_get _ _ _ _ _ Hall Hrs) as Hsub_v.
  destruct (subtree_of_id_inv hm Hwf target Ht fuel Hfuel) as [ts' [Hts' It]].
  destruct (subtree_of_id_inv hm Hwf value Hv fuel Hfuel) as [rs' [Hrs' Iv]].
  assert (ts' = ts) by congruence. assert (rs' = rs) by congruence.
  subst ts' rs'.
  pose proof (bi_nodup _ _ _ _ Iv) as Hnd. rewrite app_nil_r in Hnd.
  unfold replace_one, Dict.lookup. rewrite Hts. simpl.
  rewrite (none_key_subtree hm target ts Hwf It). simpl.
  rewrite Hrs. simpl. eexists. split; [reflexivity|]. split.
  - rewrite (splice_in_entries target rs _ value None Hnd); [reflexivity|].
    apply get_In, (bi_root _ _ _ _ Iv).
  - intros k p Hin.
    now rewrite (splice_in_entries target rs _ k (Some p) Hnd Hin).
Qed.

(** C1.  What the code does when it splices: for the accepted pair (4, 3)
    of the worked example, the target 4 is recorded under parent 2 in the
    positive subtree, the id noted before the deletion is the target 4
    itself, and the local root 3 of the replacement subtree is written with
    parent 4, not 2. *)
Theorem splice_attaches_to_deleted_target :
  Dict.get 4 (subtree cand_ex) = Some (Some 2)
  /\ (target_subtree <- Dict.lookup 4 all_subtrees_ex ;;
      none_key target_subtree) = Ok 4
  /\ Dict.get 3 all_subtrees_ex = Some [(3, None)]
  /\ replace_one all_subtrees_ex 4 3 (subtree cand_ex)
     = Ok [(2, None); (3, Some 4)].
Proof. repeat split; reflexivity. Qed.

(** C4.  What the code returns on the worked example is not a tree: in its
    one negative, token 3 has parent 4, and 4 is no key of the mapping. *)
Theorem worked_example_negative_dangles :
  generate_negative_trees cfg_ex all_subtrees_ex cand_ex
    [([4], [3]); ([4], [3])]
  = Ok {| ts_root_id := 2;
          positive := [(2, None); (4, Some 2)];
          ts_negatives := [[(2, None); (3, Some 4)]] |}
  /\ parent [(2, None); (3, Some 4)] 3 = Some 4
  /\ ~ In 4 (Dict.keys [(2, None); (3, Some 4)])
  /\ ~ rooted_tree 2 [(2, None); (3, Some 4)].
Proof.
  split; [reflexivity|]. split; [reflexivity|].
  assert (Hk : ~ In 4 (Dict.keys [(2, None); (3, Some 4)])).
  { simpl. intros [H|[H|[]]]; discriminate. }
  split; [exact Hk|].
  intros Ht. apply Hk. apply (rt_parent_key _ _ Ht 3 4). reflexivity.
Qed.

(** ** The treebank capacity check *)

#[local] Arguments String.eqb : simpl never.

Lemma len_map {A B : Type} (f : A -> B) (l : list A) : len (map f l) = len l.
Proof. unfold len. now rewrite length_map. Qed.


Lemma get_split_cases {R : Type} split (d : Data.dataset_dict R) :
  (exists rows, Data.get_split split d = Ok rows /\ In split (map fst d))
  \/ (Data.get_split split d = Raise KeyError /\ ~ In split (map fst d)).
Proof.
  induction d as [|[name r] d IH]; simpl.
  - right. split; [reflexivity|tauto].
  - destruct (String.eqb_spec split name) as [->|Hne].
    + left. exists r. split; [reflexivity|now left].
    + destruct IH as [[rows [H1 H2]]|[H1 H2]].
      * left. exists rows. split; [assumption|now right].
      * right. split; [assumption|]. intros [H|H]; [congruence|auto].
Qed.


Section FinalizeFacts.
Variables (Row Out : Type).
Variable remove_tokens : Row -> Row.
Variable process_row : Z -> Row -> Out.

Lemma remove_columns_names (d : Data.dataset_dict Row) :
  map fst (Data.remove_columns Row remove_tokens d) = map fst d.
Proof.
  unfold Data.remove_columns. rewrite map_map. now apply map_ext.
Qed.


(** [_get_labels] fails exactly when a split it reads is missing, and
    then with [KeyError]. *)
Lemma get_labels_splits_cases (d : Data.dataset_dict Row) tbo :
  (Data.get_labels_splits Row d tbo = Ok tt
   /\ In "train" (map fst d) /\ In "dev" (map fst d)
   /\ forall tb, tbo = Some tb ->
        In "train" (map fst tb) /\ In "dev" (map fst tb)
        /\ In "test" (map fst tb))
  \/ (Data.get_labels_splits Row d tbo = Raise KeyError
      /\ (~ In "train" (map fst d) \/ ~ In "dev" (map fst d)
          \/ exists tb, tbo = Some tb
               /\ (~ In "train" (map fst tb) \/ ~ In "dev" (map fst tb)
                   \/ ~ In "test" (map fst tb)))).
Proof.
  unfold Data.get_labels_splits.
  destruct (get_split_cases "train" d) as [[r1 [H1 I1]]|[H1 N1]];
    rewrite H1; simpl; [|right; tauto].
  destruct (get_split_cases "dev" d) as [[r2 [H2 I2]]|[H2 N2]];
    rewrite H2; simpl; [|right; tauto].
  destruct tbo as [tb|].
  2: { left. split; [reflexivity|]. split; [assumption|].
       split; [assumption|discriminate]. }
  destruct (get_split_cases "train" tb) as [[r3 [H3 I3]]|[H3 N3]];
    rewrite H3; simpl; [|right; split; [reflexivity|]; right; right; eauto].
  destruct (get_split_cases "dev" tb) as [[r4 [H4 I4]]|[H4 N4]];
    rewrite H4; simpl; [|right; split; [reflexivity|]; right; right; eauto].
  destruct (get_split_cases "test" tb) as [[r5 [H5 I5]]|[H5 N5]];
    rewrite H5; simpl; [|right; split; [reflexivity|]; right; right; eauto 6].
  left. split; [reflexivity|]. split; [assumption|]. split; [assumption|].
  intros tb' Htb'. injection Htb' as <-. auto.
Qed.

Lemma from_generator_rows (rows : list Out) :
  rows <> [] -> Data.from_generator Out rows = Ok rows.
Proof. destruct rows; [contradiction|reflexivity]. Qed.

Lemma from_generator_cases (rows : list Out) :
  (rows = [] /\ Data.from_generator Out rows = Raise ValueError)
  \/ (rows <> [] /\ Data.from_generator Out rows = Ok rows).
Proof. destruct rows; [left|right]; split; auto; discriminate. Qed.


Variable tb : Data.dataset_dict Row.
Variable unlabeled_per_labeled : Z.





End FinalizeFacts.




(** * Further properties of generation.py *)

(** ** Maps that are not trees *)

Lemma on_cycle_predecessor hm k n :
  nth_ancestor hm (S n) k = Some k ->
  exists q, parent hm q = Some k /\ nth_ancestor hm (S n) q = Some q.
Proof.
  intros Hc. pose proof Hc as Hc'. apply nth_ancestor_last in Hc'.
  destruct Hc' as [q [Hq Hp]]. exists q. split; [assumption|].
  simpl. now rewrite Hp.
Qed.

Lemma child_is_key hm t c : In c (immediate_children hm t) -> In c (Dict.keys hm).
Proof.
  intros Hin. apply in_immediate_children in Hin.
  now apply (in_map fst) in Hin.
Qed.

Lemma parent_child hm q t : parent hm q = Some t -> In q (immediate_children hm t).
Proof.
  intros Hp. apply in_immediate_children, get_In. now apply parent_Some.
Qed.

Lemma subtree_loop_cycle hm n fuel : forall q s,
  (exists c, In c q /\ nth_ancestor hm (S n) c = Some c) ->
  (forall x, In x q -> In x (Dict.keys hm)) ->
  subtree_loop fuel hm q s = OutOfFuel.
Proof.
  induction fuel as [|fuel IH]; intros q s [c [Hc Hcyc]] Hkeys.
  - destruct q; [contradiction|reflexivity].
  - destruct q as [|t q]; [contradiction|]. simpl.
    destruct (key_get hm t) as [h Hh]; [apply Hkeys; now left|].
    unfold Dict.lookup. rewrite Hh. simpl. apply IH.
    + destruct Hc as [<-|Hc].
      * destruct (on_cycle_predecessor hm t n Hcyc) as [p [Hp Hpc]].
        exists p. split; [|assumption]. apply in_or_app. right.
        now apply parent_child.
      * exists c. split; [|assumption]. apply in_or_app. now left.
    + intros x Hx. apply in_app_or in Hx. destruct Hx as [Hx|Hx].
      * apply Hkeys. now right.
      * eapply child_is_key; eauto.
Qed.

(** X1.  When the root id lies on a cycle of parent links, the queue of
    [subtree_of_id] never empties: no amount of fuel makes the call
    return. *)
Theorem subtree_of_id_diverges_on_cycle :
  forall (hm : head_map) (r : Z) (fuel : nat),
    on_cycle hm r -> subtree_of_id fuel hm r = OutOfFuel.
Proof.
  intros hm r fuel [n Hn]. unfold subtree_of_id.
  apply (subtree_loop_cycle hm n).
  - destruct (on_cycle_predecessor hm r n Hn) as [p [Hp Hpc]].
    exists p. split; [now apply parent_child|assumption].
  - intros x Hx. eapply child_is_key; eauto.
Qed.

Lemma subtree_of_id_diverges_on_cycle_witness :
  subtree_of_id 1000 [(0, None); (1, Some 2); (2, Some 1)] 1 = OutOfFuel.
Proof.
  apply (subtree_of_id_diverges_on_cycle
           [(0, None); (1, Some 2); (2, Some 1)] 1 1000).
  exists 1%nat. reflexivity.
Defined.

Lemma parents_loop_cycle hm n fuel : forall c acc,
  nth_ancestor hm (S n) c = Some c ->
  parents_loop fuel hm (Some c) acc = OutOfFuel.
Proof.
  induction fuel as [|fuel IH]; intros c acc Hc; [reflexivity|]. simpl.
  pose proof Hc as Hc'. simpl in Hc'.
  destruct (parent hm c) as [p|] eqn:Hp; [|discriminate].
  pose proof Hp as Hg. apply parent_Some in Hg.
  unfold Dict.lookup. rewrite Hg. simpl. apply IH.
  replace (S n) with (n + 1)%nat by lia. rewrite nth_ancestor_add, Hc'.
  simpl. now rewrite Hp.
Qed.

(** X2.  When the id the ancestor walk starts from lies on a cycle of
    parent links, [adjacent_ids_of_subtree] never returns. *)
Theorem adjacent_ids_diverges_on_cycle :
  forall (hm : head_map) (c : Z) (rest : list Z) (fuel : nat),
    on_cycle hm c -> adjacent_ids_of_subtree fuel hm (c :: rest) = OutOfFuel.
Proof.
  intros hm c rest fuel [n Hn]. unfold adjacent_ids_of_subtree.
  now rewrite (parents_loop_cycle hm n fuel c [] Hn).
Qed.

Lemma adjacent_ids_diverges_on_cycle_witness :
  adjacent_ids_of_subtree 1000 [(0, None); (1, Some 2); (2, Some 1)] [2; 1]
  = OutOfFuel.
Proof.
  apply (adjacent_ids_diverges_on_cycle
           [(0, None); (1, Some 2); (2, Some 1)] 2 [1] 1000).
  exists 1%nat. reflexivity.
Defined.

(** ** Subtrees of a well-formed map *)

Lemma no_children_childless hm r :
  (forall c, ~ In (c, Some r) hm) -> immediate_children hm r = [].
Proof.
  intros H. destruct (immediate_children hm r) as [|c l] eqn:E;
    [reflexivity|].
  exfalso. apply (H c). apply in_immediate_children. rewrite E. now left.
Qed.

(** X3.  For an id that no entry names as its parent, a leaf or an id that
    is not in the map at all, [subtree_of_id] returns the one-entry subtree
    [{id: None}] without looking the id up: an unknown id raises no
    [KeyError]. *)
Theorem subtree_of_id_childless :
  forall (hm : head_map) (r : Z) (fuel : nat),
    (forall c, ~ In (c, Some r) hm) ->
    subtree_of_id fuel hm r = Ok [(r, None)].
Proof.
  intros hm r fuel H. unfold subtree_of_id.
  rewrite no_children_childless by assumption. now destruct fuel.
Qed.

Lemma subtree_of_id_childless_witness :
  subtree_of_id 0 hm_ex 7 = Ok [(7, None)].
Proof.
  apply (subtree_of_id_childless hm_ex 7 0).
  intros c Hin. simpl in Hin.
  repeat (destruct Hin as [Hin|Hin]; [discriminate|]). contradiction.
Defined.

(** X4.  On a well-formed map the subtree at the synthetic root 0 is the
    whole map: it has the same number of entries and gives every id what
    the map gives it. *)
Theorem subtree_of_root_is_whole_map :
  forall (hm : head_map) (fuel : nat),
    well_formed hm -> (length hm <= fuel)%nat ->
    exists s,
      subtree_of_id fuel hm 0 = Ok s
      /\ length s = length hm
      /\ forall k, Dict.get k s = Dict.get k hm.
Proof.
  intros hm fuel Hwf Hfuel.
  assert (H0 : In 0 (Dict.keys hm))
    by (eapply get_Some_key; apply (wf_root hm Hwf)).
  destruct (subtree_of_id_inv hm Hwf 0 H0 fuel Hfuel) as [s [Hs I]].
  exists s. split; [assumption|].
  pose proof (bi_nodup _ _ _ _ I) as Hnd. rewrite app_nil_r in Hnd.
  assert (Hsame : forall k, In k (Dict.keys s) <-> In k (Dict.keys hm)).
  { intros k. split.
    - intros Hk. eapply descends_key; eauto. apply (bi_desc _ _ _ _ I).
      now rewrite app_nil_r.
    - intros Hk. eapply bfs_inv_complete; eauto. now apply (wf_chain hm Hwf). }
  split.
  - rewrite <- (length_map fst s), <- (length_map fst hm).
    apply Nat.le_antisymm; apply NoDup_incl_length;
      try assumption; try apply (wf_keys hm Hwf); intros k Hk;
      now apply Hsame.
  - intros k. destruct (Z.eq_dec k 0) as [->|Hne].
    + rewrite (bi_root _ _ _ _ I). symmetry. apply (wf_root hm Hwf).
    + destruct (in_dec Z.eq_dec k (Dict.keys s)) as [Hin|Hnin].
      * now apply (bi_vals _ _ _ _ I).
      * assert (Hnin' : ~ In k (Dict.keys hm)) by now rewrite <- Hsame.
        apply get_None in Hnin, Hnin'. congruence.
Qed.

Lemma subtree_of_root_is_whole_map_witness :
  exists s,
    subtree_of_id 5 hm_ex 0 = Ok s
    /\ length s = length hm_ex
    /\ forall k, Dict.get k s = Dict.get k hm_ex.
Proof.
  apply (subtree_of_root_is_whole_map hm_ex 5).
  - exact hm_ex_well_formed.
  - simpl; lia.
Defined.

(** X5.  On a well-formed map two subtrees never overlap partially: when
    the subtrees at [a] and [b] share an id, one holds every id of the
    other; and an id holds every id of the subtrees at its own members. *)
Theorem subtrees_nest_or_are_disjoint :
  forall (hm : head_map) (a b : Z) (fuel : nat),
    well_formed hm -> In a (Dict.keys hm) -> In b (Dict.keys hm) ->
    (length hm <= fuel)%nat ->
    exists sa sb,
      subtree_of_id fuel hm a = Ok sa
      /\ subtree_of_id fuel hm b = Ok sb
      /\ (In b (Dict.keys sa) -> incl (Dict.keys sb) (Dict.keys sa))
      /\ ((exists k, In k (Dict.keys sa) /\ In k (Dict.keys sb)) ->
          incl (Dict.keys sb) (Dict.keys sa)
          \/ incl (Dict.keys sa) (Dict.keys sb)).
Proof.
  intros hm a b fuel Hwf Ha Hb Hfuel.
  destruct (subtree_of_id_inv hm Hwf a Ha fuel Hfuel) as [sa [Hsa Ia]].
  destruct (subtree_of_id_inv hm Hwf b Hb fuel Hfuel) as [sb [Hsb Ib]].
  exists sa, sb. split; [assumption|]. split; [assumption|].
  assert (Hin_a : forall k, In k (Dict.keys sa) <-> descends hm a k).
  { intros k. split.
    - intros H. apply (bi_desc _ _ _ _ Ia). now rewrite app_nil_r.
    - intros H. eapply bfs_inv_complete; eauto. }
  assert (Hin_b : forall k, In k (Dict.keys sb) <-> descends hm b k).
  { intros k. split.
    - intros H. apply (bi_desc _ _ _ _ Ib). now rewrite app_nil_r.
    - intros H. eapply bfs_inv_complete; eauto. }
  split.
  - intros Hba k Hk. apply Hin_a. apply descends_trans with b.
    + now apply Hin_a.
    + now apply Hin_b.
  - intros [k [Hka Hkb]]. apply Hin_a in Hka. apply Hin_b in Hkb.
    destruct (ancestors_comparable hm a b k Hka Hkb) as [Hab|Hba].
    + left. intros x Hx. apply Hin_a. apply descends_trans with b;
        [assumption|now apply Hin_b].
    + right. intros x Hx. apply Hin_b. apply descends_trans with a;
        [assumption|now apply Hin_a].
Qed.

Lemma subtrees_nest_or_are_disjoint_witness :
  exists sa sb,
    subtree_of_id 5 hm_ex 1 = Ok sa
    /\ subtree_of_id 5 hm_ex 2 = Ok sb
    /\ (In 2 (Dict.keys sa) -> incl (Dict.keys sb) (Dict.keys sa))
    /\ ((exists k, In k (Dict.keys sa) /\ In k (Dict.keys sb)) ->
        incl (Dict.keys sb) (Dict.keys sa)
        \/ incl (Dict.keys sa) (Dict.keys sb)).
Proof.
  apply (subtrees_nest_or_are_disjoint hm_ex 1 2 5).
  - exact hm_ex_well_formed.
  - simpl; tauto.
  - simpl; tauto.
  - simpl; lia.
Defined.

(** ** The adjacency set, exactly *)

Lemma NoDup_set_add x s : NoDup s -> NoDup (set_add x s).
Proof.
  intros Hnd. unfold set_add. destruct (mem_Z x s) eqn:E; [assumption|].
  apply mem_Z_false in E. apply NoDup_app; [assumption|repeat constructor; auto|].
  intros y Hy [<-|[]]. contradiction.
Qed.

Lemma adjacent_step_spec hm ids pids acc t x :
  In x (adjacent_step hm ids pids acc t) <->
  In x acc \/ (is_adjacent hm ids pids x = true /\ (x = t - 1 \/ x = t + 1)).
Proof.
  split; [apply adjacent_step_in|].
  unfold adjacent_step. simpl.
  intros [Hin|[Ha [-> | ->]]].
  - destruct (is_adjacent hm ids pids (t - 1));
      destruct (is_adjacent hm ids pids (t + 1));
      rewrite ?in_set_add; auto.
  - rewrite Ha. destruct (is_adjacent hm ids pids (t + 1));
      rewrite ?in_set_add; auto.
  - rewrite Ha. destruct (is_adjacent hm ids pids (t - 1));
      rewrite ?in_set_add; auto.
Qed.

Lemma NoDup_adjacent_step hm ids pids acc t :
  NoDup acc -> NoDup (adjacent_step hm ids pids acc t).
Proof.
  intros Hnd. unfold adjacent_step. simpl.
  destruct (is_adjacent hm ids pids (t - 1));
    destruct (is_adjacent hm ids pids (t + 1));
    auto using NoDup_set_add.
Qed.

Lemma adjacent_fold_spec hm ids pids : forall l acc x,
  In x (fold_left (adjacent_step hm ids pids) l acc) <->
  In x acc \/
  (is_adjacent hm ids pids x = true /\
   exists t, In t l /\ (x = t - 1 \/ x = t + 1)).
Proof.
  induction l as [|t l IH]; intros acc x; simpl.
  - split; [auto|]. intros [H|[_ [t [[] _]]]]. exact H.
  - rewrite IH, adjacent_step_spec. split.
    + intros [[H|[Ha Hx]]|[Ha [t' [Ht' Hx]]]]; [now left|right..];
        (split; [assumption|]); [exists t|exists t']; auto.
    + intros [H|[Ha [t' [[<-|Ht'] Hx]]]]; [auto|auto|].
      right. split; [assumption|]. exists t'. auto.
Qed.

Lemma NoDup_adjacent_fold hm ids pids : forall l acc,
  NoDup acc -> NoDup (fold_left (adjacent_step hm ids pids) l acc).
Proof.
  induction l as [|t l IH]; intros acc Hnd; simpl; [assumption|].
  apply IH. now apply NoDup_adjacent_step.
Qed.

Lemma adjacent_ids_exact_spec hm r ids fuel :
  well_formed hm -> In r (Dict.keys hm) ->
  (forall k, In k ids <-> descends hm r k) ->
  (length hm <= fuel)%nat ->
  exists adj, adjacent_ids_of_subtree fuel hm ids = Ok adj /\ NoDup adj /\
    forall x, In x adj <->
      0 < x /\ In x (Dict.keys hm) /\
      (exists t, In t ids /\ (x = t - 1 \/ x = t + 1)) /\
      ~ In x ids /\ ~ descends hm x r.
Proof.
  intros Hwf Hr Hids Hfuel. unfold adjacent_ids_of_subtree.
  destruct ids as [|c ids'] eqn:Eids.
  - exfalso. apply (proj2 (Hids r)), descends_refl.
  - assert (Hc : descends hm r c) by (apply Hids; now left).
    destruct (parents_loop_spec hm Hwf c fuel) as [pids [Hloop Hpids]];
      [eapply descends_key; eauto|assumption|].
    rewrite Hloop. simpl bind. eexists. split; [reflexivity|].
    split; [apply (NoDup_adjacent_fold hm (c :: ids') pids (c :: ids') []);
            constructor|].
    intros x.
    rewrite (adjacent_fold_spec hm (c :: ids') pids (c :: ids') [] x).
    rewrite is_adjacent_true. split.
    + intros [[]|[[Hpos [Hnin [Hnp Hkey]]] Ht]]. repeat split; auto.
      intros Hxr. apply Hnp, Hpids. eapply descends_trans; eauto.
    + intros [Hpos [Hkey [Ht [Hnin Hnd]]]]. right.
      split; [|assumption]. repeat split; auto.
      intros Hp. apply Hpids in Hp.
      destruct (ancestors_comparable hm x r c Hp Hc) as [H|H];
        [contradiction|].
      apply Hnin. now apply Hids.
Qed.

(** X6.  On a well-formed map, the set [adjacent_ids_of_subtree] returns for
    the subtree at [r] has no repetition and holds exactly the positive ids
    of the map that are one position left or right of a subtree id, lie
    outside the subtree and are not ancestors of [r]: no such id is left
    out. *)
Theorem adjacent_ids_exact :
  forall (hm : head_map) (r : Z) (subtree_ids : list Z) (fuel : nat),
    well_formed hm -> In r (Dict.keys hm) ->
    (forall k, In k subtree_ids <-> descends hm r k) ->
    (length hm <= fuel)%nat ->
    exists adj,
      adjacent_ids_of_subtree fuel hm subtree_ids = Ok adj
      /\ NoDup adj
      /\ forall x, In x adj <->
           0 < x /\ In x (Dict.keys hm)
           /\ (exists t, In t subtree_ids /\ (x = t - 1 \/ x = t + 1))
           /\ ~ In x subtree_ids /\ ~ descends hm x r.
Proof.
  intros hm r ids fuel Hwf Hr Hids Hfuel.
  exact (adjacent_ids_exact_spec hm r ids fuel Hwf Hr Hids Hfuel).
Qed.

Lemma adjacent_ids_exact_witness :
  exists adj,
    adjacent_ids_of_subtree 5 hm_ex [4; 2] = Ok adj
    /\ NoDup adj
    /\ forall x, In x adj <->
         0 < x /\ In x (Dict.keys hm_ex)
         /\ (exists t, In t [4; 2] /\ (x = t - 1 \/ x = t + 1))
         /\ ~ In x [4; 2] /\ ~ descends hm_ex x 2.
Proof.
  apply (adjacent_ids_exact hm_ex 2 [4; 2] 5).
  - exact hm_ex_well_formed.
  - simpl; tauto.
  - apply hm_ex_descends_2. apply perm_swap.
  - simpl; lia.
Defined.

(** X7.  On a well-formed map the adjacency set does not depend on the
    order in which the subtree ids are iterated, nor on which of them the
    ancestor walk starts from: two listings of the same subtree give the
    same set. *)
Theorem adjacent_ids_order_independent :
  forall (hm : head_map) (r : Z) (ids ids' : list Z) (fuel : nat),
    well_formed hm -> In r (Dict.keys hm) ->
    (forall k, In k ids <-> descends hm r k) ->
    Permutation ids ids' ->
    (length hm <= fuel)%nat ->
    exists adj adj',
      adjacent_ids_of_subtree fuel hm ids = Ok adj
      /\ adjacent_ids_of_subtree fuel hm ids' = Ok adj'
      /\ Permutation adj adj'.
Proof.
  intros hm r ids ids' fuel Hwf Hr Hids Hperm Hfuel.
  assert (Hids' : forall k, In k ids' <-> descends hm r k).
  { intros k. rewrite <- Hids. split; apply Permutation_in;
      [now apply Permutation_sym|assumption]. }
  destruct (adjacent_ids_exact_spec hm r ids fuel Hwf Hr Hids Hfuel)
    as [adj [Ha [Hnd Hx]]].
  destruct (adjacent_ids_exact_spec hm r ids' fuel Hwf Hr Hids' Hfuel)
    as [adj' [Ha' [Hnd' Hx']]].
  exists adj, adj'. split; [assumption|]. split; [assumption|].
  apply NoDup_Permutation; [assumption|assumption|].
  intros x. rewrite Hx, Hx'.
  assert (Hin : forall y, In y ids <-> In y ids').
  { intros y. now rewrite Hids, Hids'. }
  split; intros [H1 [H2 [[t [Ht Hxt]] [H4 H5]]]]; repeat split; auto.
  - exists t. split; [now apply Hin|assumption].
  - now rewrite <- Hin.
  - exists t. split; [now apply Hin|assumption].
  - now rewrite Hin.
Qed.

Lemma adjacent_ids_order_independent_witness :
  exists adj adj',
    adjacent_ids_of_subtree 5 hm_ex [2; 4] = Ok adj
    /\ adjacent_ids_of_subtree 5 hm_ex [4; 2] = Ok adj'
    /\ Permutation adj adj'.
Proof.
  apply (adjacent_ids_order_independent hm_ex 2 [2; 4] [4; 2] 5).
  - exact hm_ex_well_formed.
  - simpl; tauto.
  - apply hm_ex_descends_2. apply Permutation_refl.
  - apply perm_swap.
  - simpl; lia.
Defined.

(** ** The all-subtrees index *)

Lemma get_all_subtrees_loop_returns fuel hm :
  forall ids (acc : Dict.t head_map),
    NoDup (Dict.keys acc ++ ids) ->
    (forall i, In i ids -> exists s, subtree_of_id fuel hm i = Ok s) ->
    exists all,
      get_all_subtrees_loop fuel hm ids acc = Ok all
      /\ Dict.keys all = Dict.keys acc ++ ids.
Proof.
  induction ids as [|i ids IH]; intros acc Hnd Hok; simpl.
  - exists acc. split; [reflexivity|now rewrite app_nil_r].
  - destruct (Hok i (or_introl eq_refl)) as [s Hs]. rewrite Hs. simpl.
    assert (Hnew : ~ In i (Dict.keys acc)).
    { intros Hin. apply NoDup_remove_2 in Hnd. apply Hnd.
      apply in_or_app. now left. }
    destruct (IH (Dict.set i s acc)) as [all [Hall Hkeys]].
    + rewrite keys_set_new by assumption. rewrite <- app_assoc. exact Hnd.
    + intros j Hj. apply Hok. now right.
    + exists all. split; [assumption|]. rewrite Hkeys.
      rewrite keys_set_new by assumption. now rewrite <- app_assoc.
Qed.

Lemma subtree_of_id_returns fuel hm i :
  well_formed hm -> (length hm <= fuel)%nat ->
  exists s, subtree_of_id fuel hm i = Ok s.
Proof.
  intros Hwf Hfuel.
  destruct (in_dec Z.eq_dec i (Dict.keys hm)) as [Hin|Hnin].
  - destruct (subtree_of_id_inv hm Hwf i Hin fuel Hfuel) as [s [Hs _]]. eauto.
  - exists [(i, None)]. unfold subtree_of_id.
    rewrite no_children_of_stranger by assumption. now destruct fuel.
Qed.

Lemma get_all_subtrees_spec fuel hm :
  well_formed hm -> (length hm <= fuel)%nat ->
  exists all,
    get_all_subtrees fuel hm = Ok all
    /\ Dict.keys all = range1 (length hm).
Proof.
  intros Hwf Hfuel. unfold get_all_subtrees.
  destruct (get_all_subtrees_loop_returns fuel hm (range1 (length hm)) [])
    as [all [Hall Hkeys]].
  - simpl. apply NoDup_range1.
  - intros i _. now apply subtree_of_id_returns.
  - exists all. split; [assumption|exact Hkeys].
Qed.

(** X8.  On a well-formed map [get_all_subtrees] returns an index whose
    keys are [1 .. len(head_map) - 1] in that order; the entry of each such
    id is the subtree [subtree_of_id] gives it, and the synthetic root 0 has
    no entry. *)
Theorem get_all_subtrees_index :
  forall (hm : head_map) (fuel : nat),
    well_formed hm -> (length hm <= fuel)%nat ->
    exists all,
      get_all_subtrees fuel hm = Ok all
      /\ Dict.keys all = range1 (length hm)
      /\ Dict.get 0 all = None
      /\ forall i s,
           Dict.get i all = Some s <->
           (1 <= i < len hm /\ subtree_of_id fuel hm i = Ok s).
Proof.
  intros hm fuel Hwf Hfuel.
  destruct (get_all_subtrees_spec fuel hm Hwf Hfuel) as [all [Hall Hkeys]].
  exists all. split; [assumption|]. split; [assumption|]. split.
  - apply get_None. rewrite Hkeys, in_range1. lia.
  - intros i s. split.
    + intros Hi. split.
      * apply get_Some_key in Hi. rewrite Hkeys in Hi.
        now apply in_range1 in Hi.
      * eapply get_all_subtrees_get; eauto.
    + intros [Hi Hs]. destruct (key_get all i) as [s' Hs'].
      * rewrite Hkeys. now apply in_range1.
      * pose proof (get_all_subtrees_get _ _ _ _ _ Hall Hs'). congruence.
Qed.

Lemma get_all_subtrees_index_witness :
  exists all,
    get_all_subtrees 5 hm_ex = Ok all
    /\ Dict.keys all = range1 (length hm_ex)
    /\ Dict.get 0 all = None
    /\ forall i s,
         Dict.get i all = Some s <->
         (1 <= i < len hm_ex /\ subtree_of_id 5 hm_ex i = Ok s).
Proof.
  apply (get_all_subtrees_index hm_ex 5).
  - exact hm_ex_well_formed.
  - simpl; lia.
Defined.

(** ** The eligibility filter *)

Lemma get_eligible_loop_filter set_of fuel config hm (all : Dict.t head_map) :
  forall ids acc elig,
    get_eligible_subtrees_loop set_of fuel config hm all ids acc = Ok elig ->
    exists kept,
      elig = acc ++ kept
      /\ map root_id kept = filter (eligibleb set_of fuel config hm all) ids
      /\ Forall
           (fun c =>
              Dict.get (root_id c) all = Some (subtree c)
              /\ adjacent_ids_of_subtree fuel hm
                   (set_of (Dict.keys (subtree c))) = Ok (adjacent_ids c))
           kept.
Proof.
  induction ids as [|i ids IH]; intros acc elig H; simpl in H.
  - injection H as <-. exists []. rewrite app_nil_r. repeat split. constructor.
  - unfold Dict.lookup in H. simpl. unfold eligibleb at 1.
    destruct (Dict.get i all) as [s|] eqn:Es; simpl in H; [|discriminate].
    destruct (adjacent_ids_of_subtree fuel hm (set_of (Dict.keys s)))
      as [adj| |] eqn:Ea; simpl in H; try discriminate.
    destruct (len s <? min_subtree_size config); simpl;
      [now apply IH|].
    destruct (len adj <? 1); simpl; [now apply IH|].
    destruct (IH _ _ H) as [kept [-> [Hroots Hall]]].
    exists ({| root_id := i; subtree := s; adjacent_ids := adj |} :: kept).
    split; [now rewrite <- app_assoc|]. split.
    + simpl. now rewrite Hroots.
    + constructor; [simpl; auto|assumption].
Qed.

(** X9.  When [get_eligible_subtrees] returns, its candidates come in
    increasing token id, one for each id of [1 .. len(head_map) - 1] whose
    subtree has at least [min_subtree_size] entries and whose adjacency set
    is not empty, and for no other id; each candidate carries the subtree
    the index holds for its root and the adjacency set of that subtree. *)
Theorem get_eligible_subtrees_exact :
  forall (set_of : list Z -> list Z) (fuel : nat) (config : TreeSgclConfig)
         (hm : head_map) (all_subtrees : Dict.t head_map)
         (eligible : list candidate),
    get_eligible_subtrees set_of fuel config hm all_subtrees = Ok eligible ->
    map root_id eligible
    = filter (eligibleb set_of fuel config hm all_subtrees)
             (range1 (length hm))
    /\ Forall
         (fun c =>
            Dict.get (root_id c) all_subtrees = Some (subtree c)
            /\ adjacent_ids_of_subtree fuel hm
                 (set_of (Dict.keys (subtree c))) = Ok (adjacent_ids c)
            /\ min_subtree_size config <= len (subtree c)
            /\ 1 <= len (adjacent_ids c))
         eligible.
Proof.
  intros set_of fuel config hm all elig H.
  destruct (get_eligible_loop_filter _ _ _ _ _ _ _ _ H)
    as [kept [-> [Hroots _]]].
  split; [exact Hroots|].
  apply Forall_forall. intros c Hc.
  destruct (get_eligible_in _ _ _ _ _ _ _ H Hc) as [H1 [H2 [H3 H4]]]. auto.
Qed.

Lemma get_eligible_subtrees_exact_witness :
  map root_id [cand_ex]
  = filter (eligibleb (fun l => l) 5 cfg_ex hm_ex all_subtrees_ex)
           (range1 (length hm_ex))
  /\ Forall
       (fun c =>
          Dict.get (root_id c) all_subtrees_ex = Some (subtree c)
          /\ adjacent_ids_of_subtree 5 hm_ex
               ((fun l => l) (Dict.keys (subtree c))) = Ok (adjacent_ids c)
          /\ min_subtree_size cfg_ex <= len (subtree c)
          /\ 1 <= len (adjacent_ids c))
       [cand_ex].
Proof.
  apply (get_eligible_subtrees_exact (fun l => l) 5 cfg_ex hm_ex
           all_subtrees_ex [cand_ex]).
  reflexivity.
Defined.

Lemma get_eligible_loop_monotone set_of fuel c1 c2 hm (all : Dict.t head_map) :
  min_subtree_size c1 <= min_subtree_size c2 ->
  forall ids acc1 acc2 e1,
    incl acc2 acc1 ->
    get_eligible_subtrees_loop set_of fuel c1 hm all ids acc1 = Ok e1 ->
    exists e2,
      get_eligible_subtrees_loop set_of fuel c2 hm all ids acc2 = Ok e2
      /\ incl e2 e1.
Proof.
  intros Hmin. induction ids as [|i ids IH]; intros acc1 acc2 e1 Hincl H;
    simpl in *.
  - injection H as <-. eauto.
  - unfold Dict.lookup in *.
    destruct (Dict.get i all) as [s|] eqn:Es; simpl in *; [|discriminate].
    destruct (adjacent_ids_of_subtree fuel hm (set_of (Dict.keys s)))
      as [adj| |] eqn:Ea; simpl in *; try discriminate.
    destruct (Z.ltb_spec (len s) (min_subtree_size c1)) as [Hlt1|Hge1].
    + destruct (Z.ltb_spec (len s) (min_subtree_size c2)); [|lia].
      eapply IH; eauto.
    + destruct (Z.ltb_spec (len adj) 1).
      * destruct (len s <? min_subtree_size c2); eapply IH; eauto.
      * destruct (len s <? min_subtree_size c2).
        -- eapply IH; [|exact H]. intros x Hx. apply in_or_app. left.
           now apply Hincl.
        -- eapply IH; [|exact H]. intros x Hx. apply in_app_or in Hx.
           apply in_or_app. destruct Hx as [Hx|Hx]; [left|right]; auto.
Qed.

(** X10.  Eligibility is monotone in [min_subtree_size]: when the filter
    returns for one threshold, it returns for every larger threshold too,
    and what it keeps then was kept before. *)
Theorem get_eligible_subtrees_monotone :
  forall (set_of : list Z -> list Z) (fuel : nat) (c1 c2 : TreeSgclConfig)
         (hm : head_map) (all_subtrees : Dict.t head_map)
         (e1 : list candidate),
    min_subtree_size c1 <= min_subtree_size c2 ->
    get_eligible_subtrees set_of fuel c1 hm all_subtrees = Ok e1 ->
    exists e2,
      get_eligible_subtrees set_of fuel c2 hm all_subtrees = Ok e2
      /\ incl e2 e1.
Proof.
  intros set_of fuel c1 c2 hm all e1 Hmin H.
  eapply get_eligible_loop_monotone; eauto. intros x Hx. exact Hx.
Qed.

Lemma get_eligible_subtrees_monotone_witness :
  exists e2,
    get_eligible_subtrees (fun l => l) 5
      {| min_subtree_size := 3; max_replacements := 1;
         max_negative_per_subtree := 3; max_retry := 0 |}
      hm_ex all_subtrees_ex = Ok e2
    /\ incl e2 [cand_ex].
Proof.
  apply (get_eligible_subtrees_monotone (fun l => l) 5 cfg_ex
           {| min_subtree_size := 3; max_replacements := 1;
              max_negative_per_subtree := 3; max_retry := 0 |}
           hm_ex all_subtrees_ex [cand_ex]).
  - simpl; lia.
  - reflexivity.
Defined.

Lemma get_eligible_loop_returns set_of fuel config hm (all : Dict.t head_map) :
  forall ids acc,
    (forall i, In i ids -> exists s adj,
       Dict.get i all = Some s
       /\ adjacent_ids_of_subtree fuel hm (set_of (Dict.keys s)) = Ok adj) ->
    exists elig,
      get_eligible_subtrees_loop set_of fuel config hm all ids acc = Ok elig.
Proof.
  induction ids as [|i ids IH]; intros acc Hok; simpl; [eauto|].
  destruct (Hok i (or_introl eq_refl)) as [s [adj [Hs Ha]]].
  unfold Dict.lookup. rewrite Hs. simpl. rewrite Ha. simpl.
  destruct (len s <? min_subtree_size config);
    [|destruct (len adj <? 1)]; apply IH; intros j Hj; apply Hok; now right.
Qed.

(** X11.  On a well-formed map the eligibility filter returns exactly when
    the token ids are the positions [0 .. len(head_map) - 1]; with a gap in
    the ids it raises (or never ends) for some id it visits. *)
Theorem get_eligible_subtrees_returns_iff_dense :
  forall (set_of : list Z -> list Z) (fuel : nat) (config : TreeSgclConfig)
         (hm : head_map) (all_subtrees : Dict.t head_map),
    well_formed hm ->
    (forall l, Permutation l (set_of l)) ->
    (length hm <= fuel)%nat ->
    get_all_subtrees fuel hm = Ok all_subtrees ->
    ((exists eligible,
        get_eligible_subtrees set_of fuel config hm all_subtrees = Ok eligible)
     <-> dense_ids hm).
Proof.
  intros set_of fuel config hm all Hwf Hperm Hfuel Hall. split.
  - intros [elig Helig] k. split.
    + intros Hk.
      destruct (eligible_dense_ids _ _ _ _ _ _ Hwf Hperm Hall Helig k Hk)
        as [->|Hin].
      * assert (In 0 (Dict.keys hm))
          by (eapply get_Some_key; apply (wf_root hm Hwf)).
        unfold len. destruct hm; [contradiction|simpl; lia].
      * apply in_range1 in Hin. unfold len. lia.
    + intros Hk. destruct (Z.eq_dec k 0) as [->|Hne].
      * eapply get_Some_key; apply (wf_root hm Hwf).
      * assert (Hin : In k (range1 (length hm)))
          by (apply in_range1; unfold len in Hk; lia).
        destruct (get_eligible_loop_visits _ _ _ _ _ _ _ _ Helig k Hin)
          as [s [adj [Hs Hadj]]].
        eapply resolved_root_is_key; eauto.
        eapply get_all_subtrees_get; eauto.
  - intros Hdense. apply get_eligible_loop_returns.
    intros i Hi. apply in_range1 in Hi.
    assert (Hkey : In i (Dict.keys hm))
      by (apply Hdense; unfold len; lia).
    destruct (get_all_subtrees_spec fuel hm Hwf Hfuel) as [all' [Hall' Hkeys]].
    assert (all' = all) by congruence. subst all'.
    destruct (key_get all i) as [s Hs];
      [rewrite Hkeys; apply in_range1; lia|].
    pose proof (get_all_subtrees_get _ _ _ _ _ Hall Hs) as Hsub.
    destruct (subtree_of_id_inv hm Hwf i Hkey fuel Hfuel) as [s' [Hs' I]].
    assert (s' = s) by congruence. subst s'.
    destruct (adjacent_ids_spec hm i (set_of (Dict.keys s)) fuel Hwf Hkey)
      as [adj [Hadj _]]; [|assumption|eauto].
    intros k. split.
    + intros Hin. apply (bi_desc _ _ _ _ I). rewrite app_nil_r.
      eapply Permutation_in; [apply Permutation_sym, Hperm|exact Hin].
    + intros Hd. eapply Permutation_in; [apply Hperm|].
      eapply bfs_inv_complete; eauto.
Qed.

Lemma hm_ex_dense : dense_ids hm_ex.
Proof.
  intros k. unfold len. simpl. split.
  - intros [<-|[<-|[<-|[<-|[<-|[]]]]]]; lia.
  - intros Hk. lia.
Qed.

Lemma get_eligible_subtrees_returns_iff_dense_witness :
  (exists eligible,
     get_eligible_subtrees (fun l => l) 5 cfg_ex hm_ex all_subtrees_ex
     = Ok eligible)
  <-> dense_ids hm_ex.
Proof.
  apply (get_eligible_subtrees_returns_iff_dense (fun l => l) 5 cfg_ex hm_ex
           all_subtrees_ex).
  - exact hm_ex_well_formed.
  - intros l. apply Permutation_refl.
  - simpl; lia.
  - reflexivity.
Defined.

(** ** The ids of a negative tree *)

Lemma in_keys_del_iff {V : Type} (d : Dict.t V) k x :
  NoDup (Dict.keys d) ->
  (In x (Dict.keys (Dict.del k d)) <-> x <> k /\ In x (Dict.keys d)).
Proof.
  induction d as [|[k0 v0] d IH]; simpl; intros Hnd; [tauto|].
  inversion Hnd as [|? ? Hnotin Hnd']; subst.
  destruct (Z.eqb_spec k k0) as [->|Hne]; simpl.
  - split.
    + intros Hin. split; [|now right]. intros ->. contradiction.
    + intros [Hx [Heq|Hin]]; [congruence|assumption].
  - rewrite IH by assumption. split.
    + intros [<-|[Hx Hin]]; auto.
    + intros [Hx [Heq|Hin]]; auto.
Qed.

Lemma remove_ids_keys : forall ids (nt : head_map) x,
  NoDup (Dict.keys nt) ->
  NoDup (Dict.keys (remove_ids ids nt))
  /\ (In x (Dict.keys (remove_ids ids nt)) <->
      In x (Dict.keys nt) /\ ~ In x ids).
Proof.
  unfold remove_ids. induction ids as [|k ids IH]; intros nt x Hnd; simpl.
  - split; [assumption|tauto].
  - destruct (Dict.mem k nt) eqn:Em.
    + destruct (IH (Dict.del k nt) x (NoDup_keys_del _ _ Hnd)) as [H1 H2].
      split; [assumption|]. rewrite H2, in_keys_del_iff by assumption.
      split.
      * intros [[Hx Hin] Hn]. split; [assumption|].
        intros [Heq|H]; [congruence|auto].
      * intros [Hin Hn]. repeat split; auto.
    + destruct (IH nt x Hnd) as [H1 H2]. split; [assumption|].
      rewrite H2. split.
      * intros [Hin Hn]. split; [assumption|].
        intros [<-|H]; [|auto].
        assert (Dict.mem k nt = true) by now apply mem_true. congruence.
      * intros [Hin Hn]. split; auto.
Qed.

Lemma splice_in_keys h : forall (rs nt : head_map) x,
  NoDup (Dict.keys nt) ->
  NoDup (Dict.keys (splice_in h rs nt))
  /\ (In x (Dict.keys (splice_in h rs nt)) <->
      In x (Dict.keys rs) \/ In x (Dict.keys nt)).
Proof.
  unfold splice_in. induction rs as [|[k v] rs IH]; intros nt x Hnd; simpl.
  - split; [assumption|tauto].
  - match goal with
    | |- context [fold_left ?f rs ?d] =>
      destruct (IH d x (NoDup_keys_set _ _ _ Hnd)) as [H1 H2]
    end.
    split; [assumption|]. rewrite H2, in_keys_set.
    split; intros H; intuition (subst; auto).
Qed.

(** The ids left after the replacements, when the index holds descendant
    closures and no replacement subtree meets a target subtree. *)
Lemma replace_all_keys hm (all : Dict.t head_map) : forall pairs nt nt',
  NoDup (Dict.keys nt) ->
  (forall x s, In x (map fst pairs) \/ In x (map snd pairs) ->
     Dict.get x all = Some s ->
     forall k, In k (Dict.keys s) <-> descends hm x k) ->
  (forall t v k, In t (map fst pairs) -> In v (map snd pairs) ->
     descends hm v k -> ~ descends hm t k) ->
  replace_all all pairs nt = Ok nt' ->
  NoDup (Dict.keys nt')
  /\ forall k, In k (Dict.keys nt') <->
       (In k (Dict.keys nt)
        /\ forall t, In t (map fst pairs) -> ~ descends hm t k)
       \/ exists v, In v (map snd pairs) /\ descends hm v k.
Proof.
  induction pairs as [|[t v] pairs IH]; intros nt nt' Hnd Hsub Hcross H;
    simpl in H.
  - injection H as <-. split; [assumption|]. intros k. simpl. split.
    + intros Hk. left. split; [assumption|]. intros t [].
    + intros [[Hk _]|[v [[] _]]]. exact Hk.
  - unfold replace_one, Dict.lookup in H.
    destruct (Dict.get t all) as [ts|] eqn:Et; simpl in H; [|discriminate].
    destruct (none_key ts) as [h| |]; simpl in H; try discriminate.
    destruct (Dict.get v all) as [vs|] eqn:Ev; simpl in H; [|discriminate].
    pose proof (Hsub t ts (or_introl (or_introl eq_refl)) Et) as Hts.
    pose proof (Hsub v vs (or_intror (or_introl eq_refl)) Ev) as Hvs.
    destruct (remove_ids_keys (Dict.keys ts) nt 0 Hnd) as [Hnd1 _].
    destruct (splice_in_keys h vs (remove_ids (Dict.keys ts) nt) 0 Hnd1)
      as [Hnd2 _].
    assert (Hsub' : forall x s,
              In x (map fst pairs) \/ In x (map snd pairs) ->
              Dict.get x all = Some s ->
              forall k, In k (Dict.keys s) <-> descends hm x k).
    { intros x s [Hx|Hx]; apply Hsub; simpl; auto. }
    assert (Hcross' : forall t' v' k, In t' (map fst pairs) ->
              In v' (map snd pairs) -> descends hm v' k ->
              ~ descends hm t' k).
    { intros t' v' k Ht' Hv'. apply Hcross; simpl; auto. }
    destruct (IH _ _ Hnd2 Hsub' Hcross' H) as [Hnd' Hkeys].
    split; [assumption|]. intros k. rewrite Hkeys.
    destruct (splice_in_keys h vs (remove_ids (Dict.keys ts) nt) k Hnd1)
      as [_ Hk1].
    destruct (remove_ids_keys (Dict.keys ts) nt k Hnd) as [_ Hk2].
    rewrite Hk1, Hk2, Hts, Hvs. simpl. split.
    + intros [[[Hv|[Hk Hnt]] Hrest]|[v' [Hv' Hd]]].
      * right. exists v. auto.
      * left. split; [assumption|]. intros t' [<-|Ht']; auto.
      * right. exists v'. auto.
    + intros [[Hk Hall]|[v' [[<-|Hv'] Hd]]].
      * left. split; [right; split; auto|auto].
      * left. split; [now left|]. intros t' Ht'.
        apply (Hcross t' v k); simpl; auto.
      * right. exists v'. auto.
Qed.

Lemma length_insert_sorted x l : length (insert_sorted x l) = S (length l).
Proof.
  induction l as [|y l IH]; simpl; [reflexivity|].
  destruct (x <=? y); simpl; [reflexivity|now rewrite IH].
Qed.

Lemma length_sorted l : length (sorted l) = length l.
Proof.
  unfold sorted. induction l as [|y l IH]; simpl; [reflexivity|].
  now rewrite length_insert_sorted, IH.
Qed.

(** Every negative the loop returns was built from two sorted draws of the
    sample size. *)
Lemma loop_negatives_forall_sized config (all : Dict.t head_map) s adj
    (P : head_map -> Prop) :
  (forall sig neg,
     incl (fst sig) (all_replacement_targets s) -> incl (snd sig) adj ->
     len (fst sig) = sample_size config s adj ->
     len (snd sig) = sample_size config s adj ->
     build_negative all s sig = Ok neg -> P neg) ->
  forall tape st st',
    valid_tape config s adj tape ->
    Forall P (negatives st) ->
    negatives_loop config all s adj tape st = Ok st' ->
    Forall P (negatives st').
Proof.
  intros Hbuild. induction tape as [|[dt dv] tape IH]; intros st st' Hv HP H.
  - destruct (Z.ltb_spec (len (negatives st))
                (max_negative_per_subtree config)) as [Hlt|Hge].
    + rewrite loop_nil in H by assumption. discriminate.
    + rewrite loop_done in H by assumption. now injection H as <-.
  - destruct (Z.ltb_spec (len (negatives st))
                (max_negative_per_subtree config)) as [Hlt|Hge].
    2: { rewrite loop_done in H by assumption. now injection H as <-. }
    rewrite loop_cons in H by assumption. cbv zeta in H.
    inversion Hv as [|? ? [Hdt Hdv] Hv']; subst. simpl in Hdt, Hdv.
    rewrite (random_sample_valid _ _ _ Hdt) in H.
    rewrite (random_sample_valid _ _ _ Hdv) in H. simpl in H.
    destruct (existsb _ (already_done st)).
    + destruct (retry_count st + 1 >? max_retry config).
      * now injection H as <-.
      * eapply IH; [exact Hv'| |exact H]. assumption.
    + destruct (build_negative all s _) as [nt| |] eqn:Eb; simpl in H;
        try discriminate.
      eapply IH; [exact Hv'| |exact H]. simpl.
      apply Forall_app. split; [assumption|]. constructor; [|constructor].
      eapply Hbuild; [| | | |exact Eb]; simpl.
      * intros x Hx. apply (is_sample_incl _ _ _ Hdt). now apply in_sorted.
      * intros x Hx. apply (is_sample_incl _ _ _ Hdv). now apply in_sorted.
      * unfold len. rewrite length_sorted. apply Hdt.
      * unfold len. rewrite length_sorted. apply Hdv.
Qed.

(** The adjacent ids of a kept candidate lie outside its subtree. *)
Lemma candidate_adjacent_outside set_of fuel config hm
    (all : Dict.t head_map) elig c :
  well_formed hm ->
  (forall l, Permutation l (set_of l)) ->
  (length hm <= fuel)%nat ->
  get_all_subtrees fuel hm = Ok all ->
  get_eligible_subtrees set_of fuel config hm all = Ok elig ->
  In c elig ->
  forall x, In x (adjacent_ids c) -> ~ In x (Dict.keys (subtree c)).
Proof.
  intros Hwf Hperm Hfuel Hall Helig Hc.
  destruct (candidate_facts _ _ _ _ _ _ _ Hwf Hperm Hfuel Hall Helig Hc)
    as [Hr [I _]].
  destruct (get_eligible_in _ _ _ _ _ _ _ Helig Hc) as [_ [Hadj _]].
  destruct (adjacent_ids_spec hm (root_id c)
              (set_of (Dict.keys (subtree c))) fuel Hwf Hr)
    as [adj' [Hadj' Hprop]]; [|assumption|].
  { intros k. split.
    - intros Hin. apply (bi_desc _ _ _ _ I). rewrite app_nil_r.
      eapply Permutation_in; [apply Permutation_sym, Hperm|exact Hin].
    - intros Hd. eapply Permutation_in; [apply Hperm|].
      eapply bfs_inv_complete; eauto. }
  assert (adj' = adjacent_ids c) by congruence. subst adj'.
  intros x Hx Hin. destruct (Hprop x Hx) as [_ [_ [_ [Hn _]]]].
  apply Hn. eapply Permutation_in; [apply Hperm|exact Hin].
Qed.

(** X12.  For a candidate the filter kept on a well-formed map and a sample
    size of at least 1, every negative tree returned differs from the
    positive subtree: it lacks a replacement target of the subtree and
    holds an adjacent id; and each id it holds is an id of the positive
    subtree or lies in the subtree of an adjacent id. *)
Theorem negatives_swap_ids :
  forall (set_of : list Z -> list Z) (fuel : nat) (config : TreeSgclConfig)
         (hm : head_map) (all_subtrees : Dict.t head_map)
         (eligible : list candidate) (c : candidate)
         (tape : list (list Z * list Z)) (ts : tree_set),
    well_formed hm ->
    (forall l, Permutation l (set_of l)) ->
    (length hm <= fuel)%nat ->
    get_all_subtrees fuel hm = Ok all_subtrees ->
    get_eligible_subtrees set_of fuel config hm all_subtrees = Ok eligible ->
    In c eligible ->
    valid_tape config (subtree c) (adjacent_ids c) tape ->
    1 <= sample_size config (subtree c) (adjacent_ids c) ->
    generate_negative_trees config all_subtrees c tape = Ok ts ->
    Forall
      (fun neg =>
         neg <> subtree c
         /\ (exists t, In t (all_replacement_targets (subtree c))
                       /\ ~ In t (Dict.keys neg))
         /\ (exists v, In v (adjacent_ids c) /\ In v (Dict.keys neg))
         /\ forall k, In k (Dict.keys neg) ->
              In k (Dict.keys (subtree c))
              \/ exists v, In v (adjacent_ids c) /\ descends hm v k)
      (ts_negatives ts).
Proof.
  intros set_of fuel config hm all elig c tape ts Hwf Hperm Hfuel Hall Helig
         Hc Hv Hk Hts.
  destruct (candidate_facts _ _ _ _ _ _ _ Hwf Hperm Hfuel Hall Helig Hc)
    as [Hr [I Hadj]].
  pose proof (candidate_adjacent_outside _ _ _ _ _ _ _ Hwf Hperm Hfuel Hall
                Helig Hc) as Hout.
  pose proof (bi_nodup _ _ _ _ I) as Hnd. rewrite app_nil_r in Hnd.
  assert (Hin_s : forall k, In k (Dict.keys (subtree c))
                            <-> descends hm (root_id c) k).
  { intros k. split.
    - intros H. apply (bi_desc _ _ _ _ I). now rewrite app_nil_r.
    - intros H. eapply bfs_inv_complete; eauto. }
  apply generate_negative_trees_Ok in Hts. destruct Hts as [st [Hloop ->]].
  simpl. eapply loop_negatives_forall_sized; [|exact Hv| |exact Hloop];
    [|constructor].
  intros [tg vl] neg Ht Hvl Hlt Hlv Hb. simpl in *.
  unfold build_negative in Hb. simpl in Hb.
  assert (Hfst : forall t, In t (map fst (combine tg vl)) -> In t tg).
  { intros t Hin. apply in_map_iff in Hin. destruct Hin as [[a b] [<- Hin]].
    now apply in_combine_l in Hin. }
  assert (Hsnd : forall v, In v (map snd (combine tg vl)) -> In v vl).
  { intros v Hin. apply in_map_iff in Hin. destruct Hin as [[a b] [<- Hin]].
    now apply in_combine_r in Hin. }
  destruct (replace_all_keys hm all (combine tg vl) (subtree c) neg Hnd)
    as [Hnd' Hkeys]; [| |exact Hb|].
  { intros x s [Hx|Hx] Hs k.
    - apply Hfst, Ht in Hx.
      destruct (target_below_root hm _ _ _ Hwf Hr I Hx) as [_ [Hkey _]].
      pose proof (get_all_subtrees_get _ _ _ _ _ Hall Hs) as Hsub.
      destruct (subtree_of_id_inv hm Hwf x Hkey fuel Hfuel) as [s' [Hs' I']].
      assert (s' = s) by congruence. subst s'. split.
      + intros H. apply (bi_desc _ _ _ _ I'). now rewrite app_nil_r.
      + intros H. eapply bfs_inv_complete; eauto.
    - apply Hsnd, Hvl in Hx. destruct (Hadj x Hx) as [_ [Hkey _]].
      pose proof (get_all_subtrees_get _ _ _ _ _ Hall Hs) as Hsub.
      destruct (subtree_of_id_inv hm Hwf x Hkey fuel Hfuel) as [s' [Hs' I']].
      assert (s' = s) by congruence. subst s'. split.
      + intros H. apply (bi_desc _ _ _ _ I'). now rewrite app_nil_r.
      + intros H. eapply bfs_inv_complete; eauto. }
  { intros t v k Hti Hvi Hdv Hdt.
    apply Hfst, Ht in Hti. apply Hsnd, Hvl in Hvi.
    apply in_replacement_targets in Hti. destruct Hti as [p Hti].
    apply (in_map fst) in Hti. simpl in Hti.
    apply Hin_s in Hti.
    destruct (Hadj v Hvi) as [_ [_ Hnanc]].
    assert (Hrk : descends hm (root_id c) k)
      by (eapply descends_trans; eauto).
    destruct (ancestors_comparable hm v (root_id c) k Hdv Hrk) as [H|H];
      [contradiction|].
    apply (Hout v Hvi). now apply Hin_s. }
  destruct tg as [|t tg]; [unfold len in Hlt; simpl in Hlt; lia|].
  destruct vl as [|v vl]; [unfold len in Hlv; simpl in Hlv; lia|].
  assert (Htin : In t (all_replacement_targets (subtree c)))
    by (apply Ht; now left).
  assert (Hvin : In v (adjacent_ids c)) by (apply Hvl; now left).
  assert (Htmiss : ~ In t (Dict.keys neg)).
  { intros Hin. apply Hkeys in Hin. destruct Hin as [[_ Hnone]|[v' [Hv' Hd]]].
    - apply (Hnone t); [simpl; now left|apply descends_refl].
    - apply Hsnd, Hvl in Hv'.
      apply in_replacement_targets in Htin. destruct Htin as [p Htin].
      apply (in_map fst) in Htin. simpl in Htin. apply Hin_s in Htin.
      destruct (Hadj v' Hv') as [_ [_ Hnanc]].
      destruct (ancestors_comparable hm v' (root_id c) t Hd Htin) as [H|H];
        [contradiction|].
      apply (Hout v' Hv'). now apply Hin_s. }
  split; [|split; [|split]].
  - intros ->. apply Htmiss.
    apply in_replacement_targets in Htin. destruct Htin as [p Htin].
    now apply (in_map fst) in Htin.
  - exists t. auto.
  - exists v. split; [assumption|]. apply Hkeys. right. exists v.
    split; [simpl; now left|apply descends_refl].
  - intros k Hin. apply Hkeys in Hin.
    destruct Hin as [[Hk' _]|[v' [Hv' Hd]]]; [now left|].
    right. exists v'. split; [now apply Hvl, Hsnd|assumption].
Qed.

Lemma negatives_swap_ids_witness :
  Forall
    (fun neg =>
       neg <> subtree cand_ex
       /\ (exists t, In t (all_replacement_targets (subtree cand_ex))
                     /\ ~ In t (Dict.keys neg))
       /\ (exists v, In v (adjacent_ids cand_ex) /\ In v (Dict.keys neg))
       /\ forall k, In k (Dict.keys neg) ->
            In k (Dict.keys (subtree cand_ex))
            \/ exists v, In v (adjacent_ids cand_ex) /\ descends hm_ex v k)
    [[(2, None); (3, Some 4)]].
Proof.
  apply (negatives_swap_ids (fun l => l) 5 cfg_ex hm_ex all_subtrees_ex
           [cand_ex] cand_ex (repeat ([4], [3]) 2)
           {| ts_root_id := 2; positive := subtree cand_ex;
              ts_negatives := [[(2, None); (3, Some 4)]] |}).
  - exact hm_ex_well_formed.
  - intros l. apply Permutation_refl.
  - simpl; lia.
  - reflexivity.
  - reflexivity.
  - simpl; tauto.
  - exact (valid_tape_ex 2).
  - vm_compute. discriminate.
  - reflexivity.
Defined.

(** X13.  With a negative [max_replacements] and a positive quota, the
    first draw raises [ValueError]: the sample size is negative whatever
    the candidate is. *)
Theorem negative_max_replacements_raises :
  forall (config : TreeSgclConfig) (all_subtrees : Dict.t head_map)
         (c : candidate) (d : list Z * list Z)
         (tape : list (list Z * list Z)),
    max_replacements config < 0 ->
    0 < max_negative_per_subtree config ->
    generate_negative_trees config all_subtrees c (d :: tape)
    = Raise ValueError.
Proof.
  intros config all c [dt dv] tape Hneg Hq. unfold generate_negative_trees.
  rewrite loop_cons by (simpl; unfold len; simpl; lia). cbv zeta.
  unfold random_sample at 1.
  assert (Hk : sample_size config (subtree c) (adjacent_ids c) < 0)
    by (unfold sample_size; lia).
  destruct (Z.ltb_spec (sample_size config (subtree c) (adjacent_ids c)) 0);
    [reflexivity|lia].
Qed.

Lemma negative_max_replacements_raises_witness :
  generate_negative_trees
    {| min_subtree_size := 2; max_replacements := -1;
       max_negative_per_subtree := 3; max_retry := 0 |}
    all_subtrees_ex cand_ex [([4], [3])]
  = Raise ValueError.
Proof.
  apply (negative_max_replacements_raises
           {| min_subtree_size := 2; max_replacements := -1;
              max_negative_per_subtree := 3; max_retry := 0 |}
           all_subtrees_ex cand_ex ([4], [3]) []).
  - simpl; lia.
  - simpl; lia.
Defined.

(** * Further properties: the batch entry point *)

(** ** The parent map builder *)

Lemma set_new {V : Type} (d : Dict.t V) k v :
  ~ In k (Dict.keys d) -> Dict.set k v d = d ++ [(k, v)].
Proof.
  induction d as [|[k0 v0] d IH]; simpl; intros Hn; [reflexivity|].
  destruct (Z.eqb_spec k k0) as [->|Hne].
  - exfalso. apply Hn. now left.
  - f_equal. apply IH. intros H. apply Hn. now right.
Qed.

Lemma build_head_map_fold : forall heads start (acc : head_map),
  (forall k, In k (Dict.keys acc) -> k <= Z.of_nat start) ->
  fold_left
    (fun d ih => Dict.set (Z.of_nat (fst ih) + 1) (Some (snd ih)) d)
    (combine (seq start (length heads)) heads) acc
  = acc ++ combine (map (fun i => Z.of_nat i + 1) (seq start (length heads)))
                   (map Some heads).
Proof.
  induction heads as [|h heads IH]; intros start acc Hacc; simpl.
  - now rewrite app_nil_r.
  - rewrite set_new.
    + rewrite IH.
      * now rewrite <- app_assoc.
      * intros k Hk. unfold Dict.keys in Hk. rewrite map_app in Hk.
        apply in_app_or in Hk. destruct Hk as [Hk|[<-|[]]].
        -- apply Hacc in Hk. lia.
        -- simpl. lia.
    + simpl. intros Hin. apply Hacc in Hin. lia.
Qed.

Lemma build_head_map_eq heads :
  build_head_map heads
  = (0, None) :: combine (map (fun i => Z.of_nat i + 1) (seq 0 (length heads)))
                         (map Some heads).
Proof.
  unfold build_head_map. rewrite build_head_map_fold; [reflexivity|].
  simpl. intros k [Hk|[]]. lia.
Qed.

Lemma keys_combine {V : Type} (ks : list Z) (vs : list V) :
  length ks = length vs -> Dict.keys (combine ks vs) = ks.
Proof.
  revert vs. induction ks as [|k ks IH]; intros [|v vs] H; simpl in *;
    try discriminate; [reflexivity|].
  f_equal. apply IH. lia.
Qed.

Lemma build_head_map_keys heads :
  Dict.keys (build_head_map heads)
  = 0 :: map (fun i => Z.of_nat i + 1) (seq 0 (length heads)).
Proof.
  rewrite build_head_map_eq. simpl. f_equal. apply keys_combine.
  now rewrite !length_map, length_seq.
Qed.

Lemma build_head_map_get : forall (heads : list Z) start i h,
  nth_error heads i = Some h ->
  In (Z.of_nat (start + i) + 1, Some h)
     (combine (map (fun i => Z.of_nat i + 1) (seq start (length heads)))
              (map Some heads)).
Proof.
  induction heads as [|h0 heads IH]; intros start i h Hn.
  - destruct i; discriminate.
  - destruct i as [|i]; simpl in *.
    + injection Hn as ->. left. f_equal. f_equal. lia.
    + right. replace (start + S i)%nat with (S start + i)%nat by lia.
      now apply IH.
Qed.

(** X14.  The parent map built from a row of heads has the ids
    [0 .. len(heads)] as keys, in order and without repetition; id 0 is its
    only entry without a parent, and id [i + 1] has the [i]-th head as
    parent. *)
Theorem build_head_map_positions :
  forall heads : list Z,
    Dict.keys (build_head_map heads)
    = map Z.of_nat (seq 0 (S (length heads)))
    /\ NoDup (Dict.keys (build_head_map heads))
    /\ dense_ids (build_head_map heads)
    /\ (forall k, Dict.get k (build_head_map heads) = Some None <-> k = 0)
    /\ (forall i h, nth_error heads i = Some h ->
          Dict.get (Z.of_nat i + 1) (build_head_map heads) = Some (Some h)).
Proof.
  intros heads.
  assert (Hkeys : Dict.keys (build_head_map heads)
                  = map Z.of_nat (seq 0 (S (length heads)))).
  { rewrite build_head_map_keys. simpl. f_equal.
    rewrite <- seq_shift, map_map. apply map_ext. intros a. lia. }
  assert (Hnd : NoDup (Dict.keys (build_head_map heads))).
  { rewrite Hkeys. apply Finite.Injective_map_NoDup; [|apply seq_NoDup].
    intros a b. lia. }
  split; [assumption|]. split; [assumption|]. split; [|split].
  - intros k. rewrite Hkeys, in_map_iff. unfold len.
    rewrite <- (length_map fst (build_head_map heads)).
    change (map fst (build_head_map heads))
      with (Dict.keys (build_head_map heads)).
    rewrite Hkeys, length_map, length_seq. split.
    + intros [i [<- Hi]]. apply in_seq in Hi. lia.
    + intros Hk. exists (Z.to_nat k). split; [lia|]. apply in_seq. lia.
  - intros k. split.
    + intros Hk. apply get_In in Hk. rewrite build_head_map_eq in Hk.
      destruct Hk as [Hk|Hk]; [congruence|].
      apply in_combine_r in Hk. apply in_map_iff in Hk.
      destruct Hk as [h [Hh _]]. discriminate.
    + intros ->. now rewrite build_head_map_eq.
  - intros i h Hn. apply In_get; [assumption|].
    rewrite build_head_map_eq. right.
    apply (build_head_map_get heads 0 i h Hn).
Qed.

Lemma filter_repeat_zero k :
  filter (fun h => negb (h =? 0)) (repeat 0 k) = [].
Proof. induction k; simpl; auto. Qed.

Lemma token_count_padded real k :
  token_count (real ++ repeat 0 k) = token_count real.
Proof.
  unfold token_count. now rewrite filter_app, filter_repeat_zero, app_nil_r.
Qed.

Lemma filter_zero_split (l : list Z) :
  (length (filter (fun h => negb (h =? 0)%Z) l)
   + length (filter (fun h => (h =? 0)%Z) l) = length l)%nat.
Proof.
  induction l as [|h l IH]; simpl; [reflexivity|].
  destruct (h =? 0); simpl; lia.
Qed.

(** X15.  Removing the padding of a row keeps one slot more than the row
    has non-zero heads.  So a sentence with exactly one head 0 (its root
    token) followed by zero padding is recovered exactly; with [z > 1]
    heads equal to 0 its last [z - 1] tokens are dropped; and with no head
    0 the first padding slot is taken for a token. *)
Theorem padless_head_cases :
  forall (real : list Z) (k : nat),
    let z := length (filter (fun h => h =? 0) real) in
    (z = 1%nat -> padless_head (real ++ repeat 0 k) = real)
    /\ ((1 <= z)%nat ->
        padless_head (real ++ repeat 0 k)
        = firstn (length real + 1 - z) real)
    /\ (z = 0%nat -> (1 <= k)%nat ->
        padless_head (real ++ repeat 0 k) = real ++ [0]).
Proof.
  intros real k z. unfold padless_head. rewrite token_count_padded.
  unfold token_count. pose proof (filter_zero_split real) as Hsplit.
  fold z in Hsplit.
  set (n := length (filter (fun h => negb (h =? 0)) real)) in *.
  split; [|split].
  - intros Hz. rewrite firstn_app.
    replace (S n - length real)%nat with 0%nat by lia.
    replace (S n) with (length real) by lia.
    now rewrite firstn_all, app_nil_r.
  - intros Hz. rewrite firstn_app.
    replace (S n - length real)%nat with 0%nat by lia.
    simpl firstn at 2. rewrite app_nil_r. f_equal. lia.
  - intros Hz Hk. rewrite firstn_app.
    replace (S n - length real)%nat with 1%nat by lia.
    rewrite firstn_all2 by lia. f_equal.
    destruct k; [lia|reflexivity].
Qed.

Lemma padless_head_cases_witness :
  padless_head ([2; 0; 2] ++ repeat 0 2) = [2; 0; 2].
Proof.
  apply (proj1 (padless_head_cases [2; 0; 2] 2)). reflexivity.
Defined.

(** ** Sentences of a batch *)

Lemma generate_for_sentence_shape config (all : Dict.t head_map) :
  forall cands tapes r,
    generate_for_sentence config all cands tapes = Ok r ->
    map ts_root_id r = map root_id cands
    /\ map positive r = map subtree cands.
Proof.
  induction cands as [|c cands IH]; intros tapes r H; simpl in H.
  - injection H as <-. now split.
  - destruct (generate_negative_trees config all c (hd [] tapes))
      as [ts| |] eqn:Ets; simpl in H; try discriminate.
    destruct (generate_for_sentence config all cands (tl tapes))
      as [rest| |] eqn:Er; simpl in H; try discriminate.
    injection H as <-. destruct (IH _ _ Er) as [H1 H2].
    apply generate_negative_trees_Ok in Ets. destruct Ets as [st [_ ->]].
    simpl. now rewrite H1, H2.
Qed.

Lemma generate_subtrees_stages set_of fuel sample config :
  forall head a e tapes out,
    map_result (get_all_subtrees fuel)
      (map (fun row => build_head_map (padless_head row)) head) = Ok a ->
    map_result
      (fun sa => get_eligible_subtrees set_of fuel config (fst sa) (snd sa))
      (combine (map (fun row => build_head_map (padless_head row)) head) a)
    = Ok e ->
    generate_for_batch config (combine (map sample e) a) tapes = Ok out ->
    Forall2
      (fun row tsets =>
         exists all elig,
           get_all_subtrees fuel (build_head_map (padless_head row)) = Ok all
           /\ get_eligible_subtrees set_of fuel config
                (build_head_map (padless_head row)) all = Ok elig
           /\ map ts_root_id tsets = map root_id (sample elig)
           /\ map positive tsets = map subtree (sample elig))
      head out.
Proof.
  induction head as [|row head IH]; intros a e tapes out Ha He Hout;
    simpl in *.
  - injection Ha as <-. simpl in He. injection He as <-. simpl in Hout.
    injection Hout as <-. constructor.
  - destruct (get_all_subtrees fuel (build_head_map (padless_head row)))
      as [a0| |] eqn:Ea0; simpl in Ha; try discriminate.
    destruct (map_result (get_all_subtrees fuel) _) as [a'| |] eqn:Ea';
      simpl in Ha; try discriminate.
    injection Ha as <-. simpl in He.
    destruct (get_eligible_subtrees set_of fuel config _ a0)
      as [e0| |] eqn:Ee0; simpl in He; try discriminate.
    destruct (map_result _ (combine _ a')) as [e'| |] eqn:Ee';
      simpl in He; try discriminate.
    injection He as <-. simpl in Hout.
    destruct (generate_for_sentence config a0 (sample e0) (hd [] tapes))
      as [r0| |] eqn:Er0; simpl in Hout; try discriminate.
    destruct (generate_for_batch config _ (tl tapes)) as [rs| |] eqn:Ers;
      simpl in Hout; try discriminate.
    injection Hout as <-. constructor.
    + exists a0, e0. destruct (generate_for_sentence_shape _ _ _ _ _ Er0).
      auto.
    + eapply IH; eauto.
Qed.

(** X17.  When [generate_subtrees] returns, its result has one list per
    row of the batch, and the list of a row has one tree set per candidate
    the sampling policy selected among the eligible candidates of that
    row's parent map, in the policy's order, with the candidate's root id
    and, as positive tree, the candidate's subtree. *)
Theorem generate_subtrees_shape :
  forall (set_of : list Z -> list Z) (fuel : nat)
         (sample : list candidate -> list candidate)
         (config : TreeSgclConfig) (head : list (list Z))
         (tapes : list (list (list (list Z * list Z))))
         (out : list (list tree_set)),
    generate_subtrees set_of fuel sample config head tapes = Ok out ->
    length out = length head
    /\ Forall2
         (fun row tsets =>
            exists all elig,
              get_all_subtrees fuel (build_head_map (padless_head row))
              = Ok all
              /\ get_eligible_subtrees set_of fuel config
                   (build_head_map (padless_head row)) all = Ok elig
              /\ map ts_root_id tsets = map root_id (sample elig)
              /\ map positive tsets = map subtree (sample elig))
         head out.
Proof.
  intros set_of fuel sample config head tapes out H.
  unfold generate_subtrees in H.
  destruct (map_result (get_all_subtrees fuel) _) as [a| |] eqn:Ea;
    simpl in H; try discriminate.
  destruct (map_result _ (combine _ a)) as [e| |] eqn:Ee; simpl in H;
    try discriminate.
  pose proof (generate_subtrees_stages _ _ _ _ _ _ _ _ _ Ea Ee H) as HF.
  split; [|exact HF]. symmetry. eapply Forall2_length; eauto.
Qed.

Lemma generate_subtrees_shape_witness :
  length [[{| ts_root_id := 2;
              positive := [(2, None); (4, Some 2)];
              ts_negatives := [[(2, None); (3, Some 4)]] |}]]
  = length [[0; 1; 1; 2]]
  /\ Forall2
       (fun row tsets =>
          exists all elig,
            get_all_subtrees 5 (build_head_map (padless_head row)) = Ok all
            /\ get_eligible_subtrees (fun l => l) 5 cfg_ex
                 (build_head_map (padless_head row)) all = Ok elig
            /\ map ts_root_id tsets = map root_id ((fun l => l) elig)
            /\ map positive tsets = map subtree ((fun l => l) elig))
       [[0; 1; 1; 2]]
       [[{| ts_root_id := 2;
            positive := [(2, None); (4, Some 2)];
            ts_negatives := [[(2, None); (3, Some 4)]] |}]].
Proof.
  apply (generate_subtrees_shape (fun l => l) 5 (fun l => l) cfg_ex
           [[0; 1; 1; 2]] [[repeat ([4], [3]) 2]]).
  reflexivity.
Defined.

(** * Further properties of data.py *)

(** ** Cycling through rows *)

Lemma nth_error_cycled {A : Type} (l : list A) : forall m i,
  (i < length l * m)%nat ->
  nth_error (concat (repeat l m)) i = nth_error l (i mod length l).
Proof.
  induction m as [|m IH]; intros i Hi; [lia|]. simpl.
  destruct (Nat.lt_ge_cases i (length l)) as [Hlt|Hge].
  - rewrite nth_error_app1 by assumption. now rewrite Nat.mod_small.
  - rewrite nth_error_app2 by assumption. rewrite IH by lia.
    f_equal. replace i with ((i - length l) + 1 * length l)%nat at 2 by lia.
    now rewrite Nat.Div0.mod_add.
Qed.

Lemma length_cycled {A : Type} (l : list A) m :
  length (concat (repeat l m)) = (length l * m)%nat.
Proof.
  induction m as [|m IH]; simpl; [lia|]. rewrite length_app, IH. lia.
Qed.

(** X18.  [ncycles(iterable, n)] yields [n] times the length of the
    sequence, nothing when [n <= 0], and its element at position [i] is
    the element of the sequence at position [i mod len]. *)
Theorem ncycles_positions :
  forall (A : Type) (iterable : list A) (n : Z),
    len (Data.ncycles iterable n) = len iterable * Z.max 0 n
    /\ (n <= 0 -> Data.ncycles iterable n = [])
    /\ (forall i, (i < length (Data.ncycles iterable n))%nat ->
          nth_error (Data.ncycles iterable n) i
          = nth_error iterable (i mod length iterable)).
Proof.
  intros A l n. unfold Data.ncycles. split; [|split].
  - unfold len. rewrite length_cycled. lia.
  - intros Hn. replace (Z.to_nat n) with 0%nat by lia. reflexivity.
  - intros i Hi. rewrite length_cycled in Hi. now apply nth_error_cycled.
Qed.

Lemma ncycles_positions_witness :
  nth_error (Data.ncycles [10; 20; 30] 2) 4
  = nth_error [10; 20; 30] (4 mod length [10; 20; 30]).
Proof.
  apply (proj2 (proj2 (ncycles_positions Z [10; 20; 30] 2)) 4%nat).
  simpl; lia.
Defined.

(** ** What [run] puts in each split *)

Section RunFacts.
Variables (Row Out : Type).
Variable process_row : Z -> Row -> Out.

Lemma cycle_take_length n (rows : list Out) :
  rows <> [] -> 0 <= n -> len (Data.cycle_take Out n rows) = n.
Proof.
  intros Hne Hn. unfold Data.cycle_take, len.
  rewrite length_firstn, length_cycled.
  destruct rows; [contradiction|]. simpl. nia.
Qed.

Lemma cycle_take_nth n (rows : list Out) i :
  (i < length (Data.cycle_take Out n rows))%nat ->
  nth_error (Data.cycle_take Out n rows) i
  = nth_error rows (i mod length rows).
Proof.
  unfold Data.cycle_take. rewrite length_firstn, length_cycled. intros Hi.
  rewrite nth_error_firstn.
  destruct (Nat.ltb_spec i (Z.to_nat n)); [|lia].
  apply nth_error_cycled. lia.
Qed.

Lemma cycle_take_nil n : Data.cycle_take Out n [] = [].
Proof.
  unfold Data.cycle_take.
  replace (concat (repeat [] (Z.to_nat n))) with (@nil Out);
    [apply firstn_nil|].
  induction (Z.to_nat n); simpl; auto.
Qed.

(** X19.  In the train split, when the capacity check passes and the split
    has a row, the new rows are the unlabeled rows, unchanged and first,
    followed by gold rows that cycle through the treebank rows in order;
    there are exactly [len(base_rows) // unlabeled_per_labeled] gold rows
    when the treebank has a train row, and none when it has no train row.
    With no unlabeled row the check passes only for an empty treebank
    split, and building the empty split raises [ValueError]. *)
Theorem train_split_upsampled :
  forall (tb : Data.dataset_dict Row) (unlabeled_per_labeled : Z)
         (rows tb_rows : list Row),
    unlabeled_per_labeled <> 0 ->
    Data.get_split "train" tb = Ok tb_rows ->
    len tb_rows <= len rows / unlabeled_per_labeled ->
    (rows = [] ->
     Data.finalize_split Row Out process_row (Some tb)
       unlabeled_per_labeled "train" rows = Raise ValueError)
    /\ (rows <> [] ->
        exists gold,
          Data.finalize_split Row Out process_row (Some tb)
            unlabeled_per_labeled "train" rows
          = Ok (map (process_row 0) rows ++ gold)
          /\ (tb_rows <> [] -> len gold = len rows / unlabeled_per_labeled)
          /\ (tb_rows = [] -> gold = [])
          /\ forall i, (i < length gold)%nat ->
               nth_error gold i
               = nth_error (map (process_row 1) tb_rows)
                           (i mod length tb_rows)).
Proof.
  intros tb upl rows tb_rows Hupl Htb Hcap.
  unfold Data.finalize_split. rewrite Htb. simpl.
  try rewrite String.eqb_refl.
  destruct (Z.eqb_spec upl 0); [contradiction|].
  rewrite !len_map.
  destruct (Z.gtb_spec (len tb_rows) (len rows / upl)); [lia|]. simpl.
  split.
  - intros ->. unfold len in Hcap. simpl in Hcap.
    rewrite Z.div_0_l in Hcap by assumption.
    destruct tb_rows; [|simpl in Hcap; lia].
    change (map (process_row 1) []) with (@nil Out).
    rewrite cycle_take_nil. reflexivity.
  - intros Hrows. rewrite from_generator_rows
      by (destruct rows; [contradiction|discriminate]).
    eexists. split; [reflexivity|]. split; [|split].
    + intros Hne. apply cycle_take_length.
      * destruct tb_rows; [contradiction|discriminate].
      * pose proof (len_nonneg tb_rows). lia.
    + intros ->. apply cycle_take_nil.
    + intros i Hi. rewrite cycle_take_nth by assumption.
      now rewrite length_map.
Qed.
End RunFacts.

Lemma train_split_upsampled_witness :
  ([1; 2; 3; 4; 5; 6; 7]%nat = [] ->
   Data.finalize_split nat (Z * nat) (fun g r => (g, r))
     (Some [("train", [7; 8]%nat)]) 2 "train" [1; 2; 3; 4; 5; 6; 7]%nat
   = Raise ValueError)
  /\ ([1; 2; 3; 4; 5; 6; 7]%nat <> [] ->
      exists gold,
        Data.finalize_split nat (Z * nat) (fun g r => (g, r))
          (Some [("train", [7; 8]%nat)]) 2 "train" [1; 2; 3; 4; 5; 6; 7]%nat
        = Ok (map (fun r => (0, r)) [1; 2; 3; 4; 5; 6; 7]%nat ++ gold)
        /\ ([7; 8]%nat <> [] -> len gold = len [1; 2; 3; 4; 5; 6; 7]%nat / 2)
        /\ ([7; 8]%nat = [] -> gold = [])
        /\ forall i, (i < length gold)%nat ->
             nth_error gold i
             = nth_error (map (fun r => (1, r)) [7; 8]%nat)
                         (i mod length [7; 8]%nat)).
Proof.
  apply (train_split_upsampled nat (Z * nat) (fun g r => (g, r))
           [("train", [7; 8]%nat)] 2 [1; 2; 3; 4; 5; 6; 7]%nat [7; 8]%nat).
  - lia.
  - reflexivity.
  - apply Z.leb_le. reflexivity.
Defined.

(** X20.  [run] reads the train and the dev split of the dataset before
    anything else: when either is missing it raises [KeyError], with or
    without a treebank dataset. *)
Theorem run_requires_train_and_dev :
  forall (Row Out : Type) (remove_tokens : Row -> Row)
         (process_row : Z -> Row -> Out)
         (dataset : Data.dataset_dict Row)
         (treebank_dataset : option (Data.dataset_dict Row))
         (unlabeled_per_labeled : Z),
    ~ In "train" (map fst dataset) \/ ~ In "dev" (map fst dataset) ->
    Data.run Row Out remove_tokens process_row dataset treebank_dataset
      unlabeled_per_labeled = Raise KeyError.
Proof.
  intros Row Out remove_tokens process_row dataset tbo upl H.
  unfold Data.run.
  destruct (get_labels_splits_cases Row
              (Data.remove_columns Row remove_tokens dataset) tbo)
    as [[_ [H1 [H2 _]]]|[-> _]]; [|reflexivity].
  rewrite remove_columns_names in H1, H2. tauto.
Qed.

Lemma run_requires_train_and_dev_witness :
  Data.run unit unit (fun r => r) (fun _ r => r)
    [("train", [tt]); ("test", [tt])] None 8
  = Raise KeyError.
Proof.
  apply (run_requires_train_and_dev unit unit (fun r => r) (fun _ r => r)
           [("train", [tt]); ("test", [tt])] None 8).
  right. simpl. intros [H|[H|[]]]; discriminate.
Defined.

Section NoTreebank.
Variables (Row Out : Type).
Variable process_row : Z -> Row -> Out.
Variable unlabeled_per_labeled : Z.



End NoTreebank.



Lemma finalize_splits_Forall2 (Row Out : Type)
    (process_row : Z -> Row -> Out) tbo upl : forall splits acc d,
  Data.finalize_splits Row Out process_row tbo upl splits acc = Ok d ->
  exists new,
    d = acc ++ new
    /\ Forall2
         (fun sr so =>
            fst so = fst sr
            /\ Data.finalize_split Row Out process_row tbo upl
                 (fst sr) (snd sr) = Ok (snd so))
         splits new.
Proof.
  induction splits as [|[split rows] splits IH]; intros acc d H; simpl in H.
  - injection H as <-. exists []. rewrite app_nil_r. split; constructor.
  - destruct (Data.finalize_split Row Out process_row tbo upl split rows)
      as [r| |] eqn:Er; simpl in H; try discriminate.
    destruct (IH _ _ H) as [new [-> HF]].
    exists ((split, r) :: new). split; [now rewrite <- app_assoc|].
    constructor; [simpl; auto|assumption].
Qed.

Lemma Forall2_map_left {A B C : Type} (f : A -> B) (P : B -> C -> Prop) :
  forall l l', Forall2 P (map f l) l' -> Forall2 (fun a c => P (f a) c) l l'.
Proof.
  induction l as [|a l IH]; intros l' H; inversion H; subst; constructor;
    auto.
Qed.

(** X22.  When [run] returns with a treebank dataset, the result is in the
    torch format and has the splits of the dataset under the same names and
    in the same order; each split starts with its own rows, without their
    tokens column and processed with [tree_is_gold = 0], and a split other
    than train continues with all rows of the treebank split of the same
    name, once each, processed with [tree_is_gold = 1]. *)
Theorem run_with_treebank_splits :
  forall (Row Out : Type) (remove_tokens : Row -> Row)
         (process_row : Z -> Row -> Out)
         (dataset tb : Data.dataset_dict Row) (unlabeled_per_labeled : Z)
         (d : Data.formatted Out),
    Data.run Row Out remove_tokens process_row dataset (Some tb)
      unlabeled_per_labeled
    = Ok d ->
    Data.ds_format d = "torch"
    /\ map fst (Data.ds_splits d) = map fst dataset
    /\ Forall2
         (fun sr so =>
            fst so = fst sr
            /\ exists gold,
                 snd so
                 = map (fun r => process_row 0 (remove_tokens r)) (snd sr)
                   ++ gold
                 /\ (fst sr <> "train" ->
                     exists tb_rows,
                       Data.get_split (fst sr) tb = Ok tb_rows
                       /\ gold = map (process_row 1) tb_rows))
         dataset (Data.ds_splits d).
Proof.
  intros Row Out remove_tokens process_row dataset tb upl d H.
  unfold Data.run in H.
  destruct (Data.get_labels_splits Row _ (Some tb)); simpl in H;
    try discriminate.
  destruct (Data.finalize_splits Row Out process_row (Some tb) upl
              (Data.remove_columns Row remove_tokens dataset) [])
    as [new| |] eqn:E; simpl in H; try discriminate.
  injection H as <-. simpl. split; [reflexivity|].
  apply finalize_splits_Forall2 in E. destruct E as [new' [-> HF]]. simpl.
  unfold Data.remove_columns in HF. apply Forall2_map_left in HF.
  split.
  - clear -HF. induction HF as [|sr so l l' [Hn _] _ IH]; simpl;
      [reflexivity|]. simpl in Hn. now rewrite Hn, IH.
  - eapply Forall2_impl; [|exact HF].
    intros [split rows] [split' out] [Hn Hs]. simpl in *. subst split'.
    split; [reflexivity|]. unfold Data.finalize_split in Hs.
    destruct (Data.get_split split tb) as [tb_rows| |] eqn:Etb; simpl in Hs;
      try discriminate.
    rewrite map_map in Hs.
    destruct (String.eqb_spec split "train") as [->|Hne].
    + destruct (upl =? 0); [discriminate|].
      destruct (_ >? _); [discriminate|]. simpl in Hs.
      destruct (from_generator_cases Out
                  (map (fun r => process_row 0 (remove_tokens r)) rows
                   ++ Data.cycle_take Out
                        (len (map (fun r => process_row 0 (remove_tokens r))
                                rows) / upl)
                        (map (process_row 1) tb_rows)))
        as [[_ Hg]|[_ Hg]]; rewrite Hg in Hs; [discriminate|].
      injection Hs as <-.
      eexists. split; [reflexivity|]. intros Habs. now contradiction Habs.
    + simpl in Hs.
      destruct (from_generator_cases Out
                  (map (fun r => process_row 0 (remove_tokens r)) rows
                   ++ map (process_row 1) tb_rows))
        as [[_ Hg]|[_ Hg]]; rewrite Hg in Hs; [discriminate|].
      injection Hs as <-. eexists. split; [reflexivity|].
      intros _. exists tb_rows. now split.
Qed.

Lemma run_with_treebank_splits_witness :
  Data.ds_format
    (Data.Formatted "torch"
       [("train", [(0, 2); (0, 3); (1, 9)]%nat);
        ("dev", [(0, 4); (1, 8)]%nat)])
  = "torch"
  /\ map fst
       (Data.ds_splits
          (Data.Formatted "torch"
             [("train", [(0, 2); (0, 3); (1, 9)]%nat);
              ("dev", [(0, 4); (1, 8)]%nat)]))
     = map fst [("train", [1; 2]%nat); ("dev", [3]%nat)]
  /\ Forall2
       (fun sr so =>
          fst so = fst sr
          /\ exists gold,
               snd so = map (fun r => (0%nat, S r)) (snd sr) ++ gold
               /\ (fst sr <> "train" ->
                   exists tb_rows,
                     Data.get_split (fst sr)
                       [("train", [9]%nat); ("dev", [8]%nat); ("test", [])]
                     = Ok tb_rows
                     /\ gold = map (fun r => (1%nat, r)) tb_rows))
       [("train", [1; 2]%nat); ("dev", [3]%nat)]
       (Data.ds_splits
          (Data.Formatted "torch"
             [("train", [(0, 2); (0, 3); (1, 9)]%nat);
              ("dev", [(0, 4); (1, 8)]%nat)])).
Proof.
  apply (run_with_treebank_splits nat (nat * nat) S
           (fun g r => (Z.to_nat g, r))
           [("train", [1; 2]%nat); ("dev", [3]%nat)]
           [("train", [9]%nat); ("dev", [8]%nat); ("test", [])] 2).
  reflexivity.
Defined.




(** ** The label vocabularies *)

Lemma in_label_add y x s : In y (Data.label_add x s) <-> y = x \/ In y s.
Proof.
  unfold Data.label_add. destruct (existsb (String.eqb x) s) eqn:E.
  - split; [auto|]. intros [->|H]; [|assumption].
    apply existsb_exists in E. destruct E as [z [Hz Heq]].
    apply String.eqb_eq in Heq. now subst.
  - rewrite in_app_iff. simpl. split; [intros [H|[H|[]]]|intros [H|H]]; auto.
Qed.

Lemma NoDup_label_add x s : NoDup s -> NoDup (Data.label_add x s).
Proof.
  intros Hnd. unfold Data.label_add.
  destruct (existsb (String.eqb x) s) eqn:E; [assumption|].
  apply NoDup_app; [assumption|repeat constructor; auto|].
  intros y Hy [<-|[]].
  assert (Ht : existsb (String.eqb x) s = true).
  { apply existsb_exists. exists x. split; [assumption|apply String.eqb_refl]. }
  congruence.
Qed.

Lemma label_add_all_spec : forall xs s y,
  (In y (Data.label_add_all xs s) <-> In y xs \/ In y s)
  /\ (NoDup s -> NoDup (Data.label_add_all xs s)).
Proof.
  unfold Data.label_add_all. induction xs as [|x xs IH]; intros s y; simpl.
  - split; [tauto|auto].
  - destruct (IH (Data.label_add x s) y) as [H1 H2]. split.
    + rewrite H1, in_label_add. split; intros H; intuition (subst; auto).
    + intros Hnd. apply H2. now apply NoDup_label_add.
Qed.

Lemma add_rows_spec {Row : Type} (col : Row -> list String.string) :
  forall rows s y,
    (In y (Data.add_rows Row col rows s) <->
     In y s \/ exists d, In d rows /\ In y (col d))
    /\ (NoDup s -> NoDup (Data.add_rows Row col rows s)).
Proof.
  unfold Data.add_rows. induction rows as [|d rows IH]; intros s y; simpl.
  - split; [|auto]. split; [auto|]. intros [H|[d [[] _]]]. exact H.
  - destruct (IH (Data.label_add_all (col d) s) y) as [H1 H2].
    destruct (label_add_all_spec (col d) s y) as [H3 H4]. split.
    + rewrite H1, H3. split.
      * intros [[H|H]|[d' [Hd' Hy]]]; eauto.
      * intros [H|[d' [[<-|Hd'] Hy]]]; eauto.
    + intros Hnd. apply H2.
      now apply (proj2 (label_add_all_spec (col d) s y)).
Qed.

Lemma collect_labels_spec {Row : Type}
    (xpos_of deprel_of : Row -> list String.string)
    (d : Data.dataset_dict Row) : forall splits sets sets',
  Data.collect_labels Row xpos_of deprel_of d splits sets = Ok sets' ->
  (forall y, In y (fst sets') <->
     In y (fst sets)
     \/ exists split rows r, In split splits
          /\ Data.get_split split d = Ok rows /\ In r rows
          /\ In y (xpos_of r))
  /\ (forall y, In y (snd sets') <->
        In y (snd sets)
        \/ exists split rows r, In split splits
             /\ Data.get_split split d = Ok rows /\ In r rows
             /\ In y (deprel_of r))
  /\ (NoDup (fst sets) -> NoDup (fst sets'))
  /\ (NoDup (snd sets) -> NoDup (snd sets')).
Proof.
  induction splits as [|split splits IH]; intros sets sets' H; simpl in H.
  - injection H as <-. repeat split; auto;
      intros [Hy|[s [rows [r [[] _]]]]]; exact Hy.
  - destruct (Data.get_split split d) as [rows| |] eqn:Er; simpl in H;
      try discriminate.
    destruct (IH _ _ H) as [H1 [H2 [H3 H4]]]. simpl in *.
    split; [|split; [|split]].
    + intros y. rewrite H1.
      rewrite (proj1 (add_rows_spec xpos_of rows (fst sets) y)). split.
      * intros [[Hy|[r [Hr Hy]]]|[s [rs [r [Hs Hrest]]]]].
        -- now left.
        -- right. exists split, rows, r. auto.
        -- right. exists s, rs, r. auto.
      * intros [Hy|[s [rs [r [[<-|Hs] [Hg [Hr Hy]]]]]]].
        -- auto.
        -- left. right. exists r. split; [congruence|assumption].
        -- right. exists s, rs, r. auto.
    + intros y. rewrite H2.
      rewrite (proj1 (add_rows_spec deprel_of rows (snd sets) y)). split.
      * intros [[Hy|[r [Hr Hy]]]|[s [rs [r [Hs Hrest]]]]].
        -- now left.
        -- right. exists split, rows, r. auto.
        -- right. exists s, rs, r. auto.
      * intros [Hy|[s [rs [r [[<-|Hs] [Hg [Hr Hy]]]]]]].
        -- auto.
        -- left. right. exists r. split; [congruence|assumption].
        -- right. exists s, rs, r. auto.
    + intros Hnd. apply H3.
      now apply (proj2 (add_rows_spec xpos_of rows (fst sets) "")).
    + intros Hnd. apply H4.
      now apply (proj2 (add_rows_spec deprel_of rows (snd sets) "")).
Qed.

Lemma in_insert_label y x l : In y (Data.insert_label x l) <-> y = x \/ In y l.
Proof.
  induction l as [|z l IH]; simpl.
  - split; [intros [H|[]]|intros [H|[]]]; auto.
  - destruct (String.leb x z); simpl; [|rewrite IH]; split; intros H;
      intuition (subst; auto).
Qed.

Lemma NoDup_insert_label x l :
  NoDup l -> ~ In x l -> NoDup (Data.insert_label x l).
Proof.
  induction l as [|z l IH]; simpl; intros Hnd Hn.
  - repeat constructor. auto.
  - destruct (String.leb x z).
    + constructor; assumption.
    + inversion Hnd as [|? ? Hz Hnd']; subst. constructor.
      * rewrite in_insert_label. intros [->|H]; [|contradiction].
        apply Hn. now left.
      * apply IH; [assumption|]. intros H. apply Hn. now right.
Qed.

Lemma Sorted_insert_label x l :
  labels_ascending l -> labels_ascending (Data.insert_label x l).
Proof.
  unfold labels_ascending. induction l as [|z l IH]; simpl; intros Hs.
  - repeat constructor.
  - destruct (String.leb x z) eqn:E.
    + constructor; [assumption|]. now constructor.
    + inversion Hs as [|? ? Hs' Hhd]; subst. constructor; [now apply IH|].
      assert (Hzx : String.leb z x = true).
      { destruct (String.leb_total x z); congruence. }
      destruct l as [|w l]; simpl.
      * now constructor.
      * destruct (String.leb x w); constructor; [assumption|].
        now inversion Hhd.
Qed.

Lemma sorted_labels_spec s :
  (forall y, In y (Data.sorted_labels s) <-> In y s)
  /\ labels_ascending (Data.sorted_labels s)
  /\ (NoDup s -> NoDup (Data.sorted_labels s)).
Proof.
  unfold Data.sorted_labels. induction s as [|x s [H1 [H2 H3]]]; simpl.
  - split; [tauto|]. split; constructor.
  - split; [|split].
    + intros y. rewrite in_insert_label, H1. split; intros [H|H]; auto.
    + now apply Sorted_insert_label.
    + intros Hnd. inversion Hnd as [|? ? Hx Hnd']; subst.
      apply NoDup_insert_label; [auto|]. now rewrite H1.
Qed.

(** X24.  When [_get_labels] returns, each of its two lists is in ascending
    order without repetition and holds exactly the labels of its column
    found in the train and dev splits of the dataset and in the train, dev
    and test splits of the treebank dataset: a label that occurs only in
    another split of the dataset, its test split say, is not in the
    vocabulary. *)
Theorem get_labels_vocabulary :
  forall (Row : Type) (xpos_of deprel_of : Row -> list String.string)
         (dataset : Data.dataset_dict Row)
         (treebank_dataset : option (Data.dataset_dict Row))
         (xpos deprels : list String.string),
    Data.get_labels Row xpos_of deprel_of dataset treebank_dataset
    = Ok (xpos, deprels) ->
    labels_ascending xpos /\ NoDup xpos
    /\ labels_ascending deprels /\ NoDup deprels
    /\ (forall y, In y xpos
                  <-> label_source xpos_of dataset treebank_dataset y)
    /\ (forall y, In y deprels
                  <-> label_source deprel_of dataset treebank_dataset y).
Proof.
  intros Row xpos_of deprel_of dataset tbo xpos deprels H.
  unfold Data.get_labels in H.
  destruct (Data.collect_labels Row xpos_of deprel_of dataset
              ["train"; "dev"] ([], [])) as [s1| |] eqn:E1; simpl in H;
    try discriminate.
  destruct (collect_labels_spec _ _ _ _ _ _ E1) as [A1 [A2 [A3 A4]]].
  simpl in A1, A2, A3, A4.
  assert (Hs2 : exists s2,
            match tbo with
            | Some tb => Data.collect_labels Row xpos_of deprel_of tb
                           ["train"; "dev"; "test"] s1
            | None => Ok s1
            end = Ok s2
            /\ xpos = Data.sorted_labels (fst s2)
            /\ deprels = Data.sorted_labels (snd s2)).
  { destruct (match tbo with Some _ => _ | None => _ end) as [s2| |];
      simpl in H; try discriminate.
    injection H as <- <-. eauto. }
  clear H. destruct Hs2 as [s2 [E2 [-> ->]]].
  destruct (sorted_labels_spec (fst s2)) as [X1 [X2 X3]].
  destruct (sorted_labels_spec (snd s2)) as [Y1 [Y2 Y3]].
  assert (HB : (forall y, In y (fst s2)
                          <-> label_source xpos_of dataset tbo y)
               /\ (forall y, In y (snd s2)
                             <-> label_source deprel_of dataset tbo y)
               /\ NoDup (fst s2) /\ NoDup (snd s2)).
  { unfold label_source. destruct tbo as [tb|].
    - destruct (collect_labels_spec _ _ _ _ _ _ E2) as [B1 [B2 [B3 B4]]].
      split; [|split; [|split]].
      + intros y. rewrite B1, A1. split.
        * intros [[[]|[s [rs [r Hx]]]]|[s [rs [r Hx]]]].
          -- left. exists s, rs, r. exact Hx.
          -- right. exists tb, s, rs, r. tauto.
        * intros [[s [rs [r Hx]]]|[tb' [s [rs [r [Heq Hx]]]]]].
          -- left. right. exists s, rs, r. exact Hx.
          -- injection Heq as <-. right. exists s, rs, r. exact Hx.
      + intros y. rewrite B2, A2. split.
        * intros [[[]|[s [rs [r Hx]]]]|[s [rs [r Hx]]]].
          -- left. exists s, rs, r. exact Hx.
          -- right. exists tb, s, rs, r. tauto.
        * intros [[s [rs [r Hx]]]|[tb' [s [rs [r [Heq Hx]]]]]].
          -- left. right. exists s, rs, r. exact Hx.
          -- injection Heq as <-. right. exists s, rs, r. exact Hx.
      + apply B3, A3. constructor.
      + apply B4, A4. constructor.
    - injection E2 as <-. split; [|split; [|split]].
      + intros y. rewrite A1. split.
        * intros [[]|Hx]. now left.
        * intros [Hx|[tb' [s [rs [r [Heq _]]]]]]; [now right|discriminate].
      + intros y. rewrite A2. split.
        * intros [[]|Hx]. now left.
        * intros [Hx|[tb' [s [rs [r [Heq _]]]]]]; [now right|discriminate].
      + apply A3. constructor.
      + apply A4. constructor. }
  destruct HB as [B1 [B2 [B3 B4]]].
  split; [assumption|]. split; [auto|]. split; [assumption|].
  split; [auto|]. split.
  - intros y. now rewrite X1.
  - intros y. now rewrite Y1.
Qed.

Lemma get_labels_vocabulary_witness :
  labels_ascending ["ADJ"; "NOUN"] /\ NoDup ["ADJ"; "NOUN"]
  /\ labels_ascending ["det"; "nsubj"] /\ NoDup ["det"; "nsubj"]
  /\ (forall y, In y ["ADJ"; "NOUN"]
                <-> label_source fst
                      [("train", [(["NOUN"; "ADJ"], ["nsubj"])]);
                       ("dev", [(["NOUN"], ["det"])]);
                       ("test", [(["VERB"], ["obj"])])]
                      None y)
  /\ (forall y, In y ["det"; "nsubj"]
                <-> label_source snd
                      [("train", [(["NOUN"; "ADJ"], ["nsubj"])]);
                       ("dev", [(["NOUN"], ["det"])]);
                       ("test", [(["VERB"], ["obj"])])]
                      None y).
Proof.
  apply (get_labels_vocabulary
           (list String.string * list String.string) fst snd
           [("train", [(["NOUN"; "ADJ"], ["nsubj"])]);
            ("dev", [(["NOUN"], ["det"])]);
            ("test", [(["VERB"], ["obj"])])]
           None ["ADJ"; "NOUN"] ["det"; "nsubj"]).
  reflexivity.
Defined.

(** The split accesses kept in [get_labels_splits] are those of
    [get_labels]: one returns exactly when the other does. *)
Lemma get_labels_splits_agree {Row : Type}
    (xpos_of deprel_of : Row -> list String.string)
    (dataset : Data.dataset_dict Row) tbo :
  (exists r, Data.get_labels Row xpos_of deprel_of dataset tbo = Ok r)
  <-> Data.get_labels_splits Row dataset tbo = Ok tt.
Proof.
  unfold Data.get_labels, Data.get_labels_splits. simpl.
  destruct (get_split_cases "train" dataset) as [[r1 [H1 _]]|[H1 _]];
    rewrite H1; simpl.
  2: split; [intros [r Hr]; discriminate|discriminate].
  destruct (get_split_cases "dev" dataset) as [[r2 [H2 _]]|[H2 _]];
    rewrite H2; simpl.
  2: split; [intros [r Hr]; discriminate|discriminate].
  destruct tbo as [tb|]; simpl; [|split; eauto].
  destruct (get_split_cases "train" tb) as [[r3 [H3 _]]|[H3 _]];
    rewrite H3; simpl.
  2: split; [intros [r Hr]; discriminate|discriminate].
  destruct (get_split_cases "dev" tb) as [[r4 [H4 _]]|[H4 _]];
    rewrite H4; simpl.
  2: split; [intros [r Hr]; discriminate|discriminate].
  destruct (get_split_cases "test" tb) as [[r5 [H5 _]]|[H5 _]];
    rewrite H5; simpl.
  2: split; [intros [r Hr]; discriminate|discriminate].
  split; eauto.
Qed.

(** X25.  A treebank dataset must have a train, a dev and a test split:
    when one of them is missing, [run] raises [KeyError] before it builds
    any split, even if the dataset has no split of that name. *)
Theorem run_requires_treebank_splits :
  forall (Row Out : Type) (remove_tokens : Row -> Row)
         (process_row : Z -> Row -> Out)
         (dataset tb : Data.dataset_dict Row) (unlabeled_per_labeled : Z),
    ~ In "train" (map fst tb) \/ ~ In "dev" (map fst tb)
    \/ ~ In "test" (map fst tb) ->
    Data.run Row Out remove_tokens process_row dataset (Some tb)
      unlabeled_per_labeled
    = Raise KeyError.
Proof.
  intros Row Out remove_tokens process_row dataset tb upl H.
  unfold Data.run.
  destruct (get_labels_splits_cases Row
              (Data.remove_columns Row remove_tokens dataset) (Some tb))
    as [[_ [_ [_ Htb]]]|[-> _]]; [|reflexivity].
  destruct (Htb tb eq_refl) as [H1 [H2 H3]]. tauto.
Qed.

Lemma run_requires_treebank_splits_witness :
  Data.run unit unit (fun r => r) (fun _ r => r)
    [("train", [tt; tt]); ("dev", [tt])]
    (Some [("train", [tt]); ("dev", [tt])]) 1
  = Raise KeyError.
Proof.
  apply (run_requires_treebank_splits unit unit (fun r => r) (fun _ r => r)
           [("train", [tt; tt]); ("dev", [tt])]
           [("train", [tt]); ("dev", [tt])] 1).
  right. right. simpl. intros [H|[H|[]]]; discriminate.
Defined.

(** * Further properties: what the filter leaves to the generator *)

(** X26.  With [min_subtree_size >= 2] and [max_replacements >= 1], every
    candidate the filter keeps on a well-formed map has a replacement
    target and an adjacent id, so its sample size is at least 1 and at most
    [max_replacements]. *)
Theorem kept_candidate_sample_size :
  forall (set_of : list Z -> list Z) (fuel : nat) (config : TreeSgclConfig)
         (hm : head_map) (all_subtrees : Dict.t head_map)
         (eligible : list candidate) (c : candidate),
    well_formed hm ->
    (forall l, Permutation l (set_of l)) ->
    (length hm <= fuel)%nat ->
    get_all_subtrees fuel hm = Ok all_subtrees ->
    get_eligible_subtrees set_of fuel config hm all_subtrees = Ok eligible ->
    In c eligible ->
    2 <= min_subtree_size config ->
    1 <= max_replacements config ->
    1 <= sample_size config (subtree c) (adjacent_ids c)
      <= max_replacements config.
Proof.
  intros set_of fuel config hm all elig c Hwf Hperm Hfuel Hall Helig Hc
         Hmin Hmax.
  destruct (candidate_facts _ _ _ _ _ _ _ Hwf Hperm Hfuel Hall Helig Hc)
    as [Hr [I _]].
  destruct (get_eligible_in _ _ _ _ _ _ _ Helig Hc) as [_ [_ [Hsize Hadj]]].
  pose proof (bi_nodup _ _ _ _ I) as Hnd. rewrite app_nil_r in Hnd.
  assert (Hk : exists k, In k (Dict.keys (subtree c)) /\ k <> root_id c).
  { destruct (subtree c) as [|[k1 v1] [|[k2 v2] s']];
      try (unfold len in Hsize; simpl in Hsize; lia).
    simpl in Hnd. inversion Hnd as [|? ? Hn _]; subst.
    destruct (Z.eq_dec k1 (root_id c)) as [->|Hne].
    - exists k2. split; [simpl; tauto|]. intros ->. apply Hn. now left.
    - exists k1. split; [simpl; tauto|assumption]. }
  destruct Hk as [k [Hkin Hkr]].
  assert (Ht : In k (all_replacement_targets (subtree c))).
  { destruct (bi_seen _ _ _ _ I k Hkin Hkr) as [p [Hp _]].
    apply in_replacement_targets. exists p. apply get_In.
    rewrite (bi_vals _ _ _ _ I k Hkin Hkr). now apply parent_Some. }
  assert (Hlen : 1 <= len (all_replacement_targets (subtree c))).
  { unfold len. destruct (all_replacement_targets (subtree c));
      [contradiction|simpl; lia]. }
  unfold sample_size. lia.
Qed.

Lemma kept_candidate_sample_size_witness :
  1 <= sample_size cfg_ex (subtree cand_ex) (adjacent_ids cand_ex)
    <= max_replacements cfg_ex.
Proof.
  apply (kept_candidate_sample_size (fun l => l) 5 cfg_ex hm_ex
           all_subtrees_ex [cand_ex] cand_ex).
  - exact hm_ex_well_formed.
  - intros l. apply Permutation_refl.
  - simpl; lia.
  - reflexivity.
  - reflexivity.
  - simpl; tauto.
  - simpl; lia.
  - simpl; lia.
Defined.
